(** * Audit ledger: the Composer (bakers-agent-v1) and the Publisher
    (bakers-poster-v1) over a shared Firestore collection.

    The two Cloud Functions are embedded shallowly: Firestore documents are
    finite maps from field names to values, a transaction is a function from
    the snapshot it reads to the writes it buffers, and the two handlers are
    programs over the atomic operations they perform on the store and on the
    outside world, so that the same text gives their sequential runs and
    their interleavings. *)

From Stdlib Require Import ZArith NArith String Ascii List Lia DecimalString.
From stdpp Require Import base option list gmap strings fin_maps relations.

Local Open Scope string_scope.
Local Open Scope Z_scope.

(** ** Python strings

    A [str] is modelled as a [string] whose characters are the code points
    U+0000..U+00FF; classification and case mapping are Python's on that
    range. *)

Definition code_point (a : ascii) : N := N_of_ascii a.

(** [str.isspace] on one character: TAB..CR, FS..US, SPACE, NEL, NBSP. *)
Definition py_isspace (a : ascii) : bool :=
  let c := code_point a in
  ((9 <=? c) && (c <=? 13) || (28 <=? c) && (c <=? 32) || (c =? 133) || (c =? 160))%N.

(** The decimal digits [\d] matches on this range. *)
Definition py_isdigit (a : ascii) : bool :=
  let c := code_point a in ((48 <=? c) && (c <=? 57))%N.

Definition py_lower_char (a : ascii) : ascii :=
  let c := code_point a in
  if ((65 <=? c) && (c <=? 90) || (192 <=? c) && (c <=? 222) && negb (c =? 215))%N
  then ascii_of_N (c + 32) else a.

Fixpoint py_lower (s : string) : string :=
  match s with
  | EmptyString => EmptyString
  | String a t => String (py_lower_char a) (py_lower t)
  end.

Definition str_is_empty (s : string) : bool :=
  match s with EmptyString => true | String _ _ => false end.

Fixpoint py_lstrip (s : string) : string :=
  match s with
  | EmptyString => EmptyString
  | String a t => if py_isspace a then py_lstrip t else s
  end.

Fixpoint py_rstrip (s : string) : string :=
  match s with
  | EmptyString => EmptyString
  | String a t =>
      let t' := py_rstrip t in
      if str_is_empty t' && py_isspace a then EmptyString else String a t'
  end.

(** [s.strip()] *)
Definition py_strip (s : string) : string := py_rstrip (py_lstrip s).

(** [s.split()]: maximal runs of non-whitespace characters; [cur] is the
    word being read. *)
Fixpoint py_split_from (cur : string) (s : string) : list string :=
  match s with
  | EmptyString => if str_is_empty cur then [] else [cur]
  | String a t =>
      if py_isspace a
      then (if str_is_empty cur then py_split_from EmptyString t
            else cur :: py_split_from EmptyString t)
      else py_split_from (cur ++ String a EmptyString) t
  end.

Definition py_split (s : string) : list string := py_split_from EmptyString s.

Fixpoint py_startswith (pre s : string) : bool :=
  match pre, s with
  | EmptyString, _ => true
  | String a p, String b t => if Ascii.eqb a b then py_startswith p t else false
  | String _ _, EmptyString => false
  end.

(** [needle in hay] *)
Fixpoint py_in (needle hay : string) : bool :=
  py_startswith needle hay ||
  match hay with
  | EmptyString => false
  | String _ t => py_in needle t
  end.

(** [s[:n]] *)
Fixpoint py_take (n : nat) (s : string) : string :=
  match n, s with
  | S m, String a t => String a (py_take m t)
  | _, _ => EmptyString
  end.

(** [str(n)] for a length. *)
Definition str_of_nat (n : nat) : string := NilZero.string_of_uint (Nat.to_uint n).

(** [sep.join(l)] *)
Fixpoint py_join (sep : string) (l : list string) : string :=
  match l with
  | [] => EmptyString
  | [x] => x
  | x :: rest => x ++ sep ++ py_join sep rest
  end.

Definition dquote : string := String (ascii_of_nat 34) EmptyString.
Definition newline : string := String (ascii_of_nat 10) EmptyString.

(** ** Exceptions

    A call either returns or raises; the handlers only tell [RuntimeError]
    from the other exceptions, and only read the message. *)

Inductive exn : Type :=
| RuntimeError (msg : string)
| OtherError (msg : string).

Definition exn_str (e : exn) : string :=
  match e with RuntimeError m => m | OtherError m => m end.

Inductive outcome (A : Type) : Type :=
| Ok (a : A)
| Raised (e : exn).
Arguments Ok {A} a.
Arguments Raised {A} e.

Definition obind {A B} (x : outcome A) (f : A -> outcome B) : outcome B :=
  match x with Ok a => f a | Raised e => Raised e end.

(** ** Firestore documents *)

(** Field values; times are microseconds since the epoch. *)
Inductive value : Type :=
| VNull
| VBool (b : bool)
| VInt (n : Z)
| VStr (s : string)
| VTime (t : Z).

Global Instance value_eq_dec : EqDecision value.
Proof. solve_decision. Defined.

Abbreviation document := (gmap string value).
Abbreviation store := (gmap string document).

(** [data.get(k)]: a missing field reads as [None]. *)
Definition py_get (d : document) (k : string) : value := default VNull (d !! k).

(** [data.get(k, dflt)] *)
Definition py_get_default (d : document) (k : string) (dflt : value) : value :=
  default dflt (d !! k).

(** Python truth value. *)
Definition truthy (v : value) : bool :=
  match v with
  | VNull => false
  | VBool b => b
  | VInt n => negb (n =? 0)
  | VStr s => negb (str_is_empty s)
  | VTime _ => true
  end.

(** [v == s] for a string [s]. *)
Definition value_is_str (v : value) (s : string) : bool :=
  match v with VStr s' => String.eqb s' s | _ => false end.

(** What a write stores in one field. *)
Inductive field_write : Type :=
| Put (v : value)
| ServerTimestamp          (* firestore.SERVER_TIMESTAMP *)
| DeleteField.             (* firestore.DELETE_FIELD *)

Definition apply_field (server_time : Z) (d : document) (kv : string * field_write)
  : document :=
  match kv.2 with
  | Put v => <[kv.1 := v]> d
  | ServerTimestamp => <[kv.1 := VTime server_time]> d
  | DeleteField => delete kv.1 d
  end.

(** [update(fields)] on an existing document. *)
Definition apply_update (server_time : Z) (fields : list (string * field_write))
    (d : document) : document :=
  foldl (apply_field server_time) d fields.

(** ** Transactions

    [@firestore.transactional] runs its body on a snapshot and commits the
    buffered writes atomically; when the read or the commit fails (also after
    the library's retries) nothing is written and the call raises. *)

Inductive tx_fault : Type :=
| TxCommits
| TxReadFails
| TxCommitFails.

Global Instance tx_fault_eq_dec : EqDecision tx_fault.
Proof. solve_decision. Defined.

Inductive tx_write : Type :=
| TxSet (fields : list (string * field_write))      (* transaction.set *)
| TxUpdate (fields : list (string * field_write)).  (* transaction.update *)

Definition tx_body (A : Type) : Type :=
  option document -> outcome (A * list tx_write).

Definition apply_tx_write (server_time : Z) (doc_id : string) (st : option store)
    (w : tx_write) : option store :=
  st ≫= λ s,
    match w with
    | TxSet fields => Some (<[doc_id := apply_update server_time fields ∅]> s)
    | TxUpdate fields =>
        match s !! doc_id with
        | Some d => Some (<[doc_id := apply_update server_time fields d]> s)
        | None => None      (* NotFound at commit *)
        end
    end.

Definition store_error : exn := OtherError "firestore: transaction failed".

Definition run_transaction {A} (fault : tx_fault) (server_time : Z)
    (doc_id : string) (body : tx_body A) (st : store) : outcome A * store :=
  match fault with
  | TxReadFails => (Raised store_error, st)
  | _ =>
      match body (st !! doc_id) with
      | Raised e => (Raised e, st)
      | Ok (a, writes) =>
          match fault with
          | TxCommits =>
              match foldl (apply_tx_write server_time doc_id) (Some st) writes with
              | Some st' => (Ok a, st')
              | None => (Raised store_error, st)
              end
          | _ => (Raised store_error, st)
          end
      end
  end.

(** ** bakers-agent-v1: constants *)

Definition MAX_REACT_ROUNDS : nat := 3.

Definition ALLOWED_MIME_TYPES : list string :=
  ["image/jpeg"; "image/png"; "image/webp"; "image/gif"; "image/heic"; "image/heif"].

(** ** bakers-agent-v1: idempotent claim *)

Definition _claim (doc_id bucket filename : string) : tx_body bool :=
  λ snap,
    match snap with
    | Some _ => Ok (false, [])
    | None =>
        Ok (true,
            [TxSet [("doc_id", Put (VStr doc_id));
                    ("bucket", Put (VStr bucket));
                    ("filename", Put (VStr filename));
                    ("status", Put (VStr "RECEIVED"));
                    ("created_at", ServerTimestamp)]])
    end.

Definition claim_document (fault : tx_fault) (server_time : Z)
    (doc_id bucket filename : string) (st : store) : bool * store :=
  match run_transaction fault server_time doc_id (_claim doc_id bucket filename) st with
  | (Ok b, st') => (b, st')
  | (Raised _, st') => (false, st')
  end.

(** [update_status]: one non-transactional [document.update]; a failure of
    the call (also [NotFound] for a missing document) is logged and
    swallowed. *)
Definition update_status (io_ok : bool) (server_time : Z) (doc_id status : string)
    (extra_fields : list (string * field_write)) (st : store) : store :=
  if io_ok then
    match st !! doc_id with
    | Some d =>
        <[doc_id := apply_update server_time
                      (("status", Put (VStr status))
                         :: ("updated_at", ServerTimestamp) :: extra_fields) d]> st
    | None => st
    end
  else st.

(** ** bakers-agent-v1: the sentinel *)

(** What [json.loads] returns (floats are not modelled). *)
#[warnings="-register-all"] Inductive json : Type :=
| JNull
| JBool (b : bool)
| JInt (n : Z)
| JStr (s : string)
| JArray (items : list json)
| JObject (members : list (string * json)).

(** [parsed.get(k)] on the dict of a JSON object: the last member named [k]. *)
Fixpoint dict_get (members : list (string * json)) (k : string) : option json :=
  match members with
  | [] => None
  | (k', v) :: rest =>
      match dict_get rest k with
      | Some v' => Some v'
      | None => if String.eqb k' k then Some v else None
      end
  end.

Definition json_truthy (j : json) : bool :=
  match j with
  | JNull => false
  | JBool b => b
  | JInt n => negb (n =? 0)
  | JStr s => negb (str_is_empty s)
  | JArray items => match items with [] => false | _ => true end
  | JObject members => match members with [] => false | _ => true end
  end.

(** A backtracking matcher for the fragment of [re] the price pattern uses:
    characters, and greedy [*] and [+] over a character class. *)
Inductive re_atom : Type :=
| RChar (c : ascii)
| RStar (cls : ascii -> bool)
| RPlus (cls : ascii -> bool).

Fixpoint re_greedy (k : string -> option nat) (cls : ascii -> bool) (s : string)
  : option nat :=
  match s with
  | String a t =>
      if cls a then
        match re_greedy k cls t with
        | Some n => Some (S n)
        | None => k s
        end
      else k s
  | EmptyString => k s
  end.

(** Length of the match of the sequence [atoms] at the start of [s]. *)
Fixpoint re_match (atoms : list re_atom) (s : string) : option nat :=
  match atoms with
  | [] => Some O
  | RChar c :: rest =>
      match s with
      | String a t => if Ascii.eqb a c then S <$> re_match rest t else None
      | EmptyString => None
      end
  | RStar cls :: rest => re_greedy (re_match rest) cls s
  | RPlus cls :: rest =>
      match s with
      | String a t => if cls a then S <$> re_greedy (re_match rest) cls t else None
      | EmptyString => None
      end
  end.

Fixpoint re_lit (s : string) : list re_atom :=
  match s with
  | EmptyString => []
  | String a t => RChar a :: re_lit t
  end.

(** The first alternative that matches at the start of [s]. *)
Fixpoint re_match_alts (alts : list (list re_atom)) (s : string) : option nat :=
  match alts with
  | [] => None
  | alt :: rest =>
      match re_match alt s with
      | Some n => Some n
      | None => re_match_alts rest s
      end
  end.

(** [pattern.search(s)], returning [match.group()]. *)
Fixpoint re_search (alts : list (list re_atom)) (s : string) : option string :=
  match re_match_alts alts s with
  | Some n => Some (py_take n s)
  | None =>
      match s with
      | EmptyString => None
      | String _ t => re_search alts t
      end
  end.

(** [\$\s*\d+|\d+\s*%|percent\s+off|discount|sale\s+price|free\s+delivery|promo|coupon] *)
Definition price_pattern : list (list re_atom) :=
  [ [RChar "$"; RStar py_isspace; RPlus py_isdigit];
    [RPlus py_isdigit; RStar py_isspace; RChar "%"];
    (re_lit "percent" ++ [RPlus py_isspace] ++ re_lit "off")%list;
    re_lit "discount";
    (re_lit "sale" ++ [RPlus py_isspace] ++ re_lit "price")%list;
    (re_lit "free" ++ [RPlus py_isspace] ++ re_lit "delivery")%list;
    re_lit "promo";
    re_lit "coupon" ].

Definition attribute_error : exn := OtherError "AttributeError".

(** [len(caption.split())] for the stripped caption. *)
Definition actual_words (caption : string) : nat := length (py_split caption).

Definition sentinel_check (parsed : json) : outcome (bool * string) :=
  match parsed with
  | JObject members =>
      match default (JStr EmptyString) (dict_get members "caption") with
      | JStr raw =>
          let caption := py_strip raw in
          let contains_price :=
            default (JBool false) (dict_get members "contains_price") in
          if str_is_empty caption then Ok (false, "EMPTY_CAPTION")
          else if json_truthy contains_price then Ok (false, "PRICE_SELF_REPORTED")
          else
            let n := actual_words caption in
            if (40 <? n)%nat
            then Ok (false, "TOO_LONG (" ++ str_of_nat n ++ " words)")
            else if (n <? 5)%nat
            then Ok (false, "TOO_SHORT (" ++ str_of_nat n ++ " words)")
            else
              match re_search price_pattern (py_lower caption) with
              | Some m => Ok (false, "PRICE_DETECTED: '" ++ m ++ "'")
              | None => Ok (true, "APPROVED")
              end
      | _ => Raised attribute_error      (* .strip() on a non-string *)
      end
  | _ => Raised attribute_error          (* .get() on a non-dict *)
  end.

(** ** bakers-agent-v1: memory *)

Definition NO_PREVIOUS_POSTS : string := "No previous posts yet.".

(** The drafts to join, or [None] when [join] meets a non-string. *)
Fixpoint drafts_to_join (history : list value) : option (list string) :=
  match history with
  | [] => Some []
  | h :: rest =>
      if truthy h then
        match h with
        | VStr s => cons s <$> drafts_to_join rest
        | _ => None
        end
      else drafts_to_join rest
  end.

(** [retrieve_memory]; [docs] is what the query for the last three
    QUEUED or POSTED documents streams back, or the error it raises. *)
Definition retrieve_memory (docs : outcome (list document)) : string :=
  match docs with
  | Raised _ => NO_PREVIOUS_POSTS
  | Ok ds =>
      let history := map (λ d, py_get_default d "draft" (VStr EmptyString)) ds in
      match drafts_to_join history with
      | Some hs =>
          let result := py_join (newline ++ "---" ++ newline) hs in
          if str_is_empty result then NO_PREVIOUS_POSTS else result
      | None => NO_PREVIOUS_POSTS
      end
  end.

(** ** bakers-agent-v1: the ReAct generator *)

(** One call of [model.generate_content] followed by [json.loads]:
    the call raises, or returns a text that does not decode, or a text that
    decodes to [parsed]. *)
Inductive gen_response : Type :=
| GenRaises (e : exn)
| GenText (decoded : option json).

Definition base_prompt (memory : string) : string :=
  "You are the social media manager for 'My Baking Creations', a bakery.
Write a Google Business Profile update for the attached product photo.

RULES — follow these exactly:
1. Under 40 words, minimum 5 words
2. Describe what you SEE: texture, color, layers, glaze, crumb structure
3. Evoke what the customer will SMELL and TASTE
4. No prices, dollar amounts, percentages, or discount language
5. No words: delightful, scrumptious, yummy, tummy, game changer, amazing
6. Confident, direct tone — you're a craftsperson, not a marketer
7. Do NOT repeat or closely paraphrase previous captions

PREVIOUS CAPTIONS (avoid repeating):
" ++ memory ++ "

Return valid JSON matching the schema. Be precise with word_count and contains_price.".

Definition critic_bad_json : string :=
  newline ++ newline ++
  "CRITIC: Your last response was not valid JSON. You MUST return a JSON object with caption, word_count, and contains_price fields. Try again.".

Definition critic_rejected (reason caption : string) : string :=
  newline ++ newline ++
  "CRITIC: Your draft was rejected. Reason: " ++ reason ++
  ". The rejected draft was: " ++ dquote ++ caption ++ dquote ++
  " Fix the issue and generate a new caption.".

(** [parsed.get('caption', '')] once the sentinel has read it as a string. *)
Definition caption_of (parsed : json) : string :=
  match parsed with
  | JObject members =>
      match dict_get members "caption" with
      | Some (JStr s) => s
      | _ => EmptyString
      end
  | _ => EmptyString
  end.

(** The [for attempt in range(MAX_REACT_ROUNDS)] loop with [rounds] rounds
    left; returns the approved caption and the prompts sent to the model,
    one per call, in order. *)
Fixpoint react_rounds (model : nat -> string -> gen_response) (rounds attempt : nat)
    (prompt : string) : option string * list string :=
  match rounds with
  | O => (None, [])
  | S rounds' =>
      let continue p := react_rounds model rounds' (S attempt) p in
      let '(result, calls) :=
        match model attempt prompt with
        | GenRaises _ => continue prompt
        | GenText None => continue (prompt ++ critic_bad_json)
        | GenText (Some parsed) =>
            match sentinel_check parsed with
            | Raised _ => continue prompt
            | Ok (true, _) => (Some (caption_of parsed), [])
            | Ok (false, reason) =>
                continue (prompt ++ critic_rejected reason (caption_of parsed))
            end
        end in
      (result, prompt :: calls)
  end.

(** ** bakers-poster-v1: constants *)

Definition LOCK_TTL_SECONDS : Z := 120.

Definition TERMINAL_STATUSES : list string := ["POSTED"; "FAILED"].

(** [status in statuses] *)
Definition status_in (status : value) (statuses : list string) : bool :=
  existsb (value_is_str status) statuses.

Definition MICROSECONDS_PER_SECOND : Z := 1000000.

(** [lock_age < LOCK_TTL_SECONDS], with
    [lock_age = now.timestamp() - locked_at.timestamp()] in exact arithmetic. *)
Definition lock_age_below_ttl (now locked_at : Z) : bool :=
  now - locked_at <? LOCK_TTL_SECONDS * MICROSECONDS_PER_SECOND.

Definition type_error : exn := OtherError "TypeError".

(** ** bakers-poster-v1: the transactional posting lock *)

Definition _acquire (lock_token : string) (now : Z) : tx_body (option string) :=
  λ snap,
    match snap with
    | None => Ok (None, [])
    | Some data =>
        let status := py_get data "status" in
        if status_in status TERMINAL_STATUSES then Ok (None, [])
        else
          obind
            (if value_is_str status "POSTING" then
               let locked_at := py_get data "locked_at" in
               if truthy locked_at then
                 match locked_at with
                 | VTime t => Ok (lock_age_below_ttl now t)
                 | _ => Raised type_error       (* now - locked_at *)
                 end
               else Ok false
             else Ok false)
            (λ held : bool,
               if held then Ok (None, [])
               else if negb (status_in status ["QUEUED"; "POSTING"])
               then Ok (None, [])
               else
                 Ok (Some lock_token,
                     [TxUpdate [("status", Put (VStr "POSTING"));
                                ("lock_token", Put (VStr lock_token));
                                ("locked_at", Put (VTime now));
                                ("updated_at", ServerTimestamp)]]))
    end.

(** [lock_token] is [str(uuid.uuid4())] and [now] is [utcnow()], both taken
    before the transaction starts. *)
Definition acquire_posting_lock (fault : tx_fault) (server_time : Z)
    (lock_token : string) (now : Z) (doc_id : string) (st : store)
  : option string * store :=
  match run_transaction fault server_time doc_id (_acquire lock_token now) st with
  | (Ok r, st') => (r, st')
  | (Raised _, st') => (None, st')
  end.

Definition _release_success (lock_token post_name : string) : tx_body bool :=
  λ snap,
    match snap with
    | None => Ok (false, [])
    | Some data =>
        if negb (value_is_str (py_get data "lock_token") lock_token)
        then Ok (false, [])
        else
          Ok (true,
              [TxUpdate [("status", Put (VStr "POSTED"));
                         ("gbp_post_name", Put (VStr post_name));
                         ("posted_at", ServerTimestamp);
                         ("lock_token", DeleteField);
                         ("locked_at", DeleteField);
                         ("updated_at", ServerTimestamp)]])
    end.

Definition release_lock_success (fault : tx_fault) (server_time : Z)
    (doc_id lock_token post_name : string) (st : store) : bool * store :=
  match run_transaction fault server_time doc_id
          (_release_success lock_token post_name) st with
  | (Ok b, st') => (b, st')
  | (Raised _, st') => (false, st')
  end.

Definition _release_failure (lock_token reason : string) : tx_body bool :=
  λ snap,
    match snap with
    | None => Ok (false, [])
    | Some data =>
        if negb (value_is_str (py_get data "lock_token") lock_token)
        then Ok (false, [])
        else
          Ok (true,
              [TxUpdate [("status", Put (VStr "FAILED"));
                         ("failure_reason", Put (VStr reason));
                         ("lock_token", DeleteField);
                         ("locked_at", DeleteField);
                         ("updated_at", ServerTimestamp)]])
    end.

Definition release_lock_failure (fault : tx_fault) (server_time : Z)
    (doc_id lock_token reason : string) (st : store) : bool * store :=
  match run_transaction fault server_time doc_id
          (_release_failure lock_token reason) st with
  | (Ok b, st') => (b, st')
  | (Raised _, st') => (false, st')
  end.

(** ** bakers-poster-v1: error classification *)

Inductive error_class : Type := PERMANENT | TRANSIENT.

Definition permanent_markers : list string :=
  ["invalid_grant"; "unauthorized"; "permission_denied"; "not_found";
   "invalid_argument"; "no refresh_token"].

Definition classify_error (error : exn) : error_class :=
  let error_str := py_lower (exn_str error) in
  if existsb (λ marker, py_in marker error_str) permanent_markers
  then PERMANENT else TRANSIENT.

(** ** bakers-poster-v1: the publishing call *)

(** What [requests.post] does: it raises [Timeout], [ConnectionError] or
    something else, or returns a response; [name] is [resp.json()] reduced to
    its string member [name], or the error [resp.json()] raises. *)
Inductive http_outcome : Type :=
| HttpTimeout
| HttpConnectionError (msg : string)
| HttpRaises (e : exn)
| HttpResponse (status_code : Z) (text : string) (name : outcome (option string)).

Inductive gbp_result : Type :=
| GbpSuccess (post_name : string)
| GbpFailure (error : string) (status_code : Z) (retryable : bool).

Definition RETRYABLE_STATUS_CODES : list Z := [429; 500; 502; 503; 504].

Definition retryable_status (status_code : Z) : bool :=
  existsb (Z.eqb status_code) RETRYABLE_STATUS_CODES.

Definition str_of_Z (z : Z) : string := NilZero.string_of_int (Z.to_int z).

(** A message on the dead-letter topic. *)
Record dlq_msg : Type := {
  dlq_doc_id : string;
  dlq_filename : string;
  dlq_reason : string;
  dlq_source : string;
  dlq_timestamp : Z
}.

(** What [json.dumps] makes of a field read back from the store, when it
    can. *)
Definition json_text (v : value) : option string :=
  match v with
  | VStr s => Some s
  | VNull => Some "null"
  | VBool b => Some (if b then "true" else "false")
  | VInt n => Some (str_of_Z n)
  | VTime _ => None        (* not JSON serializable *)
  end.

(** ** Handlers as programs

    A handler is a tree of atomic operations: each operation is one call on
    the store, on Pub/Sub or on an external service, and the handler goes on
    with its result.  Between two operations of one handler, other handlers
    may run theirs. *)

Inductive op : Type :=
| ClaimDocument (doc_id bucket filename : string)
| UpdateStatus (doc_id status : string) (extra_fields : list (string * field_write))
| GenerateWithReact (bucket filename : string)
| GenerateSignedUrl (bucket filename : string)
| UtcNow
| PublishPointer (doc_id : string)
| SendToDlq (doc_id : string) (filename : value) (reason source : string)
| GetSnapshot (doc_id : string)
| AcquirePostingLock (doc_id : string)
| ReleaseLockSuccess (doc_id lock_token post_name : string)
| ReleaseLockFailure (doc_id lock_token reason : string)
| PostToGbp (draft image_url : value)
| DryRunPost (doc_id : string) (draft image_url : value).

(** The type of what each operation returns to the handler. *)
Definition res (o : op) : Type :=
  match o with
  | ClaimDocument _ _ _ => bool
  | UpdateStatus _ _ _ => unit
  | GenerateWithReact _ _ => option string
  | GenerateSignedUrl _ _ => outcome string
  | UtcNow => Z
  | PublishPointer _ => outcome unit
  | SendToDlq _ _ _ _ => unit
  | GetSnapshot _ => outcome (option document)
  | AcquirePostingLock _ => option string
  | ReleaseLockSuccess _ _ _ => bool
  | ReleaseLockFailure _ _ _ => bool
  | PostToGbp _ _ => outcome gbp_result
  | DryRunPost _ _ _ => outcome bool
  end.

Inductive prog (R : Type) : Type :=
| Ret (r : R)                       (* the handler returns: the event is acknowledged *)
| Raise (e : exn)                   (* the handler raises: redelivery is requested *)
| Do (o : op) (k : res o -> prog R).
Arguments Ret {R} r.
Arguments Raise {R} e.
Arguments Do {R} o k.

Fixpoint prog_bind {A B} (f : A -> prog B) (p : prog A) : prog B :=
  match p with
  | Ret a => f a
  | Raise e => Raise e
  | Do o k => Do o (λ r, prog_bind f (k r))
  end.

Global Instance prog_mbind : MBind prog := @prog_bind.
Global Instance prog_mret : MRet prog := @Ret.

(** [try: p except Exception as e: handler e] *)
Fixpoint try_except {A} (p : prog A) (handler : exn -> prog A) : prog A :=
  match p with
  | Ret a => Ret a
  | Raise e => handler e
  | Do o k => Do o (λ r, try_except (k r) handler)
  end.

Definition perform (o : op) : prog (res o) := Do o Ret.

(** Propagate the exception of a call that returns an [outcome]. *)
Definition raising {A} (p : prog (outcome A)) : prog A :=
  r ← p; match r with Ok a => Ret a | Raised e => Raise e end.

(** The handler instances of the system. *)
Abbreviation pool := (list (prog unit)).

(** ** The world and what the environment decides

    The shared state is the collection, the pointer topic and the dead-letter
    topic.  Each operation is run under an [env], which fixes everything the
    code does not decide. *)

Record world : Type := {
  w_store : store;
  w_topic : list string;
  w_dlq : list dlq_msg
}.

Record env : Type := {
  e_tx : tx_fault;                        (* fate of a transaction *)
  e_io_ok : bool;                         (* a plain store or Pub/Sub call succeeds *)
  e_server_time : Z;                      (* the store's clock *)
  e_utcnow : Z;                           (* datetime.utcnow() *)
  e_uuid4 : string;                       (* str(uuid.uuid4()) *)
  e_history : outcome (list document);    (* the memory query *)
  e_model : nat -> string -> gen_response;
  e_signed_url : outcome string;
  e_credentials : outcome string;
  e_location_ok : bool;
  e_http : http_outcome
}.

Definition with_store (w : world) (st : store) : world :=
  {| w_store := st; w_topic := w_topic w; w_dlq := w_dlq w |}.

Definition io_error : exn := OtherError "google.api_core: call failed".

(** [send_to_dlq]: best effort; a failure is logged and swallowed. *)
Definition send_to_dlq (e : env) (doc_id : string) (filename : value)
    (reason source : string) (w : world) : world :=
  match json_text filename with
  | Some f =>
      if e_io_ok e then
        {| w_store := w_store w;
           w_topic := w_topic w;
           w_dlq :=
             w_dlq w ++
               [{| dlq_doc_id := doc_id; dlq_filename := f; dlq_reason := reason;
                   dlq_source := source; dlq_timestamp := e_utcnow e |}] |}
      else w
  | None => w
  end.

Section Deployment.

(** Library functions and process configuration the two functions read. *)
Variable sha256_hex : string -> string.        (* hashlib.sha256(..).hexdigest() *)
Variable guess_type : string -> option string. (* mimetypes.guess_type(..)[0] *)
Variable DRY_RUN : bool.
Variable PROJECT_ID : option string.           (* GCP_PROJECT *)
Variable LOCATION_ID : option string.          (* GBP_LOCATION_ID *)

Definition make_doc_id (bucket name generation : string) : string :=
  sha256_hex (bucket ++ ":" ++ name ++ ":" ++ generation).

Definition get_mime_type (filename : string) : option string :=
  match guess_type (py_lower filename) with
  | Some mime_type =>
      if negb (str_is_empty mime_type) && bool_decide (mime_type ∈ ALLOWED_MIME_TYPES)
      then Some mime_type else None
  | None => None
  end.

(** [generate_with_react]: the approved caption, and the prompts of the
    generator calls made. *)
Definition generate_with_react (docs : outcome (list document))
    (model : nat -> string -> gen_response) (bucket filename : string)
  : option string * list string :=
  match get_mime_type filename with
  | None => (None, [])
  | Some mime_type =>
      let memory := retrieve_memory docs in
      react_rounds model MAX_REACT_ROUNDS 0 (base_prompt memory)
  end.

Definition env_truthy (v : option string) : bool :=
  match v with Some s => negb (str_is_empty s) | None => false end.

Definition validate_config : list string :=
  app
    (if env_truthy PROJECT_ID then [] else ["GCP_PROJECT env var not set"])
    (if env_truthy LOCATION_ID then
       match LOCATION_ID with
       | Some l =>
           if py_startswith "accounts/" l then []
           else ["GBP_LOCATION_ID must be 'accounts/X/locations/Y', got: " ++ l]
       | None => []
       end
     else ["GBP_LOCATION_ID env var not set"]).

(** [post_to_gbp]; [creds] is what [get_credentials] does and [http] what
    [requests.post] does when it is reached. *)
Definition post_to_gbp (creds : outcome string) (http : http_outcome)
    (draft image_url : value) : outcome gbp_result :=
  match validate_config with
  | _ :: _ =>
      Ok (GbpFailure ("Config errors: " ++ py_join "; " validate_config) 0 false)
  | [] =>
      obind creds (λ _,
        match draft with
        | VStr _ =>
            match http with
            | HttpTimeout => Ok (GbpFailure "GBP API request timed out (60s)" 0 true)
            | HttpConnectionError msg =>
                Ok (GbpFailure ("Connection error: " ++ msg) 0 true)
            | HttpRaises e => Raised e
            | HttpResponse status_code text name =>
                if status_code =? 200
                then obind name (λ n, Ok (GbpSuccess (default "unknown" n)))
                else Ok (GbpFailure (py_take 500 text) status_code
                           (retryable_status status_code))
            end
        | _ => Raised type_error            (* draft[:80] *)
        end)
  end.

(** [dry_run_post]: whether every check passes. *)
Definition dry_run_post (creds : outcome string) (location_ok : bool)
    (draft image_url : value) : outcome bool :=
  match draft with
  | VStr _ =>
      Ok (match validate_config with [] => true | _ => false end
          && match creds with Ok _ => location_ok | Raised _ => false end
          && truthy image_url)
  | _ => Raised type_error                  (* draft[:100] *)
  end.


Definition exec_op (e : env) (o : op) (w : world) : res o * world :=
  match o return res o * world with
  | ClaimDocument doc_id bucket filename =>
      let '(b, st) :=
        claim_document (e_tx e) (e_server_time e) doc_id bucket filename (w_store w) in
      (b, with_store w st)
  | UpdateStatus doc_id status extra_fields =>
      (tt, with_store w
             (update_status (e_io_ok e) (e_server_time e) doc_id status extra_fields
                (w_store w)))
  | GenerateWithReact bucket filename =>
      ((generate_with_react (e_history e) (e_model e) bucket filename).1, w)
  | GenerateSignedUrl _ _ => (e_signed_url e, w)
  | UtcNow => (e_utcnow e, w)
  | PublishPointer doc_id =>
      if e_io_ok e
      then (Ok tt, {| w_store := w_store w; w_topic := w_topic w ++ [doc_id];
                      w_dlq := w_dlq w |})
      else (Raised io_error, w)
  | SendToDlq doc_id filename reason source =>
      (tt, send_to_dlq e doc_id filename reason source w)
  | GetSnapshot doc_id =>
      (if e_io_ok e then Ok (w_store w !! doc_id) else Raised io_error, w)
  | AcquirePostingLock doc_id =>
      let '(r, st) :=
        acquire_posting_lock (e_tx e) (e_server_time e) (e_uuid4 e) (e_utcnow e)
          doc_id (w_store w) in
      (r, with_store w st)
  | ReleaseLockSuccess doc_id lock_token post_name =>
      let '(b, st) :=
        release_lock_success (e_tx e) (e_server_time e) doc_id lock_token post_name
          (w_store w) in
      (b, with_store w st)
  | ReleaseLockFailure doc_id lock_token reason =>
      let '(b, st) :=
        release_lock_failure (e_tx e) (e_server_time e) doc_id lock_token reason
          (w_store w) in
      (b, with_store w st)
  | PostToGbp draft image_url =>
      (post_to_gbp (e_credentials e) (e_http e) draft image_url, w)
  | DryRunPost _ draft image_url =>
      (dry_run_post (e_credentials e) (e_location_ok e) draft image_url, w)
  end.

(** ** bakers-agent-v1: [process_upload] *)

Record upload_event : Type := {
  ev_bucket : string;
  ev_name : string;
  ev_generation : string      (* str(data.get("generation", "0")) *)
}.

Definition SIGNED_URL_EXPIRY_MINUTES : Z := 60.

Definition AGENT : string := "bakers-agent-v1".
Definition POSTER : string := "bakers-poster-v1".

(** [not draft] for the [str | None] that [generate_with_react] returns. *)
Definition no_draft (draft : option string) : bool :=
  match draft with Some s => str_is_empty s | None => true end.

Definition process_upload (ev : upload_event) : prog unit :=
  let bucket := ev_bucket ev in
  let filename := ev_name ev in
  let generation := ev_generation ev in
  match get_mime_type filename with
  | None => Ret tt                                  (* skipping non-image *)
  | Some _ =>
      let doc_id := make_doc_id bucket filename generation in
      claimed ← perform (ClaimDocument doc_id bucket filename);
      if negb claimed then Ret tt                   (* already claimed *)
      else
        perform (UpdateStatus doc_id "GENERATING" []);;
        try_except
          (draft ← perform (GenerateWithReact bucket filename);
           if no_draft draft then
             perform (UpdateStatus doc_id "FAILED"
                        [("failure_reason", Put (VStr "SENTINEL_BLOCKED_ALL_ATTEMPTS"))]);;
             perform (SendToDlq doc_id (VStr filename)
                        "SENTINEL_BLOCKED_ALL_ATTEMPTS" AGENT);;
             Ret tt
           else
             signed_url ← raising (perform (GenerateSignedUrl bucket filename));
             now ← perform UtcNow;
             perform (UpdateStatus doc_id "QUEUED"
                        [("draft", Put (VStr (default EmptyString draft)));
                         ("image_url", Put (VStr signed_url));
                         ("signed_url_expires",
                          Put (VTime (now + SIGNED_URL_EXPIRY_MINUTES * 60
                                              * MICROSECONDS_PER_SECOND)))]);;
             raising (perform (PublishPointer doc_id));;
             Ret tt)
          (λ e,
             perform (UpdateStatus doc_id "FAILED"
                        [("failure_reason", Put (VStr (exn_str e)))]);;
             perform (SendToDlq doc_id (VStr filename)
                        ("EXCEPTION: " ++ exn_str e) AGENT);;
             Ret tt)
  end.

(** ** bakers-poster-v1: [process_post_queue] *)

(** The Pub/Sub envelope: no payload, a payload that does not decode, or the
    decoded and stripped payload (a pointer the Composer published is a hex
    digest, which [strip] leaves as it is). *)
Inductive pubsub_event : Type :=
| PubsubEmpty
| PubsubMalformed
| PubsubPointer (doc_id : string).

Definition process_post_queue (ev : pubsub_event) : prog unit :=
  match ev with
  | PubsubEmpty => Ret tt
  | PubsubMalformed => Ret tt
  | PubsubPointer doc_id =>
      if str_is_empty doc_id then Ret tt
      else
        snap ← raising (perform (GetSnapshot doc_id));
        match snap with
        | None => Ret tt                            (* not found: acking *)
        | Some doc_data =>
            let draft := py_get_default doc_data "draft" (VStr EmptyString) in
            let image_url := py_get_default doc_data "image_url" (VStr EmptyString) in
            let filename := py_get_default doc_data "filename" (VStr "unknown") in
            if negb (truthy draft) || negb (truthy image_url) then
              perform (SendToDlq doc_id filename "INCOMPLETE_DOCUMENT" POSTER);;
              Ret tt
            else
              acquired ← perform (AcquirePostingLock doc_id);
              match acquired with
              | None => Ret tt
              | Some lock_token =>
                  if str_is_empty lock_token then Ret tt
                  else if DRY_RUN then
                    raising (perform (DryRunPost doc_id draft image_url));;
                    perform (ReleaseLockSuccess doc_id lock_token "DRY_RUN");;
                    Ret tt
                  else
                    try_except
                      (result ← raising (perform (PostToGbp draft image_url));
                       match result with
                       | GbpSuccess post_name =>
                           perform (ReleaseLockSuccess doc_id lock_token post_name);;
                           Ret tt
                       | GbpFailure error status_code retryable =>
                           if retryable then
                             Raise (RuntimeError
                                      ("Retryable GBP error (" ++ str_of_Z status_code
                                         ++ "): " ++ error))
                           else
                             perform (ReleaseLockFailure doc_id lock_token
                                        ("GBP_PERMANENT: " ++ error));;
                             perform (SendToDlq doc_id filename
                                        ("GBP_PERMANENT: " ++ error) POSTER);;
                             Ret tt
                       end)
                      (λ e,
                         match e with
                         | RuntimeError _ => Raise e
                         | OtherError _ =>
                             match classify_error e with
                             | TRANSIENT => Raise e
                             | PERMANENT =>
                                 perform (ReleaseLockFailure doc_id lock_token
                                            ("EXCEPTION: " ++ exn_str e));;
                                 perform (SendToDlq doc_id filename
                                            ("EXCEPTION: " ++ exn_str e) POSTER);;
                                 Ret tt
                             end
                         end)
              end
        end
  end.

(** ** Runs

    [run envs p w] runs one handler alone, each operation under the next
    [env] of the list. *)
Fixpoint run {R} (envs : list env) (p : prog R) (w : world) : prog R * world :=
  match envs, p with
  | e :: envs', Do o k =>
      let '(r, w') := exec_op e o w in run envs' (k r) w'
  | _, _ => (p, w)
  end.

(** The operations such a run performs, in order. *)
Fixpoint trace {R} (envs : list env) (p : prog R) (w : world) : list op :=
  match envs, p with
  | e :: envs', Do o k =>
      let '(r, w') := exec_op e o w in o :: trace envs' (k r) w'
  | _, _ => []
  end.

(** The system: any number of handler instances over one world.  An upload
    event may be delivered any number of times; a pointer is delivered, any
    number of times, once it is on the topic, and only the Composer puts
    pointers there; a step runs the next operation of some instance.  Each
    operation is atomic: a transaction, one [update], one read, one publish
    (which raises before anything is enqueued, or enqueues). *)

Inductive step : pool * world -> pool * world -> Prop :=
| step_upload_delivery (ev : upload_event) (ps : pool) (w : world) :
    step (ps, w) ((ps ++ [process_upload ev])%list, w)
| step_pointer_delivery (doc_id : string) (ps : pool) (w : world) :
    doc_id ∈ w_topic w ->
    step (ps, w) ((ps ++ [process_post_queue (PubsubPointer doc_id)])%list, w)
| step_operation (e : env) (j : nat) (o : op) (k : res o -> prog unit)
    (ps : pool) (w : world) :
    ps !! j = Some (Do o k) ->
    step (ps, w) (<[j := k (exec_op e o w).1]> ps, (exec_op e o w).2).

(** Instance [j] runs its next operation under [e], if it has one. *)
Definition run_operation (e : env) (j : nat) (s : pool * world) : pool * world :=
  match s.1 !! j with
  | Some (Do o k) => (<[j := k (exec_op e o s.2).1]> s.1, (exec_op e o s.2).2)
  | _ => s
  end.

Definition deliver_upload (ev : upload_event) (s : pool * world) : pool * world :=
  ((s.1 ++ [process_upload ev])%list, s.2).

Definition deliver_pointer (doc_id : string) (s : pool * world) : pool * world :=
  ((s.1 ++ [process_post_queue (PubsubPointer doc_id)])%list, s.2).

Definition initial : pool * world :=
  ([], {| w_store := ∅; w_topic := []; w_dlq := [] |}).

Definition reachable (s : pool * world) : Prop := rtc step initial s.

End Deployment.

(** ** bakers-agent-v1: the text [make_doc_id] hashes *)

(** [raw = f"{bucket}:{name}:{generation}"] *)
Definition doc_id_raw (bucket name generation : string) : string :=
  bucket ++ ":" ++ name ++ ":" ++ generation.

(** ** bakers-poster-v1: OAuth credentials *)

(** The members of the secret that [get_credentials] branches on. *)
Record secret_data : Type := {
  access_token : option string;
  refresh_token : option string
}.

Definition NO_REFRESH_TOKEN : string :=
  "OAuth token expired and no refresh_token in secret. Re-run the OAuth consent flow and update the secret.".

(** [get_credentials]: the token to send, or the exception raised, and the
    secret version written back by [_persist_refreshed_token] if any.
    [secret] is what reading and decoding the secret gives, [valid] is
    [creds.valid], [refresh] is what [creds.refresh] does, and [persist_ok]
    tells whether [add_secret_version] goes through (its failure is logged
    and swallowed). *)
Definition get_credentials (secret : outcome secret_data) (valid : bool)
    (refresh : outcome string) (persist_ok : bool)
  : outcome string * option secret_data :=
  match secret with
  | Raised e => (Raised e, None)
  | Ok creds_data =>
      if valid then (Ok (default EmptyString (access_token creds_data)), None)
      else if negb (env_truthy (refresh_token creds_data))
      then (Raised (RuntimeError NO_REFRESH_TOKEN), None)
      else
        match refresh with
        | Raised e => (Raised e, None)
        | Ok token =>
            (Ok token,
             if persist_ok
             then Some {| access_token := Some token;
                          refresh_token := refresh_token creds_data |}
             else None)
        end
  end.

(** ** Vocabulary of the further statements *)

(** The handler returns, whatever its operations answer, after at most [n]
    of them. *)
Fixpoint acknowledges (n : nat) (p : prog unit) : Prop :=
  match p with
  | Ret _ => True
  | Raise _ => False
  | Do o k =>
      match n with
      | O => False
      | S m => ∀ r, acknowledges m (k r)
      end
  end.

(** What a round adds to the prompt of the next one. *)
Definition feedback (r : gen_response) : string :=
  match r with
  | GenRaises _ => EmptyString
  | GenText None => critic_bad_json
  | GenText (Some parsed) =>
      match sentinel_check parsed with
      | Ok (false, reason) => critic_rejected reason (caption_of parsed)
      | _ => EmptyString
      end
  end.

(** The keywords of the price pattern that stand alone. *)
Definition PRICE_KEYWORDS : list string := ["discount"; "promo"; "coupon"].

(** Price language the pattern finds wherever it stands: one of the
    keywords, a dollar sign directly before a digit, a digit directly before
    a percent sign. *)
Definition price_marker (marker : string) : Prop :=
  marker ∈ PRICE_KEYWORDS ∨
  ∃ d, py_isdigit d = true ∧
       (marker = String "$" (String d EmptyString) ∨
        marker = String d (String "%" EmptyString)).

(** * Vocabulary of the statements *)

(** The fields [acquire_posting_lock] writes. *)
Definition lock_fields (now : Z) (lock_token : string)
  : list (string * field_write) :=
  [("status", Put (VStr "POSTING")); ("lock_token", Put (VStr lock_token));
   ("locked_at", Put (VTime now)); ("updated_at", ServerTimestamp)].

(** [d'] is [d] with the lock taken by [lock_token] at [now]. *)
Definition acquired_by (d d' : document) (lock_token : string) (now : Z) : Prop :=
  d' !! "status" = Some (VStr "POSTING") ∧
  d' !! "lock_token" = Some (VStr lock_token) ∧
  d' !! "locked_at" = Some (VTime now) ∧
  ∀ k, k ∉ ["status"; "lock_token"; "locked_at"; "updated_at"] -> d' !! k = d !! k.

(** The lock of [d] is older than the TTL at [now]. *)
Definition lock_expired (now : Z) (d : document) : Prop :=
  ∃ t, d !! "locked_at" = Some (VTime t) ∧
       LOCK_TTL_SECONDS * MICROSECONDS_PER_SECOND <= now - t.


Definition has_status (d : document) (s : string) : Prop :=
  py_get d "status" = VStr s.

Definition terminal (d : document) : Prop :=
  has_status d "POSTED" ∨ has_status d "FAILED".

(** The fields the two releases write. *)
Definition posted_fields (post_name : string) : list (string * field_write) :=
  [("status", Put (VStr "POSTED")); ("gbp_post_name", Put (VStr post_name));
   ("posted_at", ServerTimestamp); ("lock_token", DeleteField);
   ("locked_at", DeleteField); ("updated_at", ServerTimestamp)].

Definition failed_fields (reason : string) : list (string * field_write) :=
  [("status", Put (VStr "FAILED")); ("failure_reason", Put (VStr reason));
   ("lock_token", DeleteField); ("locked_at", DeleteField);
   ("updated_at", ServerTimestamp)].



Definition too_long_reason (n : nat) : string :=
  "TOO_LONG (" ++ str_of_nat n ++ " words)".

(** The self-reported [contains_price] of a candidate, as the sentinel reads
    it. *)
Definition self_reported_price (members : list (string * json)) : bool :=
  json_truthy (default (JBool false) (dict_get members "contains_price")).

(** The publishing call failed in a way [post_to_gbp] reports as retryable:
    a timeout, a connection failure, or one of the retryable status codes. *)
Definition retryable_failure (http : http_outcome) : Prop :=
  http = HttpTimeout ∨
  (∃ msg, http = HttpConnectionError msg) ∨
  (∃ status_code text name,
     http = HttpResponse status_code text name ∧
     status_code ∈ RETRYABLE_STATUS_CODES).

(** The record has nothing to post: no draft, or no image URL. *)
Definition incomplete (d : document) : Prop :=
  truthy (py_get_default d "draft" (VStr EmptyString)) = false ∨
  truthy (py_get_default d "image_url" (VStr EmptyString)) = false.

Definition incomplete_document_msg (doc_id filename : string) (timestamp : Z)
  : dlq_msg :=
  {| dlq_doc_id := doc_id; dlq_filename := filename;
     dlq_reason := "INCOMPLETE_DOCUMENT"; dlq_source := POSTER;
     dlq_timestamp := timestamp |}.

(** * Vocabulary of the invariants *)

(** The lock fields are there exactly when the status is POSTING. *)
Definition lock_inv (d : document) : Prop :=
  (is_Some (d !! "lock_token") <-> has_status d "POSTING") ∧
  (is_Some (d !! "locked_at") <-> has_status d "POSTING").

(** The statuses of a record the Composer is still working on. *)
Definition composer_owned (d : document) : Prop :=
  has_status d "RECEIVED" ∨ has_status d "GENERATING" ∨ has_status d "QUEUED".

(** Operations that write neither the collection nor the pointer topic. *)
Definition quiet_op (o : op) : bool :=
  match o with
  | GenerateWithReact _ _ | GenerateSignedUrl _ _ | UtcNow | SendToDlq _ _ _ _
  | GetSnapshot _ | PostToGbp _ _ | DryRunPost _ _ _ => true
  | _ => false
  end.

(** A program that only has quiet operations left. *)
Fixpoint quiet (p : prog unit) : Prop :=
  match p with
  | Do o k => quiet_op o = true ∧ ∀ r, quiet (k r)
  | _ => True
  end.

(** The operations of a Publisher instance for [doc_id]. *)
Definition poster_op (doc_id : string) (o : op) : bool :=
  quiet_op o ||
  match o with
  | AcquirePostingLock i | ReleaseLockSuccess i _ _ | ReleaseLockFailure i _ _ =>
      String.eqb i doc_id
  | _ => false
  end.

Fixpoint poster (doc_id : string) (p : prog unit) : Prop :=
  match p with
  | Do o k => poster_op doc_id o = true ∧ ∀ r, poster doc_id (k r)
  | _ => True
  end.

(** The status updates of the Composer: never POSTING, never a lock field. *)
Definition composer_update (status : string)
    (extra_fields : list (string * field_write)) : Prop :=
  status ∈ ["GENERATING"; "QUEUED"; "FAILED"] ∧
  ∀ kv, kv ∈ extra_fields -> kv.1 ∉ ["status"; "lock_token"; "locked_at"].

(** A Composer instance that has claimed [doc_id]: it updates the status of
    [doc_id] only, is quiet once it has written FAILED, and is quiet once its
    pointer is published. *)
Fixpoint composing (doc_id : string) (p : prog unit) : Prop :=
  match p with
  | Do o k =>
      match o as o0 return (res o0 -> Prop) -> (res o0 -> Prop) -> Prop with
      | UpdateStatus i status extra_fields =>
          λ C Q, i = doc_id ∧ composer_update status extra_fields ∧
                 (if decide (status = "FAILED") then Q tt else C tt)
      | PublishPointer i =>
          λ C Q, i = doc_id ∧ Q (Ok tt) ∧ ∀ e, C (Raised e)
      | o0 => λ C Q, quiet_op o0 = true ∧ ∀ r, C r
      end (λ r, composing doc_id (k r)) (λ r, quiet (k r))
  | _ => True
  end.

(** A Composer instance that has not claimed yet: its next operation is the
    claim, after which it is done or composing. *)
Definition claiming (p : prog unit) : Prop :=
  match p with
  | Do o k =>
      match o as o0 return (res o0 -> prog unit) -> Prop with
      | ClaimDocument doc_id _ _ => λ k, quiet (k false) ∧ composing doc_id (k true)
      | _ => λ _, False
      end k
  | _ => True
  end.

(** The role of instance [j]: [owner] maps each document still being composed
    to the instance that claimed it. *)
Definition role_ok (owner : gmap string nat) (topic : list string) (j : nat)
    (p : prog unit) : Prop :=
  quiet p ∨ claiming p ∨
  (∃ doc_id, doc_id ∈ topic ∧ poster doc_id p) ∨
  (∃ doc_id, owner !! doc_id = Some j ∧ composing doc_id p).

Definition system_inv_at (ps : pool) (w : world) : Prop :=
  (∀ doc_id d, w_store w !! doc_id = Some d -> lock_inv d) ∧
  (∀ doc_id, doc_id ∈ w_topic w -> is_Some (w_store w !! doc_id)) ∧
  ∃ owner : gmap string nat,
    (∀ doc_id j, owner !! doc_id = Some j ->
       (doc_id ∉ w_topic w) ∧ ∃ d, w_store w !! doc_id = Some d ∧ composer_owned d) ∧
    (∀ j p, ps !! j = Some p -> role_ok owner (w_topic w) j p).

Definition system_inv (s : pool * world) : Prop := system_inv_at s.1 s.2.

(** * Example inputs *)

Fixpoint words (n : nat) : string :=
  match n with
  | O => EmptyString
  | S m => "crumb " ++ words m
  end.

(** Forty-one words, reported by the candidate as twelve, with the price flag
    raised. *)
Definition overlong_priced_candidate : list (string * json) :=
  [("caption", JStr (words 41)); ("word_count", JInt 12);
   ("contains_price", JBool true)].

(** Forty-one words, reported by the candidate as twelve and as free of
    prices. *)
Definition overlong_candidate : list (string * json) :=
  [("caption", JStr (words 41)); ("word_count", JInt 12);
   ("contains_price", JBool false)].

Definition good_candidate : json :=
  JObject [("caption", JStr "Warm crusty sourdough with a deep caramel crust");
           ("word_count", JInt 8); ("contains_price", JBool false)].

Definition short_candidate : json :=
  JObject [("caption", JStr "Fresh bread"); ("word_count", JInt 2);
           ("contains_price", JBool false)].

(** A [guess_type] that knows two extensions. *)
Definition example_guess_type (filename : string) : option string :=
  if py_in ".jpg" filename then Some "image/jpeg"
  else if py_in ".png" filename then Some "image/png"
  else None.

(** A stand-in for the digest: any function of the text does. *)
Definition example_digest (raw : string) : string := "sha256:" ++ raw.

(** A generator whose first answer is too short and whose second is good. *)
Definition second_try_model (attempt : nat) (prompt : string) : gen_response :=
  match attempt with
  | O => GenText (Some short_candidate)
  | _ => GenText (Some good_candidate)
  end.

(** A generator that never produces an acceptable candidate. *)
Definition hopeless_model (attempt : nat) (prompt : string) : gen_response :=
  match attempt with
  | O => GenText (Some short_candidate)
  | S O => GenText None
  | _ => GenRaises (OtherError "DeadlineExceeded")
  end.

(** A deployment and a run of the whole pipeline for one upload. *)
Definition example_project : option string := Some "bakers".
Definition example_location : option string := Some "accounts/1/locations/2".

Definition example_upload : upload_event :=
  {| ev_bucket := "bakery"; ev_name := "croissant.jpg"; ev_generation := "17" |}.

Definition example_id : string := make_doc_id example_digest "bakery" "croissant.jpg" "17".

(** The publishing platform answers 503. *)
Definition busy_env : env :=
  {| e_tx := TxCommits; e_io_ok := true; e_server_time := 1000; e_utcnow := 2000;
     e_uuid4 := "0b5e1c9a-7d42-4c1e-9a57-3f2f6b1d8e40";
     e_history := Ok []; e_model := second_try_model;
     e_signed_url := Ok "https://storage.example/croissant.jpg?sig";
     e_credentials := Ok "ya29.token"; e_location_ok := true;
     e_http := HttpResponse 503 "Service Unavailable" (Ok None) |}.

(** The publishing platform accepts the post. *)
Definition posting_env : env :=
  {| e_tx := TxCommits; e_io_ok := true; e_server_time := 3000; e_utcnow := 4000;
     e_uuid4 := "5a1d9c3e-2b6f-4e0a-8c7d-1f3e5a7b9c2d";
     e_history := Ok []; e_model := second_try_model;
     e_signed_url := Ok "https://storage.example/croissant.jpg?sig";
     e_credentials := Ok "ya29.token"; e_location_ok := true;
     e_http := HttpResponse 200 EmptyString (Ok (Some "accounts/1/locations/2/localPosts/9")) |}.

Definition example_step (e : env) (j : nat) : pool * world -> pool * world :=
  run_operation example_guess_type example_project example_location e j.

(** The Composer has claimed, generated, queued and published the pointer. *)
Definition queued_state : pool * world :=
  Nat.iter 7 (example_step busy_env 0)
    (deliver_upload example_digest example_guess_type example_upload
       (initial)).

(** A Publisher instance has read the record and taken the lock. *)
Definition posting_state : pool * world :=
  Nat.iter 2 (example_step busy_env 1) (deliver_pointer false example_id queued_state).

(** It has posted and released the lock. *)
Definition posted_state : pool * world :=
  Nat.iter 2 (example_step posting_env 1) posting_state.

Definition queued_record : document :=
  list_to_map
    [("doc_id", VStr example_id); ("bucket", VStr "bakery");
     ("filename", VStr "croissant.jpg"); ("status", VStr "QUEUED");
     ("created_at", VTime 1000); ("updated_at", VTime 1000);
     ("draft", VStr "Warm crusty sourdough with a deep caramel crust");
     ("image_url", VStr "https://storage.example/croissant.jpg?sig");
     ("signed_url_expires", VTime 3600002000)].

Definition posting_record : document :=
  <["status" := VStr "POSTING"]>
    (<["lock_token" := VStr "0b5e1c9a-7d42-4c1e-9a57-3f2f6b1d8e40"]>
       (<["locked_at" := VTime 2000]> queued_record)).

Definition posted_record : document :=
  <["status" := VStr "POSTED"]>
    (<["gbp_post_name" := VStr "accounts/1/locations/2/localPosts/9"]>
       (<["posted_at" := VTime 3000]> (<["updated_at" := VTime 3000]> queued_record))).

(** A record claimed but never completed. *)
Definition received_record : document :=
  list_to_map
    [("doc_id", VStr example_id); ("bucket", VStr "bakery");
     ("filename", VStr "croissant.jpg"); ("status", VStr "RECEIVED");
     ("created_at", VTime 1000)].

(** A POSTING record that lost its [locked_at]. *)
Definition unstamped_record : document := delete "locked_at" posting_record.

Definition example_token : string := "0b5e1c9a-7d42-4c1e-9a57-3f2f6b1d8e40".

(** A world whose only record was claimed and never completed. *)
Definition received_world : world :=
  {| w_store := {[example_id := received_record]}; w_topic := []; w_dlq := [] |}.

(** The system, and runs of one handler, in the example deployment. *)
Abbreviation example_reachable :=
  (reachable example_digest example_guess_type false example_project example_location).
Abbreviation example_run :=
  (run example_guess_type example_project example_location).
Abbreviation example_trace :=
  (trace example_guess_type example_project example_location).

(** * Vocabulary of the further invariants *)

(** The fields the claim writes beside the status. *)
Definition CLAIM_FIELDS : list string := ["doc_id"; "bucket"; "filename"; "created_at"].

(** An operation that writes none of the claim's fields into a record that
    exists: every operation but a status update that names one of them. *)
Definition keeps_claim_fields_op (o : op) : Prop :=
  match o with
  | UpdateStatus _ _ extra_fields => ∀ k, k ∈ CLAIM_FIELDS -> k ∉ extra_fields.*1
  | _ => True
  end.

Fixpoint keeps_claim_fields (p : prog unit) : Prop :=
  match p with
  | Do o k => keeps_claim_fields_op o ∧ ∀ r, keeps_claim_fields (k r)
  | _ => True
  end.

(** Every instance keeps the claim fields. *)
Definition pool_keeps_claim_fields (s : pool * world) : Prop :=
  ∀ j p, s.1 !! j = Some p -> keeps_claim_fields p.

(** * Further example inputs *)

(** A caption with a keyword of the price pattern, in capitals. *)
Definition discount_caption : string := "Butter croissants with a DISCOUNT this week".

Definition discount_candidate : list (string * json) :=
  [("caption", JStr discount_caption); ("word_count", JInt 7);
   ("contains_price", JBool false)].

Definition good_caption : string := "Warm crusty sourdough with a deep caramel crust".

Definition example_url : string := "https://storage.example/croissant.jpg?sig".

Definition empty_world : world := {| w_store := ∅; w_topic := []; w_dlq := [] |}.

(** The record is queued and its pointer is on the topic. *)
Definition queued_world : world :=
  {| w_store := {[example_id := queued_record]}; w_topic := [example_id]; w_dlq := [] |}.

Definition posted_world : world :=
  {| w_store := {[example_id := posted_record]}; w_topic := [example_id]; w_dlq := [] |}.

(** The environment of [busy_env] but for what is given. *)
Definition example_env (tx : tx_fault) (io_ok : bool)
    (model : nat -> string -> gen_response) (signed_url : outcome string)
    (credentials : outcome string) (http : http_outcome) : env :=
  {| e_tx := tx; e_io_ok := io_ok; e_server_time := 1000; e_utcnow := 2000;
     e_uuid4 := example_token; e_history := Ok []; e_model := model;
     e_signed_url := signed_url; e_credentials := credentials;
     e_location_ok := true; e_http := http |}.

(** The generator never produces an acceptable candidate. *)
Definition hopeless_env : env :=
  example_env TxCommits true hopeless_model (Ok example_url) (Ok "ya29.token")
    (HttpResponse 503 "Service Unavailable" (Ok None)).

Definition signing_error : exn := OtherError "Forbidden: iam.serviceAccounts.signBlob".

(** Signing the URL is refused. *)
Definition unsigned_env : env :=
  example_env TxCommits true second_try_model (Raised signing_error) (Ok "ya29.token")
    (HttpResponse 503 "Service Unavailable" (Ok None)).

(** Plain store and Pub/Sub calls fail. *)
Definition offline_env : env :=
  example_env TxCommits false second_try_model (Ok example_url) (Ok "ya29.token")
    (HttpResponse 503 "Service Unavailable" (Ok None)).

(** Transactions do not commit. *)
Definition faulty_env : env :=
  example_env TxCommitFails true second_try_model (Ok example_url) (Ok "ya29.token")
    (HttpResponse 200 EmptyString (Ok (Some "accounts/1/locations/2/localPosts/9"))).

(** The publishing platform refuses the post for good. *)
Definition forbidden_env : env :=
  example_env TxCommits true second_try_model (Ok example_url) (Ok "ya29.token")
    (HttpResponse 403 "The caller does not have permission" (Ok None)).

(** A secret without tokens. *)
Definition expired_secret : secret_data :=
  {| access_token := None; refresh_token := None |}.

Definition unrefreshable_env : env :=
  example_env TxCommits true second_try_model (Ok example_url)
    (get_credentials (Ok expired_secret) false (Ok "ya29.fresh") true).1
    (HttpResponse 200 EmptyString (Ok (Some "accounts/1/locations/2/localPosts/9"))).

(** * Properties *)

(** ** Reading and writing documents *)

Lemma value_is_str_true (v : value) (s : string) :
  value_is_str v s = true <-> v = VStr s.
Proof.
  destruct v; simpl; try (split; [discriminate | congruence]).
  rewrite String.eqb_eq. split; congruence.
Qed.

Lemma value_is_str_false (v : value) (s : string) :
  value_is_str v s = false <-> v ≠ VStr s.
Proof.
  rewrite <- value_is_str_true. destruct (value_is_str v s); split; congruence.
Qed.

Lemma py_get_lookup (d : document) (k : string) (v : value) :
  d !! k = Some v -> py_get d k = v.
Proof. unfold py_get. now intros ->. Qed.

Lemma py_get_missing (d : document) (k : string) :
  d !! k = None -> py_get d k = VNull.
Proof. unfold py_get. now intros ->. Qed.

(** A transaction that does not commit leaves the store as it was. *)
Lemma run_transaction_fault {A} (fault : tx_fault) (server_time : Z) (doc_id : string)
    (body : tx_body A) (st : store) :
  fault ≠ TxCommits ->
  ∃ e, run_transaction fault server_time doc_id body st = (Raised e, st).
Proof.
  intros Hf. unfold run_transaction.
  destruct fault; [congruence | eauto |].
  destruct (body (st !! doc_id)) as [[a ws]|e]; eauto.
Qed.

(** ** C1: the claim *)

(** The record a successful claim creates. *)
Lemma claim_document_fresh (server_time : Z) (doc_id bucket filename : string)
    (st : store) :
  st !! doc_id = None ->
  ∃ d : document,
    claim_document TxCommits server_time doc_id bucket filename st
      = (true, <[doc_id := d]> st) ∧
    d !! "status" = Some (VStr "RECEIVED") ∧
    d !! "doc_id" = Some (VStr doc_id) ∧
    d !! "bucket" = Some (VStr bucket) ∧
    d !! "filename" = Some (VStr filename) ∧
    d !! "created_at" = Some (VTime server_time) ∧
    d !! "lock_token" = None ∧ d !! "locked_at" = None.
Proof.
  intros Hnone. eexists. unfold claim_document, run_transaction.
  rewrite Hnone. simpl. split; [reflexivity|].
  unfold apply_update. simpl. unfold apply_field. simpl.
  repeat split; by simplify_map_eq.
Qed.

Lemma claim_document_taken (fault : tx_fault) (server_time : Z)
    (doc_id bucket filename : string) (st : store) :
  is_Some (st !! doc_id) ->
  claim_document fault server_time doc_id bucket filename st = (false, st).
Proof.
  intros [d Hd]. unfold claim_document, run_transaction.
  rewrite Hd. destruct fault; reflexivity.
Qed.

Lemma claim_document_fault (fault : tx_fault) (server_time : Z)
    (doc_id bucket filename : string) (st : store) :
  fault ≠ TxCommits ->
  claim_document fault server_time doc_id bucket filename st = (false, st).
Proof.
  intros Hf. unfold claim_document.
  destruct (run_transaction_fault fault server_time doc_id
              (_claim doc_id bucket filename) st Hf) as [e ->].
  reflexivity.
Qed.

(** C1. [claim_document] on a store with no record at [doc_id] creates the
    record with status RECEIVED and the given metadata and returns [true];
    on a store that holds a record at [doc_id] it returns [false] and leaves
    the store as it is; and when the transaction fails it returns [false],
    without raising, and writes nothing. *)
Theorem claim_document_first_writer_wins (fault : tx_fault) (server_time : Z)
    (doc_id bucket filename : string) (st : store) :
  (st !! doc_id = None -> fault = TxCommits ->
   ∃ d : document,
     claim_document fault server_time doc_id bucket filename st
       = (true, <[doc_id := d]> st) ∧
     d !! "status" = Some (VStr "RECEIVED") ∧
     d !! "doc_id" = Some (VStr doc_id) ∧
     d !! "bucket" = Some (VStr bucket) ∧
     d !! "filename" = Some (VStr filename) ∧
     d !! "created_at" = Some (VTime server_time) ∧
     d !! "lock_token" = None ∧ d !! "locked_at" = None) ∧
  (is_Some (st !! doc_id) ->
   claim_document fault server_time doc_id bucket filename st = (false, st)) ∧
  (fault ≠ TxCommits ->
   claim_document fault server_time doc_id bucket filename st = (false, st)).
Proof.
  split; [|split].
  - intros Hnone ->. by apply claim_document_fresh.
  - apply claim_document_taken.
  - apply claim_document_fault.
Qed.

(** ** The posting lock *)

Lemma status_in_terminal (d : document) :
  status_in (py_get d "status") TERMINAL_STATUSES = true <-> terminal d.
Proof.
  unfold status_in, TERMINAL_STATUSES, terminal, has_status. simpl.
  rewrite !orb_true_iff, !value_is_str_true. intuition discriminate.
Qed.

Lemma apply_lock_fields (server_time now : Z) (lock_token : string) (d : document) :
  acquired_by d (apply_update server_time (lock_fields now lock_token) d)
    lock_token now.
Proof.
  unfold acquired_by, apply_update, lock_fields, apply_field. simpl.
  repeat split; try by simplify_map_eq.
  intros k Hk. rewrite !not_elem_of_cons in Hk. destruct Hk as (?&?&?&?&_).
  by simplify_map_eq.
Qed.


(** A committed transaction that buffers nothing or one update. *)
Lemma run_transaction_no_write {A} (server_time : Z) (doc_id : string)
    (body : tx_body A) (st : store) (a : A) :
  body (st !! doc_id) = Ok (a, []) ->
  run_transaction TxCommits server_time doc_id body st = (Ok a, st).
Proof. unfold run_transaction. by intros ->. Qed.

Lemma run_transaction_update {A} (server_time : Z) (doc_id : string)
    (body : tx_body A) (st : store) (a : A) (d : document)
    (fields : list (string * field_write)) :
  st !! doc_id = Some d ->
  body (Some d) = Ok (a, [TxUpdate fields]) ->
  run_transaction TxCommits server_time doc_id body st
    = (Ok a, <[doc_id := apply_update server_time fields d]> st).
Proof. unfold run_transaction. intros Hd. rewrite Hd. intros ->. simpl. by rewrite Hd. Qed.

Lemma run_transaction_raises {A} (fault : tx_fault) (server_time : Z)
    (doc_id : string) (body : tx_body A) (st : store) (e : exn) :
  body (st !! doc_id) = Raised e ->
  ∃ e', run_transaction fault server_time doc_id body st = (Raised e', st).
Proof. unfold run_transaction. intros ->. destruct fault; eauto. Qed.

(** The decision of [_acquire] on an existing record. *)
Lemma _acquire_cases (lock_token : string) (now : Z) (d : document) :
  _acquire lock_token now (Some d) = Ok (None, []) ∨
  (∃ e, _acquire lock_token now (Some d) = Raised e) ∨
  _acquire lock_token now (Some d)
    = Ok (Some lock_token, [TxUpdate (lock_fields now lock_token)]) ∧
  (has_status d "QUEUED" ∨
   has_status d "POSTING" ∧
     (truthy (py_get d "locked_at") = false ∨ lock_expired now d)).
Proof.
  unfold _acquire.
  destruct (status_in (py_get d "status") TERMINAL_STATUSES); [by left|].
  destruct (value_is_str (py_get d "status") "POSTING") eqn:Hposting.
  - assert (status_in (py_get d "status") ["QUEUED"; "POSTING"] = true) as Hin.
    { unfold status_in. simpl. rewrite Hposting. by rewrite orb_true_r. }
    apply value_is_str_true in Hposting.
    destruct (truthy (py_get d "locked_at")) eqn:Htruthy.
    + destruct (py_get d "locked_at") as [| | | |t] eqn:Hat;
        try (right; left; by eexists).
      unfold obind, lock_age_below_ttl.
      destruct (Z.ltb_spec (now - t) (LOCK_TTL_SECONDS * MICROSECONDS_PER_SECOND));
        [by left|].
      rewrite Hin. right. right. split; [done|]. right. split; [done|].
      right. exists t. split; [|done].
      unfold py_get in Hat. destruct (d !! "locked_at"); simpl in Hat; congruence.
    + unfold obind. rewrite Hin. right. right. split; [done|].
      right. by split; [|left].
  - unfold obind.
    destruct (status_in (py_get d "status") ["QUEUED"; "POSTING"]) eqn:Hq;
      [| by left].
    unfold status_in in Hq. simpl in Hq. rewrite Hposting in Hq.
    rewrite !orb_false_r in Hq. apply value_is_str_true in Hq.
    right. right. split; [done|]. by left.
Qed.

(** Every way [acquire_posting_lock] can go: it returns [None] and writes
    nothing, or the transaction commits on a record that is QUEUED, or
    POSTING with a falsy or expired [locked_at], and it writes the lock
    fields and returns the token it was given. *)
Lemma acquire_posting_lock_cases (fault : tx_fault) (server_time now : Z)
    (lock_token doc_id : string) (st : store) :
  acquire_posting_lock fault server_time lock_token now doc_id st = (None, st) ∨
  ∃ d, st !! doc_id = Some d ∧ fault = TxCommits ∧
       acquire_posting_lock fault server_time lock_token now doc_id st
         = (Some lock_token,
            <[doc_id := apply_update server_time (lock_fields now lock_token) d]> st) ∧
       (has_status d "QUEUED" ∨
        has_status d "POSTING" ∧
          (truthy (py_get d "locked_at") = false ∨ lock_expired now d)).
Proof.
  unfold acquire_posting_lock.
  destruct (decide (fault = TxCommits)) as [->|Hf]; cycle 1.
  { destruct (run_transaction_fault fault server_time doc_id
                (_acquire lock_token now) st Hf) as [e ->]. by left. }
  destruct (st !! doc_id) as [d|] eqn:Hd; cycle 1.
  { rewrite (run_transaction_no_write _ _ _ _ None); [by left|]. by rewrite Hd. }
  destruct (_acquire_cases lock_token now d) as [H|[[e H]|[H Hcond]]].
  - rewrite (run_transaction_no_write _ _ _ _ None); [by left|]. by rewrite Hd.
  - destruct (run_transaction_raises TxCommits server_time doc_id
                (_acquire lock_token now) st e) as [e' ->]; [by rewrite Hd|].
    by left.
  - rewrite (run_transaction_update _ _ _ _ _ d _ Hd H).
    right. exists d. by repeat split.
Qed.

(** The positive rows of the table: a QUEUED record, or a POSTING record
    whose [locked_at] is falsy or expired, is locked. *)
Lemma _acquire_succeeds (lock_token : string) (now : Z) (d : document) :
  has_status d "QUEUED" ∨
  has_status d "POSTING" ∧
    (truthy (py_get d "locked_at") = false ∨ lock_expired now d) ->
  _acquire lock_token now (Some d)
    = Ok (Some lock_token, [TxUpdate (lock_fields now lock_token)]).
Proof.
  unfold _acquire, has_status.
  intros [Hq | [Hp Hlock]].
  - rewrite Hq. reflexivity.
  - rewrite Hp.
    replace (status_in (VStr "POSTING") TERMINAL_STATUSES) with false by reflexivity.
    replace (value_is_str (VStr "POSTING") "POSTING") with true by reflexivity.
    replace (status_in (VStr "POSTING") ["QUEUED"; "POSTING"]) with true
      by reflexivity.
    destruct Hlock as [-> | (t & Ht & Hage)]; [reflexivity|].
    rewrite (py_get_lookup _ _ _ Ht). simpl. unfold lock_age_below_ttl.
    destruct (Z.ltb_spec (now - t) (LOCK_TTL_SECONDS * MICROSECONDS_PER_SECOND));
      [lia | reflexivity].
Qed.

Lemma acquire_posting_lock_succeeds (server_time now : Z)
    (lock_token doc_id : string) (st : store) (d : document) :
  st !! doc_id = Some d ->
  has_status d "QUEUED" ∨
  has_status d "POSTING" ∧
    (truthy (py_get d "locked_at") = false ∨ lock_expired now d) ->
  acquire_posting_lock TxCommits server_time lock_token now doc_id st
    = (Some lock_token,
       <[doc_id := apply_update server_time (lock_fields now lock_token) d]> st).
Proof.
  intros Hd Hcond. unfold acquire_posting_lock.
  by rewrite (run_transaction_update _ _ _ _ _ d _ Hd
                (_acquire_succeeds lock_token now d Hcond)).
Qed.

(** ** C2: the decision table of the lock *)


(** ** C9: a POSTING record without [locked_at] *)

(** C9. On a record whose status is POSTING and whose [locked_at] is missing
    (or falsy), the committed [acquire_posting_lock] overwrites [lock_token]
    and [locked_at] and returns the token, whatever [now] is: the TTL is not
    compared. *)
Theorem acquire_posting_lock_without_locked_at (server_time now : Z)
    (lock_token doc_id : string) (st : store) (d : document) :
  st !! doc_id = Some d ->
  has_status d "POSTING" ->
  truthy (py_get d "locked_at") = false ->
  ∃ d', acquire_posting_lock TxCommits server_time lock_token now doc_id st
          = (Some lock_token, <[doc_id := d']> st) ∧
        acquired_by d d' lock_token now.
Proof.
  intros Hd Hp Hfalsy. eexists. split; [|apply apply_lock_fields].
  apply acquire_posting_lock_succeeds; auto.
Qed.

(** ** C3: releasing with a stale token *)

Lemma release_lock_success_cases (fault : tx_fault) (server_time : Z)
    (doc_id lock_token post_name : string) (st : store) :
  release_lock_success fault server_time doc_id lock_token post_name st = (false, st) ∨
  ∃ d, st !! doc_id = Some d ∧ fault = TxCommits ∧
       py_get d "lock_token" = VStr lock_token ∧
       release_lock_success fault server_time doc_id lock_token post_name st
         = (true, <[doc_id := apply_update server_time (posted_fields post_name) d]> st).
Proof.
  unfold release_lock_success.
  destruct (decide (fault = TxCommits)) as [->|Hf]; cycle 1.
  { destruct (run_transaction_fault fault server_time doc_id
                (_release_success lock_token post_name) st Hf) as [e ->]. by left. }
  destruct (st !! doc_id) as [d|] eqn:Hd; cycle 1.
  { rewrite (run_transaction_no_write _ _ _ _ false); [by left|]. by rewrite Hd. }
  destruct (value_is_str (py_get d "lock_token") lock_token) eqn:Htok.
  - rewrite (run_transaction_update _ _ _ _ true d (posted_fields post_name) Hd).
    + right. exists d. apply value_is_str_true in Htok. by repeat split.
    + unfold _release_success. by rewrite Htok.
  - rewrite (run_transaction_no_write _ _ _ _ false); [by left|].
    rewrite Hd. unfold _release_success. by rewrite Htok.
Qed.

Lemma release_lock_failure_cases (fault : tx_fault) (server_time : Z)
    (doc_id lock_token reason : string) (st : store) :
  release_lock_failure fault server_time doc_id lock_token reason st = (false, st) ∨
  ∃ d, st !! doc_id = Some d ∧ fault = TxCommits ∧
       py_get d "lock_token" = VStr lock_token ∧
       release_lock_failure fault server_time doc_id lock_token reason st
         = (true, <[doc_id := apply_update server_time (failed_fields reason) d]> st).
Proof.
  unfold release_lock_failure.
  destruct (decide (fault = TxCommits)) as [->|Hf]; cycle 1.
  { destruct (run_transaction_fault fault server_time doc_id
                (_release_failure lock_token reason) st Hf) as [e ->]. by left. }
  destruct (st !! doc_id) as [d|] eqn:Hd; cycle 1.
  { rewrite (run_transaction_no_write _ _ _ _ false); [by left|]. by rewrite Hd. }
  destruct (value_is_str (py_get d "lock_token") lock_token) eqn:Htok.
  - rewrite (run_transaction_update _ _ _ _ true d (failed_fields reason) Hd).
    + right. exists d. apply value_is_str_true in Htok. by repeat split.
    + unfold _release_failure. by rewrite Htok.
  - rewrite (run_transaction_no_write _ _ _ _ false); [by left|].
    rewrite Hd. unfold _release_failure. by rewrite Htok.
Qed.

(** Both releases delete the lock fields when they write. *)
Lemma apply_posted_fields (server_time : Z) (post_name : string) (d : document) :
  let d' := apply_update server_time (posted_fields post_name) d in
  d' !! "status" = Some (VStr "POSTED") ∧
  d' !! "lock_token" = None ∧ d' !! "locked_at" = None.
Proof.
  unfold apply_update, posted_fields, apply_field. simpl.
  repeat split; by simplify_map_eq.
Qed.

Lemma apply_failed_fields (server_time : Z) (reason : string) (d : document) :
  let d' := apply_update server_time (failed_fields reason) d in
  d' !! "status" = Some (VStr "FAILED") ∧
  d' !! "lock_token" = None ∧ d' !! "locked_at" = None.
Proof.
  unfold apply_update, failed_fields, apply_field. simpl.
  repeat split; by simplify_map_eq.
Qed.

(** A release with a token that is not the stored one writes nothing. *)
Lemma release_mismatch (fault : tx_fault) (server_time : Z)
    (doc_id lock_token text : string) (st : store) :
  (∀ d, st !! doc_id = Some d -> py_get d "lock_token" ≠ VStr lock_token) ->
  release_lock_success fault server_time doc_id lock_token text st = (false, st) ∧
  release_lock_failure fault server_time doc_id lock_token text st = (false, st).
Proof.
  intros Hne. split.
  - destruct (release_lock_success_cases fault server_time doc_id lock_token text st)
      as [H | (d & Hd & _ & Htok & _)]; [done|]. by destruct (Hne d Hd).
  - destruct (release_lock_failure_cases fault server_time doc_id lock_token text st)
      as [H | (d & Hd & _ & Htok & _)]; [done|]. by destruct (Hne d Hd).
Qed.

(** C3. A release whose token differs from the stored [lock_token] returns
    [false] and leaves the store, hence every field of the record, as it
    was; and once a release has succeeded, releasing again with the same
    token returns [false] and writes nothing. *)
Theorem release_with_stale_token_is_rejected (fault : tx_fault) (server_time : Z)
    (doc_id lock_token : string) (st : store) :
  (∀ text,
     (∀ d, st !! doc_id = Some d -> py_get d "lock_token" ≠ VStr lock_token) ->
     release_lock_success fault server_time doc_id lock_token text st = (false, st) ∧
     release_lock_failure fault server_time doc_id lock_token text st = (false, st)) ∧
  (∀ text st',
     release_lock_success fault server_time doc_id lock_token text st = (true, st') ∨
     release_lock_failure fault server_time doc_id lock_token text st = (true, st') ->
     ∀ fault' server_time' text',
       release_lock_success fault' server_time' doc_id lock_token text' st'
         = (false, st') ∧
       release_lock_failure fault' server_time' doc_id lock_token text' st'
         = (false, st')).
Proof.
  split.
  - intros text Hne. by apply release_mismatch.
  - intros text st' Hreleased fault' server_time' text'.
    apply release_mismatch. intros d' Hd'.
    assert (d' !! "lock_token" = None) as Hcleared.
    { destruct Hreleased as [Hr|Hr].
      - destruct (release_lock_success_cases fault server_time doc_id lock_token
                    text st) as [H | (d & Hd & _ & _ & H)];
          rewrite H in Hr; [discriminate|].
        injection Hr as <-. rewrite lookup_insert_eq in Hd'. injection Hd' as <-.
        apply apply_posted_fields.
      - destruct (release_lock_failure_cases fault server_time doc_id lock_token
                    text st) as [H | (d & Hd & _ & _ & H)];
          rewrite H in Hr; [discriminate|].
        injection Hr as <-. rewrite lookup_insert_eq in Hd'. injection Hd' as <-.
        apply apply_failed_fields. }
    by rewrite (py_get_missing _ _ Hcleared).
Qed.

(** ** The sentinel on concrete candidates *)

Example price_pattern_dollar :
  re_search price_pattern "only $ 599 today" = Some "$ 599".
Proof. reflexivity. Qed.

Example price_pattern_percent :
  re_search price_pattern "now 20 % less" = Some "20 %".
Proof. reflexivity. Qed.

Example price_pattern_leftmost :
  re_search price_pattern "a promo with a coupon" = Some "promo".
Proof. reflexivity. Qed.

Example price_pattern_none :
  re_search price_pattern "flaky layers and a golden crust" = None.
Proof. reflexivity. Qed.

Example py_split_words :
  py_split "  flaky   layers and crust " = ["flaky"; "layers"; "and"; "crust"].
Proof. reflexivity. Qed.

Example sentinel_approves_good : sentinel_check good_candidate = Ok (true, "APPROVED").
Proof. reflexivity. Qed.

Example sentinel_rejects_short :
  sentinel_check short_candidate = Ok (false, "TOO_SHORT (2 words)").
Proof. reflexivity. Qed.

Example sentinel_rejects_price :
  sentinel_check
    (JObject [("caption", JStr "Six warm rolls for only $5 this week");
              ("contains_price", JBool false)])
  = Ok (false, "PRICE_DETECTED: '$5'").
Proof. reflexivity. Qed.

Example sentinel_raises_on_non_string :
  sentinel_check (JObject [("caption", JInt 7)]) = Raised attribute_error.
Proof. reflexivity. Qed.

(** ** C8: the sentinel's own word count *)

Lemma py_split_from_lstrip (s : string) :
  py_split_from EmptyString (py_lstrip s) = py_split_from EmptyString s.
Proof.
  induction s as [|a t IH]; [reflexivity|]. simpl.
  destruct (py_isspace a) eqn:Ha; [exact IH|].
  simpl. by rewrite Ha.
Qed.

Lemma py_split_from_rstrip (s cur : string) :
  py_split_from cur (py_rstrip s) = py_split_from cur s.
Proof.
  revert cur. induction s as [|a t IH]; intros cur; [reflexivity|]. simpl.
  destruct (str_is_empty (py_rstrip t)) eqn:Hempty; simpl.
  - destruct (py_isspace a) eqn:Ha; simpl.
    + rewrite <- (IH EmptyString).
      destruct (py_rstrip t); [|discriminate]. simpl.
      by destruct (str_is_empty cur).
    + rewrite Ha. apply IH.
  - destruct (py_isspace a) eqn:Ha; by rewrite !IH.
Qed.

(** [s.strip().split()] is [s.split()]. *)
Lemma py_split_strip (s : string) : py_split (py_strip s) = py_split s.
Proof.
  unfold py_split, py_strip. by rewrite py_split_from_rstrip, py_split_from_lstrip.
Qed.

Lemma actual_words_nonempty (s : string) :
  (0 < actual_words s)%nat -> str_is_empty s = false.
Proof. destruct s; [intros H; vm_compute in H; lia | reflexivity]. Qed.

(** C8, amended. The sentinel rejects every candidate whose caption, split
    on whitespace, has more than forty words: with a TOO_LONG reason carrying
    the count whenever the self-reported [contains_price] is falsy, whatever
    [word_count] the candidate reports, and with PRICE_SELF_REPORTED when
    that flag is truthy. *)
Theorem sentinel_check_rejects_overlong (members : list (string * json))
    (caption : string) :
  dict_get members "caption" = Some (JStr caption) ->
  (40 < length (py_split caption))%nat ->
  sentinel_check (JObject members)
    = Ok (false,
          if self_reported_price members then "PRICE_SELF_REPORTED"
          else too_long_reason (length (py_split caption))).
Proof.
  intros Hcap Hlong. unfold sentinel_check, self_reported_price, too_long_reason.
  rewrite Hcap. simpl.
  rewrite <- (py_split_strip caption) in *. fold (actual_words (py_strip caption)) in *.
  rewrite actual_words_nonempty by lia.
  destruct (json_truthy _); [reflexivity|].
  destruct (Nat.ltb_spec 40 (actual_words (py_strip caption))); [reflexivity | lia].
Qed.

(** C8 as stated fails: a candidate of forty-one words whose price flag is
    raised is rejected with PRICE_SELF_REPORTED, not with a TOO_LONG reason. *)
Lemma sentinel_check_overlong_priced_counterexample :
  dict_get overlong_priced_candidate "caption" = Some (JStr (words 41)) ∧
  length (py_split (words 41)) = 41%nat ∧
  sentinel_check (JObject overlong_priced_candidate)
    = Ok (false, "PRICE_SELF_REPORTED") ∧
  ¬ (∀ members caption,
       dict_get members "caption" = Some (JStr caption) ->
       (40 < length (py_split caption))%nat ->
       sentinel_check (JObject members)
         = Ok (false, too_long_reason (length (py_split caption)))).
Proof.
  split; [reflexivity|]. split; [reflexivity|]. split; [reflexivity|].
  intros Hclaim.
  specialize (Hclaim overlong_priced_candidate (words 41) eq_refl).
  assert (40 < length (py_split (words 41)))%nat as Hlong by (vm_compute; lia).
  specialize (Hclaim Hlong). vm_compute in Hclaim. discriminate.
Qed.

(** ** C7: the bounded generation loop *)





(** ** The Publisher handler *)

Ltac prog_simpl :=
  cbn [run trace raising perform mbind prog_mbind prog_bind try_except exec_op
       fst snd].

Section Publisher.

Variable guess_type : string -> option string.
Variable PROJECT_ID LOCATION_ID : option string.

Local Abbreviation run_alone := (run guess_type PROJECT_ID LOCATION_ID).
Local Abbreviation trace_alone := (trace guess_type PROJECT_ID LOCATION_ID).

(** C10. When the record a pointer refers to exists but has no draft or no
    image URL, [process_post_queue] reads it, forwards INCOMPLETE_DOCUMENT to
    the dead-letter topic and returns, which acknowledges the message; the
    store is left as it was, and the message is on the dead-letter topic
    whenever the publish call went through. *)
Theorem process_post_queue_incomplete_document (DRY_RUN : bool) (e1 e2 : env)
    (doc_id : string) (w : world) (d : document) :
  str_is_empty doc_id = false ->
  w_store w !! doc_id = Some d ->
  e_io_ok e1 = true ->
  incomplete d ->
  let handler := process_post_queue DRY_RUN (PubsubPointer doc_id) in
  let filename := py_get_default d "filename" (VStr "unknown") in
  ∃ w',
    run_alone [e1; e2] handler w = (Ret tt, w') ∧
    trace_alone [e1; e2] handler w
      = [GetSnapshot doc_id; SendToDlq doc_id filename "INCOMPLETE_DOCUMENT" POSTER] ∧
    w_store w' = w_store w ∧ w_topic w' = w_topic w ∧
    (∀ f, json_text filename = Some f -> e_io_ok e2 = true ->
          w_dlq w' = (w_dlq w ++ [incomplete_document_msg doc_id f (e_utcnow e2)])%list).
Proof.
  intros Hid Hd Hread Hinc handler filename. subst handler filename.
  assert (negb (truthy (py_get_default d "draft" (VStr EmptyString)))
          || negb (truthy (py_get_default d "image_url" (VStr EmptyString))) = true) as Hgate.
  { destruct Hinc as [-> | ->]; [reflexivity | apply orb_true_r]. }
  unfold process_post_queue. rewrite Hid.
  prog_simpl. rewrite Hread, Hd. prog_simpl. rewrite Hgate. prog_simpl.
  eexists. split; [reflexivity|]. split; [reflexivity|].
  unfold send_to_dlq.
  destruct (json_text (py_get_default d "filename" (VStr "unknown"))) as [f|];
    [destruct (e_io_ok e2) eqn:Hio|]; simpl; repeat split; try done.
  intros f' Hf' _. by injection Hf' as ->.
Qed.

Lemma post_to_gbp_retryable (creds : string) (http : http_outcome)
    (draft : string) (image_url : value) :
  validate_config PROJECT_ID LOCATION_ID = [] ->
  retryable_failure http ->
  ∃ error status_code,
    post_to_gbp PROJECT_ID LOCATION_ID (Ok creds) http (VStr draft) image_url
      = Ok (GbpFailure error status_code true).
Proof.
  intros Hcfg Hretry. unfold post_to_gbp. rewrite Hcfg. simpl.
  destruct Hretry as [-> | [[msg ->] | (code & text & name & -> & Hcode)]];
    [by eexists _, _ .. |].
  assert (retryable_status code = true) as Hr.
  { unfold retryable_status. apply existsb_exists. exists code.
    split; [by apply list_elem_of_In | apply Z.eqb_refl]. }
  assert ((code =? 200) = false) as ->.
  { apply Z.eqb_neq. intros ->. vm_compute in Hr. discriminate. }
  rewrite Hr. by eexists _, _.
Qed.


(** The same holds for an exception out of [post_to_gbp] that is a
    [RuntimeError] or that [classify_error] finds transient: the handler
    re-raises it, with no release. *)
Lemma process_post_queue_transient_exception_keeps_lock (e1 e2 e3 : env)
    (doc_id lock_token : string) (w : world) (d : document) (st2 : store)
    (e : exn) :
  str_is_empty doc_id = false ->
  w_store w !! doc_id = Some d ->
  e_io_ok e1 = true ->
  ¬ incomplete d ->
  acquire_posting_lock (e_tx e2) (e_server_time e2) (e_uuid4 e2) (e_utcnow e2)
    doc_id (w_store w) = (Some lock_token, st2) ->
  str_is_empty lock_token = false ->
  post_to_gbp PROJECT_ID LOCATION_ID (e_credentials e3) (e_http e3)
    (py_get_default d "draft" (VStr EmptyString)) (py_get_default d "image_url" (VStr EmptyString))
    = Raised e ->
  (∃ msg, e = RuntimeError msg) ∨ classify_error e = TRANSIENT ->
  run_alone [e1; e2; e3] (process_post_queue false (PubsubPointer doc_id)) w
    = (Raise e, with_store w st2).
Proof.
  intros Hid Hd Hread Hcomplete Hacq Htoken Hpost Hclass.
  assert (negb (truthy (py_get_default d "draft" (VStr EmptyString)))
          || negb (truthy (py_get_default d "image_url" (VStr EmptyString))) = false) as Hgate.
  { unfold incomplete in Hcomplete.
    destruct (truthy (py_get_default d "draft" (VStr EmptyString)));
      destruct (truthy (py_get_default d "image_url" (VStr EmptyString))); simpl; tauto. }
  unfold process_post_queue. rewrite Hid.
  prog_simpl. rewrite Hread, Hd. prog_simpl. rewrite Hgate.
  prog_simpl. rewrite Hacq. prog_simpl. rewrite Htoken. prog_simpl.
  rewrite Hpost. prog_simpl.
  destruct Hclass as [[msg ->] | Hclass]; [reflexivity|].
  destruct e; [reflexivity|]. by rewrite Hclass.
Qed.

End Publisher.

(** ** Records under the operations *)

Lemma apply_update_lookup_other (server_time : Z)
    (fields : list (string * field_write)) (d : document) (k : string) :
  (∀ kv, kv ∈ fields -> kv.1 ≠ k) ->
  apply_update server_time fields d !! k = d !! k.
Proof.
  unfold apply_update. revert d.
  induction fields as [|[k' fw] fields IH]; intros d Hk; [reflexivity|].
  simpl. rewrite IH.
  - assert (k' ≠ k) as Hne by (apply (Hk (k', fw)); left).
    unfold apply_field. simpl. destruct fw; by simplify_map_eq.
  - intros kv Hin. apply Hk. by right.
Qed.

Lemma apply_update_cons (server_time : Z) (kv : string * field_write)
    (fields : list (string * field_write)) (d : document) :
  apply_update server_time (kv :: fields) d
    = apply_update server_time fields (apply_field server_time d kv).
Proof. reflexivity. Qed.

(** What [update_status] does to the store. *)
Lemma update_status_cases (io_ok : bool) (server_time : Z) (doc_id status : string)
    (extra_fields : list (string * field_write)) (st : store) :
  update_status io_ok server_time doc_id status extra_fields st = st ∨
  ∃ d, st !! doc_id = Some d ∧
       update_status io_ok server_time doc_id status extra_fields st
         = <[doc_id :=
               apply_update server_time
                 (("status", Put (VStr status))
                    :: ("updated_at", ServerTimestamp) :: extra_fields) d]> st.
Proof.
  unfold update_status. destruct io_ok; [|by left].
  destruct (st !! doc_id) as [d|]; [|by left]. right. by exists d.
Qed.

Lemma composer_update_record (server_time : Z) (status : string)
    (extra_fields : list (string * field_write)) (d : document) :
  composer_update status extra_fields ->
  let d' := apply_update server_time
              (("status", Put (VStr status))
                 :: ("updated_at", ServerTimestamp) :: extra_fields) d in
  d' !! "status" = Some (VStr status) ∧
  d' !! "lock_token" = d !! "lock_token" ∧
  d' !! "locked_at" = d !! "locked_at".
Proof.
  intros [_ Hextra] d'. subst d'.
  assert (∀ k, k ∈ ["status"; "lock_token"; "locked_at"] ->
               ∀ kv, kv ∈ extra_fields -> kv.1 ≠ k) as Hkeys.
  { intros k Hk kv Hkv Heq. apply (Hextra kv Hkv). by rewrite Heq. }
  rewrite !apply_update_cons.
  rewrite !apply_update_lookup_other
    by (apply Hkeys; repeat (first [by left | right])).
  unfold apply_field. simpl. repeat split; by simplify_map_eq.
Qed.

Lemma lock_inv_unlocked (d : document) (status : string) :
  d !! "status" = Some (VStr status) -> status ≠ "POSTING" ->
  d !! "lock_token" = None -> d !! "locked_at" = None ->
  lock_inv d.
Proof.
  intros Hs Hne Htok Hat. unfold lock_inv, has_status.
  rewrite (py_get_lookup _ _ _ Hs), Htok, Hat.
  split; (split; [by intros [? ?] | intros [=]; congruence]).
Qed.

Lemma lock_inv_acquired (d d' : document) (lock_token : string) (now : Z) :
  acquired_by d d' lock_token now -> lock_inv d'.
Proof.
  intros (Hs & Htok & Hat & _). unfold lock_inv, has_status.
  rewrite (py_get_lookup _ _ _ Hs), Htok, Hat. split; split; eauto.
Qed.

Lemma composer_owned_unlocked (d : document) :
  lock_inv d -> composer_owned d ->
  d !! "lock_token" = None ∧ d !! "locked_at" = None.
Proof.
  intros [Htok Hat] Hown.
  assert (¬ has_status d "POSTING") as Hnp.
  { unfold composer_owned, has_status in *. intros Hp.
    destruct Hown as [H|[H|H]]; congruence. }
  split.
  - destruct (d !! "lock_token") eqn:E; [|done]. destruct Hnp. apply Htok. eauto.
  - destruct (d !! "locked_at") eqn:E; [|done]. destruct Hnp. apply Hat. eauto.
Qed.

Lemma terminal_not_owned (d : document) : terminal d -> ¬ composer_owned d.
Proof.
  unfold terminal, composer_owned, has_status.
  intros [Ht|Ht] [H|[H|H]]; congruence.
Qed.

Lemma terminal_unlocked (d : document) :
  lock_inv d -> terminal d -> d !! "lock_token" = None.
Proof.
  intros [Htok _] Ht. destruct (d !! "lock_token") eqn:E; [|done].
  assert (has_status d "POSTING") as Hp by (apply Htok; eauto).
  unfold terminal, has_status in *. destruct Ht; congruence.
Qed.

(** The two ways [claim_document] can go. *)
Lemma claim_document_cases (fault : tx_fault) (server_time : Z)
    (doc_id bucket filename : string) (st : store) :
  claim_document fault server_time doc_id bucket filename st = (false, st) ∨
  ∃ d, st !! doc_id = None ∧
       claim_document fault server_time doc_id bucket filename st
         = (true, <[doc_id := d]> st) ∧
       has_status d "RECEIVED" ∧ lock_inv d.
Proof.
  destruct (decide (fault = TxCommits)) as [->|Hf];
    [|left; by apply claim_document_fault].
  destruct (st !! doc_id) as [d0|] eqn:Hd;
    [left; apply claim_document_taken; eauto|].
  destruct (claim_document_fresh server_time doc_id bucket filename st Hd)
    as (d & -> & Hs & _ & _ & _ & _ & Htok & Hat).
  right. exists d. repeat split; [by apply py_get_lookup|..];
    by eapply lock_inv_unlocked.
Qed.

(** ** The system of handlers *)

Section System.

Variable sha256_hex : string -> string.
Variable guess_type : string -> option string.
Variable DRY_RUN : bool.
Variable PROJECT_ID LOCATION_ID : option string.

Local Abbreviation exec := (exec_op guess_type PROJECT_ID LOCATION_ID).
Local Abbreviation step_ :=
  (step sha256_hex guess_type DRY_RUN PROJECT_ID LOCATION_ID).
Local Abbreviation reachable_ :=
  (reachable sha256_hex guess_type DRY_RUN PROJECT_ID LOCATION_ID).

Lemma quiet_op_world (e : env) (o : op) (w : world) :
  quiet_op o = true ->
  w_store (exec e o w).2 = w_store w ∧ w_topic (exec e o w).2 = w_topic w.
Proof.
  destruct o; try discriminate; intros _; try done.
  simpl. unfold send_to_dlq.
  destruct (json_text filename); [destruct (e_io_ok e)|]; done.
Qed.

Lemma composer_update_generating : composer_update "GENERATING" [].
Proof. split; [by left | intros kv Hkv; by apply elem_of_nil in Hkv]. Qed.

Lemma composer_update_failed (reason : value) :
  composer_update "FAILED" [("failure_reason", Put reason)].
Proof.
  split; [by do 2 right; left|]. intros kv Hkv.
  apply list_elem_of_singleton in Hkv as ->. simpl.
  rewrite !not_elem_of_cons. repeat split; try discriminate. apply not_elem_of_nil.
Qed.

Lemma composer_update_queued (draft image_url expires : value) :
  composer_update "QUEUED"
    [("draft", Put draft); ("image_url", Put image_url);
     ("signed_url_expires", Put expires)].
Proof.
  split; [by right; left|]. intros kv Hkv.
  repeat (apply elem_of_cons in Hkv as [-> | Hkv]);
    [simpl; rewrite !not_elem_of_cons; repeat split; try discriminate;
     apply not_elem_of_nil ..|].
  by apply elem_of_nil in Hkv.
Qed.

(** Walks through a handler, one operation and one result at a time. *)
Ltac walk :=
  repeat match goal with
    | |- True => exact I
    | |- ?x = ?x => reflexivity
    | |- _ ∧ _ => split
    | |- composer_update "GENERATING" _ => apply composer_update_generating
    | |- composer_update "FAILED" _ => apply composer_update_failed
    | |- composer_update "QUEUED" _ => apply composer_update_queued
    | |- ∀ _, _ => intro
    | |- context [decide (?a = ?b)] =>
        destruct (decide (a = b)); [try discriminate | try congruence]
    | |- context [if no_draft ?r then _ else _] => destruct (no_draft r)
    | |- context [match ?r with Ok _ => _ | Raised _ => _ end] => is_var r; destruct r
    | |- context [match ?r with Some _ => _ | None => _ end] => is_var r; destruct r
    | |- context [match ?r with GbpSuccess _ => _ | GbpFailure _ _ _ => _ end] =>
        is_var r; destruct r
    | |- context [match ?r with RuntimeError _ => _ | OtherError _ => _ end] =>
        is_var r; destruct r
    | |- context [if ?b then _ else _] => is_var b; destruct b
    | |- String.eqb ?x ?x = true => apply String.eqb_refl
    | _ => progress cbn [composing quiet poster claiming quiet_op poster_op negb orb
                          run trace raising perform mbind prog_mbind prog_bind
                          try_except]
    | |- context [if ?b then _ else _] => destruct b
    | |- context [match classify_error ?e with _ => _ end] =>
        destruct (classify_error e)
    end.

Lemma process_upload_claiming (ev : upload_event) :
  claiming (process_upload sha256_hex guess_type ev).
Proof.
  unfold process_upload. destruct (get_mime_type guess_type (ev_name ev)); walk.
Qed.

(** [process_upload] does nothing for a file that is not an allowed image:
    it never reaches the generator with one. *)
Lemma process_upload_skips_non_image (ev : upload_event) :
  get_mime_type guess_type (ev_name ev) = None ->
  process_upload sha256_hex guess_type ev = Ret tt.
Proof. unfold process_upload. by intros ->. Qed.

Lemma process_post_queue_poster (doc_id : string) :
  poster doc_id (process_post_queue DRY_RUN (PubsubPointer doc_id)).
Proof.
  unfold process_post_queue. destruct (str_is_empty doc_id); walk.
Qed.

Lemma role_ok_mono (owner owner' : gmap string nat) (topic topic' : list string)
    (j : nat) (p : prog unit) :
  role_ok owner topic j p ->
  (∀ doc_id, doc_id ∈ topic -> doc_id ∈ topic') ->
  (∀ doc_id, owner !! doc_id = Some j -> owner' !! doc_id = Some j) ->
  role_ok owner' topic' j p.
Proof.
  intros [Hq | [Hc | [(i & Hin & Hp) | (i & Hown & Hc)]]] Htopic Howner.
  - by left.
  - by right; left.
  - right; right; left. exists i. auto.
  - right; right; right. exists i. auto.
Qed.

(** Instance [j] runs one operation: what is left to show for the new
    world, the new owners and the rest of instance [j]. *)
Lemma system_inv_operation (ps : pool) (w w' : world) (j : nat) (p p' : prog unit)
    (owner owner' : gmap string nat) :
  ps !! j = Some p ->
  (∀ j0 p0, ps !! j0 = Some p0 -> role_ok owner (w_topic w) j0 p0) ->
  (∀ doc_id d, w_store w' !! doc_id = Some d -> lock_inv d) ->
  (∀ doc_id, doc_id ∈ w_topic w' -> is_Some (w_store w' !! doc_id)) ->
  (∀ doc_id j0, owner' !! doc_id = Some j0 ->
     (doc_id ∉ w_topic w') ∧ ∃ d, w_store w' !! doc_id = Some d ∧ composer_owned d) ->
  (∀ doc_id, doc_id ∈ w_topic w -> doc_id ∈ w_topic w') ->
  (∀ doc_id j0, j0 ≠ j -> owner !! doc_id = Some j0 -> owner' !! doc_id = Some j0) ->
  role_ok owner' (w_topic w') j p' ->
  system_inv_at (<[j := p']> ps) w'.
Proof.
  intros Hj Hroles Hlock Htopic Howner Hmono Hkeep Hrole.
  split; [exact Hlock|]. split; [exact Htopic|].
  exists owner'. split; [exact Howner|].
  intros j0 p0 Hp0.
  destruct (decide (j0 = j)) as [->|Hne].
  - rewrite list_lookup_insert_eq in Hp0 by (by eapply lookup_lt_Some).
    by injection Hp0 as <-.
  - rewrite list_lookup_insert_ne in Hp0 by done.
    eapply role_ok_mono; [by apply Hroles | exact Hmono |].
    intros i. by apply Hkeep.
Qed.

(** The same when the operation changed neither the collection nor the
    pointer topic. *)
Lemma system_inv_same_world (ps : pool) (w w' : world) (j : nat) (p p' : prog unit) :
  system_inv_at ps w ->
  ps !! j = Some p ->
  w_store w' = w_store w -> w_topic w' = w_topic w ->
  (∀ owner,
     (∀ doc_id j0, owner !! doc_id = Some j0 ->
        (doc_id ∉ w_topic w) ∧ ∃ d, w_store w !! doc_id = Some d ∧ composer_owned d) ->
     role_ok owner (w_topic w) j p -> role_ok owner (w_topic w) j p') ->
  system_inv_at (<[j := p']> ps) w'.
Proof.
  intros (Hlock & Htopic & owner0 & Howner & Hroles) Hj Hstore Htop Hrole.
  eapply (system_inv_operation ps w w' j p p' owner0 owner0); eauto;
    rewrite ?Hstore, ?Htop; auto.
Qed.

Lemma system_inv_quiet (ps : pool) (w : world) (j : nat) (o : op)
    (k : res o -> prog unit) (e : env) :
  system_inv_at ps w ->
  ps !! j = Some (Do o k) ->
  quiet (Do o k) ->
  system_inv_at (<[j := k (exec e o w).1]> ps) (exec e o w).2.
Proof.
  intros Hinv Hj [Hqo Hk]. destruct (quiet_op_world e o w Hqo) as [Hs Ht].
  eapply system_inv_same_world; eauto. intros. left. apply Hk.
Qed.

(** A Publisher instance for a published pointer writes a record that keeps
    the lock invariant. *)
Lemma system_inv_poster_write (ps : pool) (w : world) (j : nat) (p p' : prog unit)
    (doc_id : string) (d' : document) :
  system_inv_at ps w ->
  ps !! j = Some p ->
  doc_id ∈ w_topic w ->
  lock_inv d' ->
  poster doc_id p' ->
  system_inv_at (<[j := p']> ps) (with_store w (<[doc_id := d']> (w_store w))).
Proof.
  intros (Hlock & Htopic & owner & Howner & Hroles) Hj Hin Hd' Hp'.
  eapply (system_inv_operation ps w _ j p p' owner owner); eauto; simpl.
  - intros i d. destruct (decide (i = doc_id)) as [->|Hne].
    + rewrite lookup_insert_eq. by intros [= <-].
    + rewrite lookup_insert_ne by done. apply Hlock.
  - intros i Hi. destruct (decide (i = doc_id)) as [->|Hne].
    + rewrite lookup_insert_eq. eauto.
    + rewrite lookup_insert_ne by done. by apply Htopic.
  - intros i j0 Hown. destruct (Howner i j0 Hown) as [Hnotin Hrec].
    split; [done|]. rewrite lookup_insert_ne; [done|]. by intros ->.
  - right; right; left. by exists doc_id.
Qed.

Lemma system_inv_poster (ps : pool) (w : world) (j : nat) (o : op)
    (k : res o -> prog unit) (e : env) (doc_id : string) :
  system_inv_at ps w ->
  ps !! j = Some (Do o k) ->
  doc_id ∈ w_topic w ->
  poster doc_id (Do o k) ->
  system_inv_at (<[j := k (exec e o w).1]> ps) (exec e o w).2.
Proof.
  intros Hinv Hj Hin [Hop Hk].
  assert (∀ r w', w_store w' = w_store w -> w_topic w' = w_topic w ->
                  system_inv_at (<[j := k r]> ps) w') as Hsame.
  { intros r w' Hs Ht. eapply system_inv_same_world; eauto.
    intros. right; right; left. exists doc_id. split; [done | apply Hk]. }
  destruct (quiet_op o) eqn:Hq.
  { destruct (quiet_op_world e o w Hq). by apply Hsame. }
  unfold poster_op in Hop. rewrite Hq in Hop. simpl in Hop.
  destruct o; try discriminate; apply String.eqb_eq in Hop; subst doc_id0; simpl.
  - destruct (acquire_posting_lock_cases (e_tx e) (e_server_time e) (e_utcnow e)
                (e_uuid4 e) doc_id (w_store w)) as [-> | (d & Hd & _ & -> & _)].
    + by apply Hsame.
    + eapply system_inv_poster_write; eauto.
      eapply lock_inv_acquired, apply_lock_fields.
  - destruct (release_lock_success_cases (e_tx e) (e_server_time e) doc_id
                lock_token post_name (w_store w)) as [-> | (d & Hd & _ & _ & ->)].
    + by apply Hsame.
    + eapply system_inv_poster_write; eauto.
      destruct (apply_posted_fields (e_server_time e) post_name d) as (? & ? & ?).
      by eapply lock_inv_unlocked.
  - destruct (release_lock_failure_cases (e_tx e) (e_server_time e) doc_id
                lock_token reason (w_store w)) as [-> | (d & Hd & _ & _ & ->)].
    + by apply Hsame.
    + eapply system_inv_poster_write; eauto.
      destruct (apply_failed_fields (e_server_time e) reason d) as (? & ? & ?).
      by eapply lock_inv_unlocked.
Qed.

Lemma system_inv_claiming (ps : pool) (w : world) (j : nat) (o : op)
    (k : res o -> prog unit) (e : env) :
  system_inv_at ps w ->
  ps !! j = Some (Do o k) ->
  claiming (Do o k) ->
  system_inv_at (<[j := k (exec e o w).1]> ps) (exec e o w).2.
Proof.
  intros Hinv Hj Hc. destruct o; try (by destruct Hc).
  simpl in Hc. destruct Hc as [Hfalse Htrue]. simpl.
  destruct (claim_document_cases (e_tx e) (e_server_time e) doc_id bucket filename
              (w_store w)) as [-> | (d & Hnone & -> & Hs & Hl)].
  { eapply system_inv_same_world; eauto. intros. by left. }
  destruct Hinv as (Hlock & Htopic & owner & Howner & Hroles).
  assert (owner !! doc_id = None) as Hfree.
  { destruct (owner !! doc_id) as [j0|] eqn:E; [|done].
    destruct (Howner doc_id j0 E) as (_ & d0 & Hd0 & _). congruence. }
  eapply (system_inv_operation ps w _ j _ _ owner (<[doc_id := j]> owner));
    eauto; simpl.
  - intros i d0. destruct (decide (i = doc_id)) as [->|Hne].
    + rewrite lookup_insert_eq. by intros [= <-].
    + rewrite lookup_insert_ne by done. apply Hlock.
  - intros i Hi. destruct (decide (i = doc_id)) as [->|Hne].
    + rewrite lookup_insert_eq. eauto.
    + rewrite lookup_insert_ne by done. by apply Htopic.
  - intros i j0. destruct (decide (i = doc_id)) as [->|Hne].
    + intros _. split.
      * intros Hin. destruct (Htopic doc_id Hin) as [? ?]. congruence.
      * exists d. rewrite lookup_insert_eq. split; [done|]. by left.
    + rewrite !lookup_insert_ne by done. apply Howner.
  - intros i j0 Hne Hown. rewrite lookup_insert_ne; [done|]. intros ->. congruence.
  - right; right; right. exists doc_id. by rewrite lookup_insert_eq.
Qed.

Lemma composing_quiet_op (doc_id : string) (o : op) (k : res o -> prog unit) :
  quiet_op o = true -> composing doc_id (Do o k) -> ∀ r, composing doc_id (k r).
Proof. destruct o; try discriminate; intros _ [_ Hk]; exact Hk. Qed.

(** After a quiet operation an instance keeps its role. *)
Lemma role_ok_quiet_op (owner : gmap string nat) (topic : list string) (j : nat)
    (o : op) (k : res o -> prog unit) (r : res o) :
  quiet_op o = true ->
  role_ok owner topic j (Do o k) -> role_ok owner topic j (k r).
Proof.
  intros Hq [[_ Hk] | [Hc | [(i & Hin & [_ Hk]) | (i & Hown & Hc)]]].
  - left. apply Hk.
  - destruct o; try discriminate; destruct Hc.
  - right; right; left. exists i. split; [done | apply Hk].
  - right; right; right. exists i. split; [done | by apply composing_quiet_op].
Qed.

Lemma system_inv_composing (ps : pool) (w : world) (j : nat) (o : op)
    (k : res o -> prog unit) (e : env) (owner : gmap string nat) (doc_id : string) :
  (∀ i d, w_store w !! i = Some d -> lock_inv d) ->
  (∀ i, i ∈ w_topic w -> is_Some (w_store w !! i)) ->
  (∀ i j0, owner !! i = Some j0 ->
     (i ∉ w_topic w) ∧ ∃ d, w_store w !! i = Some d ∧ composer_owned d) ->
  (∀ j0 p0, ps !! j0 = Some p0 -> role_ok owner (w_topic w) j0 p0) ->
  ps !! j = Some (Do o k) ->
  owner !! doc_id = Some j ->
  composing doc_id (Do o k) ->
  system_inv_at (<[j := k (exec e o w).1]> ps) (exec e o w).2.
Proof.
  intros Hlock Htopic Howner Hroles Hj Hown Hc.
  assert (system_inv_at ps w) as Hinv.
  { split; [done|]. split; [done|]. by exists owner. }
  assert (∀ i j0, j0 ≠ j -> owner !! i = Some j0 ->
                  delete doc_id owner !! i = Some j0) as Hkeep.
  { intros i j0 Hne Hi. rewrite lookup_delete_ne; [done|]. intros ->. congruence. }
  assert (∀ i j0, delete doc_id owner !! i = Some j0 ->
                  i ≠ doc_id ∧ owner !! i = Some j0) as Hdel.
  { intros i j0. destruct (decide (i = doc_id)) as [->|Hne].
    - by rewrite lookup_delete_eq.
    - by rewrite lookup_delete_ne. }
  destruct (Howner doc_id j Hown) as (Hnotin & d & Hd & Howned).
  destruct (quiet_op o) eqn:Hquiet.
  { destruct (quiet_op_world e o w Hquiet) as [Hs Ht].
    eapply system_inv_same_world; eauto. intros owner0 _.
    by apply role_ok_quiet_op. }
  destruct o; try discriminate; simpl in Hc;
    try (destruct Hc as [Hq _]; discriminate).
  - (* update_status *)
    destruct Hc as (-> & Hupd & Hcont). simpl.
    assert (role_ok (if decide (status = "FAILED") then delete doc_id owner else owner)
              (w_topic w) j (k tt)) as Hrole.
    { destruct (decide (status = "FAILED")); [by left|].
      right; right; right. by exists doc_id. }
    destruct (update_status_cases (e_io_ok e) (e_server_time e) doc_id status
                extra_fields (w_store w)) as [-> | (d0 & Hd0 & ->)].
    + eapply (system_inv_operation ps w _ j _ _ owner
                (if decide (status = "FAILED") then delete doc_id owner else owner));
        eauto; simpl.
      * intros i j0 Hi. apply Howner with j0.
        destruct (decide (status = "FAILED")); [by apply Hdel in Hi as [_ ?] | done].
      * intros i j0 Hne Hi. destruct (decide (status = "FAILED")); auto.
    + assert (d0 = d) as -> by congruence.
      destruct (composer_update_record (e_server_time e) status extra_fields d Hupd)
        as (Hs' & Htok' & Hat').
      destruct (composer_owned_unlocked d (Hlock _ _ Hd) Howned) as [Htok Hat].
      rewrite Htok in Htok'. rewrite Hat in Hat'.
      set (d' := apply_update (e_server_time e)
                   (("status", Put (VStr status))
                      :: ("updated_at", ServerTimestamp) :: extra_fields) d) in *.
      assert (status ≠ "POSTING") as Hnp.
      { destruct Hupd as [Hin _]. intros ->.
        repeat (apply elem_of_cons in Hin as [Hin | Hin]; [discriminate|]).
        by apply elem_of_nil in Hin. }
      eapply (system_inv_operation ps w _ j _ _ owner
                (if decide (status = "FAILED") then delete doc_id owner else owner));
        eauto; simpl.
      * intros i d0. destruct (decide (i = doc_id)) as [->|Hne].
        -- rewrite lookup_insert_eq. intros [= <-]. by eapply lock_inv_unlocked.
        -- rewrite lookup_insert_ne by done. apply Hlock.
      * intros i Hi. destruct (decide (i = doc_id)) as [->|Hne].
        -- rewrite lookup_insert_eq. eauto.
        -- rewrite lookup_insert_ne by done. by apply Htopic.
      * intros i j0 Hi. destruct (decide (i = doc_id)) as [->|Hne].
        -- split; [done|]. exists d'. rewrite lookup_insert_eq. split; [done|].
           destruct (decide (status = "FAILED")) as [->|Hnf].
           ++ by apply Hdel in Hi as [? _].
           ++ destruct Hupd as [Hin _]. unfold composer_owned, has_status.
              rewrite (py_get_lookup _ _ _ Hs').
              repeat (apply elem_of_cons in Hin as [-> | Hin]); auto.
              ** congruence.
              ** by apply elem_of_nil in Hin.
        -- rewrite lookup_insert_ne by done. apply Howner with j0.
           destruct (decide (status = "FAILED")); [by apply Hdel in Hi as [_ ?] | done].
      * intros i j0 Hne Hi. destruct (decide (status = "FAILED")); auto.
  - (* publish *)
    destruct Hc as (-> & Hq & Hraise). simpl.
    destruct (e_io_ok e); simpl.
    + eapply (system_inv_operation ps w _ j _ _ owner (delete doc_id owner));
        eauto; simpl.
      * intros i Hi. apply elem_of_app in Hi as [Hi | Hi]; [by apply Htopic|].
        apply list_elem_of_singleton in Hi as ->. eauto.
      * intros i j0 Hi. apply Hdel in Hi as [Hne Hi].
        destruct (Howner i j0 Hi) as [Hni Hrec]. split; [|done].
        rewrite elem_of_app, list_elem_of_singleton. intros [?|?]; done.
      * intros i Hi. apply elem_of_app. by left.
      * by left.
    + eapply (system_inv_operation ps w _ j _ _ owner owner); eauto.
      right; right; right. exists doc_id. split; [done | apply Hraise].
Qed.

(** A new instance joins the pool. *)
Lemma system_inv_spawn (ps : pool) (w : world) (p : prog unit) :
  system_inv_at ps w ->
  (∀ owner, role_ok owner (w_topic w) (length ps) p) ->
  system_inv_at (ps ++ [p]) w.
Proof.
  intros (Hlock & Htopic & owner & Howner & Hroles) Hp.
  split; [done|]. split; [done|]. exists owner. split; [done|].
  intros j p0 Hj. apply lookup_app_Some in Hj as [Hj | [Hlen Hj]]; [by apply Hroles|].
  apply list_lookup_singleton_Some in Hj as [Hz <-].
  assert (j = length ps) as -> by lia. apply Hp.
Qed.

Lemma system_inv_initial : system_inv initial.
Proof.
  split; [|split].
  - intros i d. simpl. by rewrite lookup_empty.
  - intros i Hi. simpl in Hi. by apply elem_of_nil in Hi.
  - exists ∅. split.
    + intros i j. by rewrite lookup_empty.
    + intros j p. simpl. by rewrite lookup_nil.
Qed.

Lemma system_inv_step (s s' : pool * world) :
  system_inv s -> step_ s s' -> system_inv s'.
Proof.
  intros Hinv Hstep. destruct Hstep as [ev ps w | doc_id ps w Hin | e j o k ps w Hj];
    unfold system_inv in *; simpl in *.
  - apply system_inv_spawn; [done|]. intros owner. right; left.
    apply process_upload_claiming.
  - apply system_inv_spawn; [done|]. intros owner. right; right; left.
    exists doc_id. split; [done | apply process_post_queue_poster].
  - pose proof Hinv as (Hlock & Htopic & owner & Howner & Hroles).
    destruct (Hroles j _ Hj) as [Hq | [Hc | [(i & Hi & Hp) | (i & Hown & Hc)]]].
    + by apply system_inv_quiet.
    + by apply system_inv_claiming.
    + by eapply system_inv_poster.
    + by eapply system_inv_composing.
Qed.

(** Every reachable state satisfies the invariant. *)
Lemma reachable_system_inv (s : pool * world) : reachable_ s -> system_inv s.
Proof.
  unfold reachable. intros Hreach.
  eapply (rtc_ind_r (λ s, system_inv s)); [apply system_inv_initial | | exact Hreach].
  intros y z _ Hstep Hy. by eapply system_inv_step.
Qed.

(** The scheduler functions take steps of the system. *)
Lemma reachable_run_operation (e : env) (j : nat) (s : pool * world) :
  reachable_ s -> reachable_ (run_operation guess_type PROJECT_ID LOCATION_ID e j s).
Proof.
  unfold reachable, run_operation. intros Hs. destruct s as [ps w]. simpl.
  destruct (ps !! j) as [[r|x|o k]|] eqn:Hj; try done.
  eapply rtc_r; [exact Hs|]. by apply step_operation.
Qed.

Lemma reachable_iter_run_operation (e : env) (j n : nat) (s : pool * world) :
  reachable_ s ->
  reachable_ (Nat.iter n (run_operation guess_type PROJECT_ID LOCATION_ID e j) s).
Proof.
  intros Hs. induction n as [|n IH]; [done|]. simpl. by apply reachable_run_operation.
Qed.

Lemma reachable_deliver_upload (ev : upload_event) (s : pool * world) :
  reachable_ s -> reachable_ (deliver_upload sha256_hex guess_type ev s).
Proof.
  unfold reachable, deliver_upload. intros Hs. destruct s as [ps w].
  eapply rtc_r; [exact Hs|]. apply step_upload_delivery.
Qed.

Lemma reachable_deliver_pointer (doc_id : string) (s : pool * world) :
  reachable_ s -> doc_id ∈ w_topic s.2 ->
  reachable_ (deliver_pointer DRY_RUN doc_id s).
Proof.
  unfold reachable, deliver_pointer. intros Hs Hin. destruct s as [ps w].
  eapply rtc_r; [exact Hs|]. by apply step_pointer_delivery.
Qed.

(** ** C5: the lock fields and the status *)

(** C5. In every state the system reaches through claims, the Composer's
    status updates, acquires and releases, each record has a [lock_token]
    exactly when its status is POSTING, and likewise a [locked_at]; an
    acquire that writes sets status POSTING and both fields together, and a
    release that writes sets a terminal status and deletes both. *)
Theorem lock_token_iff_posting :
  (∀ (s : pool * world) (doc_id : string) (d : document),
     reachable_ s -> w_store s.2 !! doc_id = Some d ->
     (is_Some (d !! "lock_token") <-> has_status d "POSTING") ∧
     (is_Some (d !! "locked_at") <-> has_status d "POSTING")) ∧
  (∀ fault server_time lock_token now doc_id st,
     let st' := (acquire_posting_lock fault server_time lock_token now doc_id st).2 in
     st' = st ∨
     ∃ d d', st !! doc_id = Some d ∧ st' = <[doc_id := d']> st ∧
             acquired_by d d' lock_token now) ∧
  (∀ fault server_time doc_id lock_token text st,
     let released st' :=
       st' = st ∨
       ∃ d d', st !! doc_id = Some d ∧ st' = <[doc_id := d']> st ∧
               terminal d' ∧ d' !! "lock_token" = None ∧ d' !! "locked_at" = None in
     released (release_lock_success fault server_time doc_id lock_token text st).2 ∧
     released (release_lock_failure fault server_time doc_id lock_token text st).2).
Proof.
  split; [|split].
  - intros s doc_id d Hreach Hd.
    destruct (reachable_system_inv s Hreach) as (Hlock & _). exact (Hlock doc_id d Hd).
  - intros fault server_time lock_token now doc_id st st'. subst st'.
    destruct (acquire_posting_lock_cases fault server_time now lock_token doc_id st)
      as [-> | (d & Hd & _ & -> & _)]; [by left|].
    right. eexists d, _. split; [done|]. split; [done|]. apply apply_lock_fields.
  - intros fault server_time doc_id lock_token text st released. subst released.
    split.
    + destruct (release_lock_success_cases fault server_time doc_id lock_token text st)
        as [-> | (d & Hd & _ & _ & ->)]; [by left|].
      right. eexists d, _. split; [done|]. split; [done|].
      destruct (apply_posted_fields server_time text d) as (Hs & Htok & Hat).
      split; [|done]. left. by apply py_get_lookup.
    + destruct (release_lock_failure_cases fault server_time doc_id lock_token text st)
        as [-> | (d & Hd & _ & _ & ->)]; [by left|].
      right. eexists d, _. split; [done|]. split; [done|].
      destruct (apply_failed_fields server_time text d) as (Hs & Htok & Hat).
      split; [|done]. right. by apply py_get_lookup.
Qed.

(** ** C4: terminal records *)

(** On a terminal record the lock cannot be taken. *)
Lemma acquire_posting_lock_terminal (fault : tx_fault) (server_time now : Z)
    (lock_token doc_id : string) (st : store) (d : document) :
  st !! doc_id = Some d -> terminal d ->
  acquire_posting_lock fault server_time lock_token now doc_id st = (None, st).
Proof.
  intros Hd Ht.
  destruct (acquire_posting_lock_cases fault server_time now lock_token doc_id st)
    as [-> | (d0 & Hd0 & _ & _ & Hcond)]; [done|].
  assert (d0 = d) as -> by congruence.
  unfold terminal, has_status in *. destruct Ht, Hcond as [?|[? _]]; congruence.
Qed.

Lemma acquire_posting_lock_terminal_or_other (e : env) (i doc_id : string)
    (st : store) (d : document) :
  st !! doc_id = Some d -> terminal d ->
  (acquire_posting_lock (e_tx e) (e_server_time e) (e_uuid4 e) (e_utcnow e) i st).2
    !! doc_id = Some d.
Proof.
  intros Hd Ht.
  destruct (acquire_posting_lock_cases (e_tx e) (e_server_time e) (e_utcnow e)
              (e_uuid4 e) i st) as [-> | (d0 & Hd0 & _ & -> & Hcond)]; [done|].
  simpl. rewrite lookup_insert_ne; [done|]. intros ->.
  assert (d0 = d) as -> by congruence.
  unfold terminal, has_status in *. destruct Ht, Hcond as [?|[? _]]; congruence.
Qed.

(** One step of the system leaves a terminal record as it is. *)
Lemma terminal_record_step (s s' : pool * world) (doc_id : string) (d : document) :
  system_inv s -> w_store s.2 !! doc_id = Some d -> terminal d ->
  step_ s s' -> w_store s'.2 !! doc_id = Some d.
Proof.
  intros Hinv Hd Hterm Hstep.
  destruct Hstep as [ev ps w | i ps w Hin | e j o k ps w Hj]; simpl in *; try done.
  destruct Hinv as (Hlock & Htopic & owner & Howner & Hroles). simpl in *.
  destruct (quiet_op o) eqn:Hquiet.
  { destruct (quiet_op_world e o w Hquiet) as [-> _]. done. }
  destruct o; try discriminate; simpl.
  - destruct (claim_document_cases (e_tx e) (e_server_time e) doc_id0 bucket filename
                (w_store w)) as [-> | (d0 & Hnone & -> & _)]; [done|].
    simpl. rewrite lookup_insert_ne; [done|]. intros ->. congruence.
  - destruct (update_status_cases (e_io_ok e) (e_server_time e) doc_id0 status
                extra_fields (w_store w)) as [-> | (d0 & Hd0 & ->)]; [done|].
    destruct (decide (doc_id0 = doc_id)) as [->|Hne];
      [|by rewrite lookup_insert_ne].
    exfalso.
    destruct (Hroles j _ Hj) as [[Hq _] | [Hc | [(i & _ & [Hp _]) | (i & Hown & Hc)]]];
      try discriminate; try done.
    destruct Hc as (Heq & _). subst i.
    destruct (Howner doc_id j Hown) as (_ & d1 & Hd1 & Howned).
    assert (d1 = d) as -> by congruence.
    by apply (terminal_not_owned d).
  - by destruct (e_io_ok e).
  - pose proof (acquire_posting_lock_terminal_or_other e doc_id0 doc_id (w_store w)
                  d Hd Hterm) as Hacq.
    by destruct (acquire_posting_lock _ _ _ _ _ _).
  - destruct (release_lock_success_cases (e_tx e) (e_server_time e) doc_id0
                lock_token post_name (w_store w)) as [-> | (d0 & Hd0 & _ & Htok & ->)];
      [done|].
    simpl. rewrite lookup_insert_ne; [done|]. intros ->.
    assert (d0 = d) as -> by congruence.
    rewrite (py_get_missing _ _ (terminal_unlocked d (Hlock _ _ Hd) Hterm)) in Htok.
    discriminate.
  - destruct (release_lock_failure_cases (e_tx e) (e_server_time e) doc_id0
                lock_token reason (w_store w)) as [-> | (d0 & Hd0 & _ & Htok & ->)];
      [done|].
    simpl. rewrite lookup_insert_ne; [done|]. intros ->.
    assert (d0 = d) as -> by congruence.
    rewrite (py_get_missing _ _ (terminal_unlocked d (Hlock _ _ Hd) Hterm)) in Htok.
    discriminate.
Qed.

(** C4. Once a reachable record is POSTED or FAILED it stores no lock token,
    and nothing the two stages do changes it: every state the system reaches
    afterwards holds the same record, [acquire_posting_lock] on it returns
    [None] and writes nothing, and both releases return [false] and write
    nothing, whatever token they present. *)
Theorem terminal_records_are_immutable (s : pool * world) (doc_id : string)
    (d : document) :
  reachable_ s ->
  w_store s.2 !! doc_id = Some d ->
  terminal d ->
  d !! "lock_token" = None ∧
  (∀ s', rtc step_ s s' -> w_store s'.2 !! doc_id = Some d) ∧
  (∀ fault server_time lock_token now,
     acquire_posting_lock fault server_time lock_token now doc_id (w_store s.2)
       = (None, w_store s.2)) ∧
  (∀ fault server_time lock_token text,
     release_lock_success fault server_time doc_id lock_token text (w_store s.2)
       = (false, w_store s.2) ∧
     release_lock_failure fault server_time doc_id lock_token text (w_store s.2)
       = (false, w_store s.2)).
Proof.
  intros Hreach Hd Hterm.
  pose proof (reachable_system_inv s Hreach) as Hinv.
  assert (d !! "lock_token" = None) as Hcleared.
  { destruct Hinv as (Hlock & _). by eapply terminal_unlocked; [eapply Hlock|]. }
  split; [done|]. split; [|split].
  - intros s' Hsteps.
    assert (reachable_ s' ∧ w_store s'.2 !! doc_id = Some d) as [_ ?]; [|done].
    eapply (rtc_ind_r (λ s', reachable_ s' ∧ w_store s'.2 !! doc_id = Some d));
      [by split | | exact Hsteps].
    intros y z _ Hstep [Hy Hdy]. split.
    + unfold reachable in *. by eapply rtc_r.
    + apply (terminal_record_step y z doc_id d);
        [by apply reachable_system_inv | done | done | done].
  - intros. by eapply acquire_posting_lock_terminal.
  - intros fault server_time lock_token text.
    apply release_mismatch. intros d0 Hd0.
    assert (d0 = d) as -> by congruence.
    by rewrite (py_get_missing _ _ Hcleared).
Qed.

End System.

(** * Further properties of the two functions *)

(** ** Strings *)

Lemma py_lower_char_idempotent (a : ascii) :
  py_lower_char (py_lower_char a) = py_lower_char a.
Proof. destruct a as [[] [] [] [] [] [] [] []]; reflexivity. Qed.

Lemma py_lower_idempotent (s : string) : py_lower (py_lower s) = py_lower s.
Proof.
  induction s as [|a t IH]; [reflexivity|]. simpl.
  by rewrite py_lower_char_idempotent, IH.
Qed.

Lemma py_isspace_lower (a : ascii) : py_isspace (py_lower_char a) = py_isspace a.
Proof. destruct a as [[] [] [] [] [] [] [] []]; reflexivity. Qed.

Lemma string_app_nil (b : string) : EmptyString ++ b = b.
Proof. reflexivity. Qed.

Lemma string_app_cons (x : ascii) (a b : string) :
  String x a ++ b = String x (a ++ b).
Proof. reflexivity. Qed.

Lemma string_app_nil_r (a : string) : a ++ EmptyString = a.
Proof.
  induction a as [|x a IH]; [reflexivity|]. by rewrite string_app_cons, IH.
Qed.

Lemma string_app_assoc (a b c : string) : (a ++ b) ++ c = a ++ (b ++ c).
Proof.
  induction a as [|x a IH]; [reflexivity|]. by rewrite !string_app_cons, IH.
Qed.

Lemma py_in_colon_app (a b : string) : py_in ":" (a ++ ":" ++ b) = true.
Proof.
  induction a as [|x a IH]; [reflexivity|].
  rewrite string_app_cons. simpl. rewrite IH. apply orb_true_r.
Qed.

Lemma py_in_colon_cons (x : ascii) (s : string) :
  py_in ":" (String x s) = false -> x ≠ ":"%char ∧ py_in ":" s = false.
Proof.
  simpl. intros H. apply orb_false_elim in H as [H1 H2]. split; [|done].
  intros ->. discriminate.
Qed.

(** A text without colon, then a colon: both parts are determined. *)
Lemma colon_split_first (a a' r r' : string) :
  py_in ":" a = false -> py_in ":" a' = false ->
  a ++ ":" ++ r = a' ++ ":" ++ r' -> a = a' ∧ r = r'.
Proof.
  revert a'. induction a as [|x a IH]; intros [|x' a'] Ha Ha' Heq;
    rewrite ?string_app_cons, ?string_app_nil in Heq.
  - by injection Heq.
  - injection Heq as <- _. by apply py_in_colon_cons in Ha' as [? _].
  - injection Heq as -> _. by apply py_in_colon_cons in Ha as [? _].
  - injection Heq as -> Heq.
    apply py_in_colon_cons in Ha as [_ Ha]. apply py_in_colon_cons in Ha' as [_ Ha'].
    destruct (IH a' Ha Ha' Heq) as [-> ->]. done.
Qed.

(** A colon, then a text without colon: both parts are determined. *)
Lemma colon_split_last (n n' g g' : string) :
  py_in ":" g = false -> py_in ":" g' = false ->
  n ++ ":" ++ g = n' ++ ":" ++ g' -> n = n' ∧ g = g'.
Proof.
  revert n'. induction n as [|x n IH]; intros [|x' n'] Hg Hg' Heq;
    rewrite ?string_app_cons, ?string_app_nil in Heq.
  - by injection Heq.
  - injection Heq as _ ->. pose proof (py_in_colon_app n' g') as H.
    rewrite string_app_cons, string_app_nil in H. congruence.
  - injection Heq as _ <-. pose proof (py_in_colon_app n g) as H.
    rewrite string_app_cons, string_app_nil in H. congruence.
  - injection Heq as -> Heq. destruct (IH n' Hg Hg' Heq) as [-> ->]. done.
Qed.

(** ** [make_doc_id] *)

(** X1. [make_doc_id] hashes [bucket:name:generation]; when the bucket and
    the generation hold no colon, that text determines the three of them,
    whatever the object name is. *)
Theorem make_doc_id_raw_unambiguous (sha256_hex : string -> string)
    (bucket name generation bucket' name' generation' : string) :
  make_doc_id sha256_hex bucket name generation
    = sha256_hex (doc_id_raw bucket name generation) ∧
  (py_in ":" bucket = false -> py_in ":" bucket' = false ->
   py_in ":" generation = false -> py_in ":" generation' = false ->
   doc_id_raw bucket name generation = doc_id_raw bucket' name' generation' ->
   bucket = bucket' ∧ name = name' ∧ generation = generation').
Proof.
  split; [reflexivity|]. unfold doc_id_raw. intros Hb Hb' Hg Hg' Heq.
  destruct (colon_split_first _ _ _ _ Hb Hb' Heq) as [-> Hrest].
  destruct (colon_split_last _ _ _ _ Hg Hg' Hrest) as [-> ->]. done.
Qed.

(** X2. Without that restriction two different uploads get the same id: a
    colon in the bucket or in the name can be read on either side. *)
Theorem make_doc_id_colon_collision (sha256_hex : string -> string)
    (a b c generation : string) :
  make_doc_id sha256_hex (a ++ ":" ++ b) c generation
    = make_doc_id sha256_hex a (b ++ ":" ++ c) generation ∧
  a ++ ":" ++ b ≠ a.
Proof.
  split.
  - unfold make_doc_id. by rewrite !string_app_assoc.
  - intros Heq. assert (String.length (a ++ ":" ++ b) = String.length a) as Hlen
      by (by rewrite Heq).
    clear Heq. induction a as [|x a IH]; [discriminate|].
    rewrite string_app_cons in Hlen. apply IH. by injection Hlen.
Qed.

(** ** [get_mime_type] *)

(** X3. [get_mime_type] only ever returns one of the allowed image types,
    and the letter case of the file name does not matter. *)
Theorem get_mime_type_allowed (guess_type : string -> option string)
    (filename : string) :
  (∀ mime_type, get_mime_type guess_type filename = Some mime_type ->
                mime_type ∈ ALLOWED_MIME_TYPES ∧
                guess_type (py_lower filename) = Some mime_type) ∧
  get_mime_type guess_type (py_lower filename) = get_mime_type guess_type filename.
Proof.
  split.
  - unfold get_mime_type. intros m.
    destruct (guess_type (py_lower filename)) as [m'|]; [|discriminate].
    destruct (str_is_empty m'); simpl; [discriminate|].
    case_bool_decide; [|discriminate]. by intros [= <-].
  - unfold get_mime_type. by rewrite py_lower_idempotent.
Qed.

(** ** [sentinel_check] *)

Lemma py_startswith_app (pre rest : string) : py_startswith pre (pre ++ rest) = true.
Proof.
  induction pre as [|a p IH]; [reflexivity|].
  rewrite string_app_cons. simpl. by rewrite Ascii.eqb_refl.
Qed.

Lemma py_startswith_split (pre s : string) :
  py_startswith pre s = true -> ∃ rest, s = pre ++ rest.
Proof.
  revert s. induction pre as [|a p IH]; intros s H.
  - by exists s.
  - destruct s as [|b t]; [discriminate|]. simpl in H.
    destruct (Ascii.eqb_spec a b) as [->|]; [|discriminate].
    destruct (IH t H) as [rest ->]. by exists rest.
Qed.

Lemma py_in_split (needle s : string) :
  py_in needle s = true ->
  ∃ before rest, s = before ++ rest ∧ py_startswith needle rest = true.
Proof.
  induction s as [|a t IH]; simpl; intros H.
  - exists EmptyString, EmptyString. split; [reflexivity|].
    by rewrite orb_false_r in H.
  - apply orb_true_iff in H as [H|H].
    + by exists EmptyString, (String a t).
    + destruct (IH H) as (before & rest & -> & Hrest).
      by exists (String a before), rest.
Qed.

Lemma py_in_app (needle before rest : string) :
  py_startswith needle rest = true -> py_in needle (before ++ rest) = true.
Proof.
  intros H. induction before as [|a b IH].
  - rewrite string_app_nil. destruct rest; simpl; by rewrite H.
  - rewrite string_app_cons. simpl. rewrite IH. apply orb_true_r.
Qed.

Lemma py_in_nonempty (needle s : string) :
  str_is_empty needle = false -> py_in needle s = true -> str_is_empty s = false.
Proof. destruct needle, s; done. Qed.

(** *** Stripping and lowering *)

Lemma str_is_empty_lower (s : string) : str_is_empty (py_lower s) = str_is_empty s.
Proof. by destruct s. Qed.

Lemma py_lstrip_lower (s : string) : py_lstrip (py_lower s) = py_lower (py_lstrip s).
Proof.
  induction s as [|a t IH]; [reflexivity|]. simpl.
  rewrite py_isspace_lower. by destruct (py_isspace a).
Qed.

Lemma py_rstrip_lower (s : string) : py_rstrip (py_lower s) = py_lower (py_rstrip s).
Proof.
  induction s as [|a t IH]; [reflexivity|]. simpl.
  rewrite py_isspace_lower, IH, str_is_empty_lower.
  by destruct (str_is_empty (py_rstrip t) && py_isspace a).
Qed.

Lemma py_strip_lower (s : string) : py_strip (py_lower s) = py_lower (py_strip s).
Proof. unfold py_strip. by rewrite py_lstrip_lower, py_rstrip_lower. Qed.

Lemma py_startswith_lower (pre s : string) :
  py_startswith pre s = true -> py_startswith (py_lower pre) (py_lower s) = true.
Proof.
  revert s. induction pre as [|a p IH]; intros [|b t]; simpl; try done.
  destruct (Ascii.eqb_spec a b) as [->|]; [|discriminate].
  rewrite Ascii.eqb_refl. apply IH.
Qed.

Lemma py_lower_app (a b : string) : py_lower (a ++ b) = py_lower a ++ py_lower b.
Proof.
  induction a as [|x a IH]; [reflexivity|].
  rewrite string_app_cons. simpl. by rewrite IH.
Qed.

(** A text that begins and ends with a character that is not white space is
    found in the stripped string wherever it is found in the string. *)
Lemma py_in_lstrip (needle s : string) (c : ascii) (k : string) :
  needle = String c k -> py_isspace c = false ->
  py_in needle s = true -> py_in needle (py_lstrip s) = true.
Proof.
  intros -> Hc. induction s as [|a t IH]; [done|].
  intros H. simpl py_lstrip. destruct (py_isspace a) eqn:Ha; [|exact H].
  apply IH. simpl in H. destruct (Ascii.eqb_spec c a) as [->|]; [congruence|].
  exact H.
Qed.

Lemma py_startswith_rstrip (needle s : string) :
  str_is_empty needle = false -> py_rstrip needle = needle ->
  py_startswith needle s = true -> py_startswith needle (py_rstrip s) = true.
Proof.
  revert s. induction needle as [|c k IH]; [done|]. intros [|a t] _ Hkeep H; [done|].
  simpl in H. destruct (Ascii.eqb_spec c a) as [<-|]; [|discriminate].
  simpl in Hkeep.
  destruct (str_is_empty (py_rstrip k) && py_isspace c) eqn:Hend; [discriminate|].
  injection Hkeep as Hkeep. rewrite Hkeep in Hend.
  destruct k as [|c' k'].
  - simpl in Hend. simpl. rewrite Hend, andb_false_r. simpl. by rewrite Ascii.eqb_refl.
  - specialize (IH t eq_refl Hkeep H). simpl py_rstrip.
    destruct (py_rstrip t) as [|a' t'] eqn:Ht; [discriminate|].
    simpl. by rewrite Ascii.eqb_refl.
Qed.

Lemma py_in_rstrip (needle s : string) :
  str_is_empty needle = false -> py_rstrip needle = needle ->
  py_in needle s = true -> py_in needle (py_rstrip s) = true.
Proof.
  intros Hne Hkeep. induction s as [|a t IH]; [done|]. intros H.
  destruct (py_startswith needle (String a t)) eqn:Hstart.
  - apply (py_startswith_rstrip _ _ Hne Hkeep) in Hstart.
    destruct (py_rstrip (String a t)); simpl; by rewrite Hstart.
  - simpl in H. simpl in Hstart. rewrite Hstart in H. simpl in H.
    specialize (IH H). pose proof (py_in_nonempty _ _ Hne IH) as Ht.
    simpl py_rstrip. rewrite Ht. simpl. rewrite IH. apply orb_true_r.
Qed.

Lemma py_in_strip (needle s : string) (c : ascii) (k : string) :
  needle = String c k -> py_isspace c = false -> py_rstrip needle = needle ->
  py_in needle s = true -> py_in needle (py_strip s) = true.
Proof.
  intros Hneedle Hc Hkeep H. unfold py_strip. apply py_in_rstrip; [by subst|done|].
  by apply (py_in_lstrip needle s c k).
Qed.

(** Conversely what is found in the stripped string stands in the string. *)
Lemma py_startswith_rstrip_inv (needle s : string) :
  py_startswith needle (py_rstrip s) = true -> py_startswith needle s = true.
Proof.
  revert s. induction needle as [|c k IH]; [done|]. intros [|a t]; [done|].
  simpl py_rstrip. destruct (str_is_empty (py_rstrip t) && py_isspace a); [done|].
  simpl. destruct (Ascii.eqb c a); [apply IH|done].
Qed.

Lemma py_in_rstrip_inv (needle s : string) :
  str_is_empty needle = false ->
  py_in needle (py_rstrip s) = true -> py_in needle s = true.
Proof.
  intros Hne. induction s as [|a t IH]; [done|].
  simpl py_rstrip. destruct (str_is_empty (py_rstrip t) && py_isspace a) eqn:Hend.
  - destruct needle; done.
  - intros H. change (py_in needle (String a (py_rstrip t)))
      with (py_startswith needle (String a (py_rstrip t)) || py_in needle (py_rstrip t)) in H.
    change (py_in needle (String a t))
      with (py_startswith needle (String a t) || py_in needle t).
    apply orb_true_iff in H as [H|H].
    + apply orb_true_iff. left. apply py_startswith_rstrip_inv.
      simpl py_rstrip. by rewrite Hend.
    + apply orb_true_iff. right. by apply IH.
Qed.

Lemma py_in_lstrip_inv (needle s : string) :
  str_is_empty needle = false ->
  py_in needle (py_lstrip s) = true -> py_in needle s = true.
Proof.
  intros Hne. induction s as [|a t IH]; [done|]. simpl py_lstrip.
  destruct (py_isspace a); [|done]. intros H.
  change (py_in needle (String a t))
    with (py_startswith needle (String a t) || py_in needle t).
  rewrite (IH H). apply orb_true_r.
Qed.

Lemma py_in_strip_inv (needle s : string) :
  str_is_empty needle = false ->
  py_in needle (py_strip s) = true -> py_in needle s = true.
Proof.
  intros Hne H. apply py_in_lstrip_inv; [done|]. by apply py_in_rstrip_inv.
Qed.

(** *** The matcher *)

Lemma re_match_lit (kw s : string) :
  py_startswith kw s = true -> re_match (re_lit kw) s = Some (String.length kw).
Proof.
  revert s. induction kw as [|c k IH]; intros s H; [reflexivity|].
  destruct s as [|a t]; [discriminate|]. simpl in H. simpl.
  rewrite Ascii.eqb_sym. destruct (Ascii.eqb c a); [|discriminate].
  by rewrite (IH t H).
Qed.

Lemma re_match_alts_elem (alts : list (list re_atom)) (alt : list re_atom) (s : string) :
  alt ∈ alts -> is_Some (re_match alt s) -> is_Some (re_match_alts alts s).
Proof.
  intros Hin Hmatch. induction Hin as [alt rest|alt other rest _ IH]; simpl.
  - destruct Hmatch as [n ->]. by exists n.
  - destruct (re_match other s); [by eexists|by apply IH].
Qed.

Lemma re_search_app (alts : list (list re_atom)) (before rest : string) :
  is_Some (re_match_alts alts rest) -> is_Some (re_search alts (before ++ rest)).
Proof.
  intros [n Hn]. induction before as [|a b IH].
  - rewrite string_app_nil. destruct rest; simpl; rewrite Hn; by eexists.
  - rewrite string_app_cons. simpl.
    destruct (re_match_alts alts (String a (b ++ rest))); [by eexists|exact IH].
Qed.

Lemma re_search_finds (alts : list (list re_atom)) (alt : list re_atom)
    (marker s : string) :
  alt ∈ alts -> (∀ rest, py_startswith marker rest = true -> is_Some (re_match alt rest)) ->
  py_in marker s = true -> is_Some (re_search alts s).
Proof.
  intros Hin Halt H. destruct (py_in_split _ _ H) as (before & rest & -> & Hrest).
  apply re_search_app. apply (re_match_alts_elem alts alt); [done|]. by apply Halt.
Qed.

Lemma re_greedy_total (k : string -> option nat) (cls : ascii -> bool) (s : string) :
  (∀ r, is_Some (k r)) -> is_Some (re_greedy k cls s).
Proof.
  intros Hk. induction s as [|a t IH]; simpl; [apply Hk|].
  destruct (cls a); [|apply Hk]. destruct IH as [n ->]. by eexists.
Qed.

Lemma py_isdigit_not_space (d : ascii) : py_isdigit d = true -> py_isspace d = false.
Proof. destruct d as [[] [] [] [] [] [] [] []]; done. Qed.

Lemma py_isdigit_lower (d : ascii) : py_isdigit d = true -> py_lower_char d = d.
Proof. destruct d as [[] [] [] [] [] [] [] []]; done. Qed.

Lemma dollar_digit_matches (d : ascii) (rest : string) :
  py_isdigit d = true ->
  py_startswith (String "$" (String d EmptyString)) rest = true ->
  is_Some (re_match [RChar "$"; RStar py_isspace; RPlus py_isdigit] rest).
Proof.
  intros Hd H. apply py_startswith_split in H as [t ->].
  rewrite !string_app_cons, string_app_nil.
  cbn [re_match]. rewrite Ascii.eqb_refl. cbn [re_greedy].
  rewrite (py_isdigit_not_space d Hd). rewrite Hd.
  destruct (re_greedy_total (λ _, Some 0%nat) py_isdigit t) as [n ->]; [by eexists|].
  by eexists.
Qed.

Lemma digit_percent_matches (d : ascii) (rest : string) :
  py_isdigit d = true ->
  py_startswith (String d (String "%" EmptyString)) rest = true ->
  is_Some (re_match [RPlus py_isdigit; RStar py_isspace; RChar "%"] rest).
Proof.
  intros Hd H. apply py_startswith_split in H as [t ->].
  rewrite !string_app_cons, string_app_nil.
  cbn [re_match]. rewrite Hd. cbn [re_greedy].
  change (py_isdigit "%") with false. change (py_isspace "%") with false.
  cbn. by eexists.
Qed.

(** The pattern finds every marker of price language. *)
Lemma price_pattern_finds (marker s : string) :
  price_marker marker -> py_in marker s = true ->
  is_Some (re_search price_pattern s).
Proof.
  intros [Hkw|(d & Hd & [->| ->])] H.
  - apply (re_search_finds price_pattern (re_lit marker) marker s); [|by intros; rewrite re_match_lit|done].
    unfold PRICE_KEYWORDS in Hkw. unfold price_pattern.
    repeat (apply elem_of_cons in Hkw as [->|Hkw];
            [apply list_elem_of_In; simpl; auto 10|]).
    by apply elem_of_nil in Hkw.
  - apply (re_search_finds price_pattern [RChar "$"; RStar py_isspace; RPlus py_isdigit]
             (String "$" (String d EmptyString)) s);
      [|intros rest; by apply dollar_digit_matches|done].
    apply list_elem_of_here.
  - apply (re_search_finds price_pattern [RPlus py_isdigit; RStar py_isspace; RChar "%"]
             (String d (String "%" EmptyString)) s);
      [|intros rest; by apply digit_percent_matches|done].
    apply list_elem_of_further, list_elem_of_here.
Qed.

(** A marker is unchanged by lowering and by stripping, and starts with a
    character that is not white space. *)
Lemma price_marker_shape (marker : string) :
  price_marker marker ->
  py_lower marker = marker ∧ py_rstrip marker = marker ∧
  ∃ c k, marker = String c k ∧ py_isspace c = false.
Proof.
  intros [Hkw|(d & Hd & [->| ->])].
  - unfold PRICE_KEYWORDS in Hkw.
    repeat (apply elem_of_cons in Hkw as [->|Hkw];
            [split; [reflexivity|]; split; [reflexivity|]; by eexists _, _|]).
    by apply elem_of_nil in Hkw.
  - simpl. rewrite (py_isdigit_lower d Hd), (py_isdigit_not_space d Hd).
    split; [reflexivity|]. split; [reflexivity|]. by eexists _, _.
  - simpl. rewrite (py_isdigit_lower d Hd).
    split; [reflexivity|]. split; [reflexivity|].
    eexists _, _. split; [reflexivity|]. by apply py_isdigit_not_space.
Qed.

Lemma py_in_lower (needle s : string) :
  py_in needle s = true -> py_in (py_lower needle) (py_lower s) = true.
Proof.
  intros H. destruct (py_in_split _ _ H) as (before & rest & -> & Hrest).
  rewrite py_lower_app. apply py_in_app. by apply py_startswith_lower.
Qed.

(** X4. A caption that holds price language is never approved, in whatever
    letter case it is written and whatever the candidate reports about
    itself: a keyword of the pattern, a dollar sign before a digit, a digit
    before a percent sign. *)
Theorem sentinel_check_rejects_price_language (members : list (string * json))
    (caption marker : string) :
  dict_get members "caption" = Some (JStr caption) ->
  price_marker marker ->
  py_in marker (py_lower caption) = true ->
  ∃ reason, sentinel_check (JObject members) = Ok (false, reason).
Proof.
  intros Hcaption Hmarker Hin.
  destruct (price_marker_shape marker Hmarker) as (Hlow & Hkeep & c & k & Hshape & Hc).
  assert (is_Some (re_search price_pattern (py_lower (py_strip caption)))) as [m Hm].
  { apply (price_pattern_finds marker); [done|].
    rewrite <- py_strip_lower. by apply (py_in_strip marker _ c k). }
  unfold sentinel_check. rewrite Hcaption. simpl. rewrite Hm.
  destruct (str_is_empty _); [by eexists|].
  destruct (json_truthy _); [by eexists|].
  destruct (_ <? _)%nat; [by eexists|].
  destruct (_ <? _)%nat; by eexists.
Qed.

Lemma price_language_found (caption marker : string) :
  price_marker marker -> py_in marker (py_lower caption) = true ->
  is_Some (re_search price_pattern (py_lower (py_strip caption))).
Proof.
  intros Hmarker Hin.
  destruct (price_marker_shape marker Hmarker) as (Hlow & Hkeep & c & k & Hshape & Hc).
  apply (price_pattern_finds marker); [done|].
  rewrite <- py_strip_lower. by apply (py_in_strip marker _ c k).
Qed.

Lemma sentinel_check_approved_iff (members : list (string * json)) (reason : string) :
  sentinel_check (JObject members) = Ok (true, reason) <->
  reason = "APPROVED" ∧
  ∃ caption, dict_get members "caption" = Some (JStr caption) ∧
    json_truthy (default (JBool false) (dict_get members "contains_price")) = false ∧
    (5 <= length (py_split caption) <= 40)%nat ∧
    re_search price_pattern (py_lower (py_strip caption)) = None.
Proof.
  unfold sentinel_check. split.
  - destruct (dict_get members "caption") as [[| | |raw| |]|] eqn:Hcaption;
      simpl; try discriminate.
    destruct (str_is_empty (py_strip raw)); [discriminate|].
    destruct (json_truthy _); [discriminate|].
    unfold actual_words. rewrite py_split_strip.
    destruct (Nat.ltb_spec 40 (length (py_split raw))); [discriminate|].
    destruct (Nat.ltb_spec (length (py_split raw)) 5); [discriminate|].
    destruct (re_search _ _) eqn:Hsearch; [discriminate|].
    intros [= <-]. split; [reflexivity|]. exists raw.
    split; [reflexivity|]. split; [reflexivity|]. split; [lia|exact Hsearch].
  - intros (-> & raw & -> & Hflag & Hwords & Hsearch). simpl.
    rewrite Hflag, Hsearch.
    rewrite actual_words_nonempty
      by (unfold actual_words; rewrite py_split_strip; lia).
    unfold actual_words. rewrite py_split_strip.
    destruct (Nat.ltb_spec 40 (length (py_split raw))); [lia|].
    destruct (Nat.ltb_spec (length (py_split raw)) 5); [lia|]. reflexivity.
Qed.

Lemma sentinel_check_approved_object (parsed : json) (reason : string) :
  sentinel_check parsed = Ok (true, reason) -> ∃ members, parsed = JObject members.
Proof. destruct parsed; try discriminate. by eexists. Qed.

(** X5. The sentinel approves exactly the objects whose caption is a string
    of five to forty words in which the pattern finds nothing, and whose
    price flag is absent or falsy; the only reason it approves with is
    APPROVED, and the reported [word_count] plays no part. *)
Theorem sentinel_check_approves_exactly (parsed : json) (reason : string) :
  sentinel_check parsed = Ok (true, reason) <->
  reason = "APPROVED" ∧
  ∃ members caption,
    parsed = JObject members ∧
    dict_get members "caption" = Some (JStr caption) ∧
    json_truthy (default (JBool false) (dict_get members "contains_price")) = false ∧
    (5 <= length (py_split caption) <= 40)%nat ∧
    re_search price_pattern (py_lower (py_strip caption)) = None.
Proof.
  split.
  - intros H. destruct (sentinel_check_approved_object _ _ H) as [members ->].
    apply sentinel_check_approved_iff in H as (-> & caption & H).
    split; [reflexivity|]. by exists members, caption.
  - intros (-> & members & caption & -> & H).
    apply sentinel_check_approved_iff. split; [reflexivity|]. by exists caption.
Qed.

(** *** What the pattern reports *)

Lemma py_startswith_take (n : nat) (s : string) : py_startswith (py_take n s) s = true.
Proof.
  revert s. induction n as [|n IH]; intros [|a t]; try reflexivity.
  simpl. by rewrite Ascii.eqb_refl.
Qed.

Lemma re_search_found (alts : list (list re_atom)) (s m : string) :
  re_search alts s = Some m ->
  ∃ n rest, re_match_alts alts rest = Some n ∧ m = py_take n rest ∧
            (str_is_empty m = false -> py_in m s = true).
Proof.
  induction s as [|a t IH]; simpl.
  - destruct (re_match_alts alts EmptyString) as [n|] eqn:Hn; [|discriminate].
    intros [= <-]. exists n, EmptyString. split; [done|]. split; [done|].
    by destruct n.
  - destruct (re_match_alts alts (String a t)) as [n|] eqn:Hn.
    + intros [= <-]. exists n, (String a t). split; [done|]. split; [done|].
      intros _. change (py_in (py_take n (String a t)) (String a t))
        with (py_startswith (py_take n (String a t)) (String a t)
              || py_in (py_take n (String a t)) t).
      by rewrite py_startswith_take.
    + intros H. destruct (IH H) as (n & rest & Hmatch & -> & Hin).
      exists n, rest. split; [done|]. split; [done|].
      intros Hne. change (py_in (py_take n rest) (String a t))
        with (py_startswith (py_take n rest) (String a t) || py_in (py_take n rest) t).
      rewrite (Hin Hne). apply orb_true_r.
Qed.

(** Every alternative of the price pattern consumes a character. *)
Lemma price_pattern_consumes (s : string) (n : nat) :
  re_match_alts price_pattern s = Some n -> str_is_empty (py_take n s) = false.
Proof.
  destruct s as [|a t]; [by vm_compute|].
  assert (∀ alt, alt ∈ price_pattern -> ∀ k, re_match alt (String a t) = Some k ->
                 (0 < k)%nat) as Halts.
  { intros alt Hin k. unfold price_pattern in Hin.
    repeat (apply elem_of_cons in Hin as [->|Hin];
            [cbn [re_lit app re_match];
             repeat match goal with
                    | |- context [if ?b then _ else _] => destruct b; [|discriminate]
                    end;
             match goal with
             | |- S <$> ?x = _ -> _ => destruct x; [intros [= <-]; lia | discriminate]
             end|]).
    by apply elem_of_nil in Hin. }
  intros H.
  assert (0 < n)%nat as Hpos.
  { revert H Halts. generalize price_pattern. intros alts.
    induction alts as [|alt alts IH]; [discriminate|]. simpl. intros H Halts.
    destruct (re_match alt (String a t)) as [k|] eqn:Hk.
    - injection H as <-. apply (Halts alt); [apply list_elem_of_here|done].
    - apply IH; [done|]. intros alt' Hin. apply Halts. by apply list_elem_of_further. }
  destruct n; [lia|reflexivity].
Qed.

Lemma string_app_cancel_r (a b c : string) : a ++ c = b ++ c -> a = b.
Proof.
  assert (∀ x y : string, String.length (x ++ y) = (String.length x + String.length y)%nat)
    as Hlen.
  { intros x y. induction x as [|? x IH]; [reflexivity|].
    rewrite string_app_cons. simpl. by rewrite IH. }
  revert b. induction a as [|x a IH]; intros [|y b] H.
  - reflexivity.
  - apply (f_equal String.length) in H. rewrite string_app_nil, Hlen in H.
    simpl in H. lia.
  - apply (f_equal String.length) in H. rewrite string_app_nil, Hlen in H.
    simpl in H. lia.
  - rewrite !string_app_cons in H. injection H as -> H. by rewrite (IH b H).
Qed.

(** X6. When the sentinel rejects with PRICE_DETECTED, the text it quotes is
    not empty and stands in the lower-cased caption. *)
Theorem sentinel_check_price_detected_quotes (members : list (string * json))
    (caption found : string) :
  dict_get members "caption" = Some (JStr caption) ->
  sentinel_check (JObject members) = Ok (false, "PRICE_DETECTED: '" ++ found ++ "'") ->
  str_is_empty found = false ∧ py_in found (py_lower caption) = true.
Proof.
  intros Hcaption. unfold sentinel_check. rewrite Hcaption. simpl.
  destruct (str_is_empty (py_strip caption)); [discriminate|].
  destruct (json_truthy _); [discriminate|].
  destruct (_ <? _)%nat; [discriminate|].
  destruct (_ <? _)%nat; [discriminate|].
  destruct (re_search _ _) as [m|] eqn:Hm; [|discriminate].
  intros H. injection H as H.
  assert (m = found) as ->.
  { apply (string_app_cancel_r _ _ "'"). exact H. }
  destruct (re_search_found _ _ _ Hm) as (n & rest & Hmatch & -> & Hin).
  pose proof (price_pattern_consumes rest n Hmatch) as Hne.
  split; [exact Hne|].
  rewrite <- py_strip_lower in Hin. apply (py_in_strip_inv _ _ Hne). by apply Hin.
Qed.

(** ** [generate_with_react] *)

(** One round of the loop: the candidate is approved and returned, or the
    loop goes on with the prompt and what the round adds to it. *)
Lemma react_rounds_step (model : nat -> string -> gen_response)
    (rounds attempt : nat) (prompt : string) :
  (∃ parsed reason,
     model attempt prompt = GenText (Some parsed) ∧
     sentinel_check parsed = Ok (true, reason) ∧
     react_rounds model (S rounds) attempt prompt
       = (Some (caption_of parsed), [prompt])) ∨
  (let next := react_rounds model rounds (S attempt)
                 (prompt ++ feedback (model attempt prompt)) in
   react_rounds model (S rounds) attempt prompt = (next.1, prompt :: next.2)).
Proof.
  simpl. destruct (model attempt prompt) as [e | [parsed|]] eqn:Hmodel; simpl.
  - right. rewrite string_app_nil_r. by destruct (react_rounds _ _ _ _).
  - destruct (sentinel_check parsed) as [[[|] reason]|e] eqn:Hcheck.
    + left. by exists parsed, reason.
    + right. by destruct (react_rounds _ _ _ _).
    + right. rewrite string_app_nil_r. by destruct (react_rounds _ _ _ _).
  - right. by destruct (react_rounds _ _ _ _).
Qed.

Lemma react_rounds_result (model : nat -> string -> gen_response)
    (rounds attempt : nat) (prompt draft : string) :
  (react_rounds model rounds attempt prompt).1 = Some draft ->
  ∃ parsed reason, sentinel_check parsed = Ok (true, reason) ∧ draft = caption_of parsed.
Proof.
  revert attempt prompt. induction rounds as [|rounds IH]; intros attempt prompt.
  - discriminate.
  - destruct (react_rounds_step model rounds attempt prompt)
      as [(parsed & reason & _ & Hcheck & ->)| ->].
    + intros [= <-]. by exists parsed, reason.
    + apply IH.
Qed.

Lemma react_rounds_prompts (model : nat -> string -> gen_response)
    (rounds attempt : nat) (prompt : string) :
  let calls := (react_rounds model rounds attempt prompt).2 in
  (∀ p, calls !! O = Some p -> p = prompt) ∧
  (∀ i p p', calls !! i = Some p -> calls !! S i = Some p' ->
             p' = p ++ feedback (model (attempt + i)%nat p)).
Proof.
  revert attempt prompt. induction rounds as [|rounds IH]; intros attempt prompt.
  - simpl. split; intros *; discriminate.
  - destruct (react_rounds_step model rounds attempt prompt)
      as [(parsed & reason & _ & _ & ->)| ->]; simpl.
    + split; [by intros p [= <-]|]. intros i p p' _. discriminate.
    + destruct (IH (S attempt) (prompt ++ feedback (model attempt prompt)))
        as [Hfirst Hnext].
      split; [by intros p [= <-]|]. intros [|i] p p' Hp Hp'; simpl in Hp, Hp'.
      * injection Hp as <-. rewrite Nat.add_0_r. by apply Hfirst.
      * rewrite Nat.add_succ_r. by apply Hnext.
Qed.

(** X7. A draft that [generate_with_react] returns is an image's caption of
    five to forty words without price language: the file has an allowed
    image type, and the draft is the caption, as the model wrote it, of a
    candidate the sentinel approved. *)
Theorem generate_with_react_draft_sound (guess_type : string -> option string)
    (docs : outcome (list document)) (model : nat -> string -> gen_response)
    (bucket filename draft : string) :
  (generate_with_react guess_type docs model bucket filename).1 = Some draft ->
  is_Some (get_mime_type guess_type filename) ∧
  (5 <= length (py_split draft) <= 40)%nat ∧
  ∀ marker, price_marker marker -> py_in marker (py_lower draft) = false.
Proof.
  unfold generate_with_react.
  destruct (get_mime_type guess_type filename) as [mime_type|]; [|discriminate].
  intros H. split; [by eexists|].
  apply react_rounds_result in H as (parsed & reason & Hcheck & ->).
  destruct (sentinel_check_approved_object _ _ Hcheck) as [members ->].
  apply sentinel_check_approved_iff in Hcheck
    as (_ & caption & Hcaption & _ & Hwords & Hsearch).
  simpl. rewrite Hcaption. split; [exact Hwords|].
  intros marker Hmarker. destruct (py_in marker (py_lower caption)) eqn:Hin; [|done].
  destruct (price_language_found caption marker Hmarker Hin) as [m Hm]. congruence.
Qed.

(** X8. The prompts of [generate_with_react]: the first is the base prompt
    with the captions [retrieve_memory] returns; every later one is the
    prompt before it followed by what that round adds, which is nothing
    when the call or the sentinel raised, the JSON critic when the text did
    not decode, and the rejection critic with the reason and the rejected
    caption otherwise.  No prompt is ever shortened or rebuilt. *)
Theorem generate_with_react_prompts (guess_type : string -> option string)
    (docs : outcome (list document)) (model : nat -> string -> gen_response)
    (bucket filename : string) :
  let calls := (generate_with_react guess_type docs model bucket filename).2 in
  (∀ p, calls !! O = Some p -> p = base_prompt (retrieve_memory docs)) ∧
  (∀ i p p', calls !! i = Some p -> calls !! S i = Some p' ->
             p' = p ++ feedback (model i p)) ∧
  (∀ i p p' e, calls !! i = Some p -> calls !! S i = Some p' ->
               model i p = GenRaises e -> p' = p).
Proof.
  unfold generate_with_react.
  destruct (get_mime_type guess_type filename) as [mime_type|]; simpl.
  - destruct (react_rounds_prompts model MAX_REACT_ROUNDS 0
                (base_prompt (retrieve_memory docs))) as [Hfirst Hnext].
    split; [exact Hfirst|]. split; [exact Hnext|].
    intros i p p' e Hp Hp' He. pose proof (Hnext i p p' Hp Hp') as Heq.
    simpl in Heq. rewrite He in Heq. rewrite Heq. apply string_app_nil_r.
  - split; [|split]; intros *; discriminate.
Qed.

(** ** [retrieve_memory] *)

(** X9. [retrieve_memory] never returns an empty text: when the query
    fails, when a stored draft of another type than text breaks the join,
    and when no document carries a draft, the prompt reads
    [No previous posts yet.] *)
Theorem retrieve_memory_never_empty (docs : outcome (list document)) :
  str_is_empty (retrieve_memory docs) = false ∧
  (∀ e, docs = Raised e -> retrieve_memory docs = NO_PREVIOUS_POSTS) ∧
  (∀ ds, docs = Ok ds ->
         Forall (λ d, truthy (py_get_default d "draft" (VStr EmptyString)) = false) ds ->
         retrieve_memory docs = NO_PREVIOUS_POSTS) ∧
  (∀ ds d, docs = Ok ds -> d ∈ ds ->
           truthy (py_get_default d "draft" (VStr EmptyString)) = true ->
           (∀ s, py_get_default d "draft" (VStr EmptyString) ≠ VStr s) ->
           retrieve_memory docs = NO_PREVIOUS_POSTS).
Proof.
  split; [|split; [|split]].
  - destruct docs as [ds|e]; [|reflexivity]. simpl.
    destruct (drafts_to_join _) as [hs|] eqn:Hhs; [|reflexivity].
    destruct (str_is_empty (py_join _ hs)) eqn:Hempty; [reflexivity|exact Hempty].
  - by intros e ->.
  - intros ds -> Hall. simpl.
    assert (drafts_to_join (map (λ d, py_get_default d "draft" (VStr EmptyString)) ds)
            = Some []) as ->; [|reflexivity].
    induction Hall as [|d ds Hd _ IH]; [reflexivity|]. simpl. by rewrite Hd.
  - intros ds d -> Hin Htruthy Hother. simpl.
    assert (drafts_to_join (map (λ d, py_get_default d "draft" (VStr EmptyString)) ds)
            = None) as ->; [|reflexivity].
    induction Hin as [d ds|d d' ds _ IH]; simpl.
    + rewrite Htruthy. destruct (py_get_default d "draft" _) eqn:Hd; try reflexivity.
      by destruct (Hother s).
    + rewrite (IH Htruthy Hother).
      destruct (py_get_default d' "draft" (VStr EmptyString)) as [| | |s|];
        simpl; try reflexivity;
        match goal with |- (if ?b then _ else _) = _ => by destruct b end.
Qed.

(** ** [update_status] *)

(** X10. [update_status] writes one existing record and nothing else: it
    never creates a record (a missing document and a failed call are
    swallowed and leave the store as it was), it leaves every other record
    alone, and in the record it writes it sets [status] and [updated_at] and
    changes no field beside these and the extra fields. *)
Theorem update_status_frame (io_ok : bool) (server_time : Z)
    (doc_id status : string) (extra_fields : list (string * field_write))
    (st : store) :
  let st' := update_status io_ok server_time doc_id status extra_fields st in
  (io_ok = false ∨ st !! doc_id = None -> st' = st) ∧
  (∀ other, other ≠ doc_id -> st' !! other = st !! other) ∧
  (∀ other, is_Some (st' !! other) <-> is_Some (st !! other)) ∧
  (∀ d, io_ok = true -> st !! doc_id = Some d ->
     ∃ d', st' !! doc_id = Some d' ∧
       (∀ k, k ≠ "status" -> k ≠ "updated_at" -> k ∉ extra_fields.*1 ->
             d' !! k = d !! k) ∧
       ("status" ∉ extra_fields.*1 -> d' !! "status" = Some (VStr status)) ∧
       ("updated_at" ∉ extra_fields.*1 ->
        d' !! "updated_at" = Some (VTime server_time))).
Proof.
  assert (∀ (fields : list (string * field_write)) k, k ∉ fields.*1 ->
            ∀ kv : string * field_write, kv ∈ fields -> kv.1 ≠ k) as Hkeys.
  { intros fields k Hk kv Hin Heq. apply Hk. apply list_elem_of_fmap. by exists kv. }
  unfold update_status. cbv zeta. destruct io_ok.
  2:{ split; [done|]. split; [done|]. split; [done|]. discriminate. }
  destruct (st !! doc_id) as [d0|] eqn:Hd0.
  2:{ split; [done|]. split; [done|]. split; [done|]. discriminate. }
  split; [by intros [|]|].
  split; [intros other Hother; by rewrite lookup_insert_ne|].
  split.
  { intros other. destruct (decide (other = doc_id)) as [->|Hne].
    - rewrite lookup_insert_eq, Hd0. split; by eexists.
    - by rewrite lookup_insert_ne. }
  intros d _ [= <-]. eexists. split; [apply lookup_insert_eq|].
  split; [|split].
  - intros k Hstatus Hupdated Hextra. apply apply_update_lookup_other.
    intros kv Hin. apply elem_of_cons in Hin as [->|Hin]; [done|].
    apply elem_of_cons in Hin as [->|Hin]; [done|]. by apply (Hkeys extra_fields).
  - intros Hextra. rewrite !apply_update_cons.
    rewrite apply_update_lookup_other by (by apply Hkeys).
    unfold apply_field. simpl. rewrite lookup_insert_ne by done.
    apply lookup_insert_eq.
  - intros Hextra. rewrite !apply_update_cons.
    rewrite apply_update_lookup_other by (by apply Hkeys).
    unfold apply_field. simpl. apply lookup_insert_eq.
Qed.

(** ** [process_upload] *)

Lemma acknowledges_run (guess_type : string -> option string)
    (PROJECT_ID LOCATION_ID : option string) (p : prog unit) :
  ∀ n envs w, acknowledges n p -> (n <= length envs)%nat ->
              (run guess_type PROJECT_ID LOCATION_ID envs p w).1 = Ret tt.
Proof.
  induction p as [[]|e|o k IH]; intros n envs w Hack Hlen.
  - by destruct envs.
  - destruct n; contradiction.
  - destruct n as [|n]; [contradiction|].
    destruct envs as [|e envs]; [simpl in Hlen; lia|].
    simpl. destruct (exec_op _ _ _ e o w) as [r w'] eqn:Hexec.
    apply (IH r n); [apply Hack | simpl in Hlen; lia].
Qed.

Lemma process_upload_acknowledges (sha256_hex : string -> string)
    (guess_type : string -> option string) (ev : upload_event) :
  acknowledges 9 (process_upload sha256_hex guess_type ev).
Proof.
  unfold process_upload. destruct (get_mime_type guess_type (ev_name ev)); [|exact I].
  cbn [acknowledges perform mbind prog_mbind prog_bind try_except raising].
  intros [|]; cbn [negb acknowledges perform mbind prog_mbind prog_bind try_except raising];
    [|exact I].
  intros _ draft. destruct (no_draft draft);
    cbn [acknowledges perform mbind prog_mbind prog_bind try_except raising].
  - by intros _ _.
  - intros [url|e]; cbn [acknowledges perform mbind prog_mbind prog_bind try_except raising].
    + intros now _ [[]|e]; cbn [acknowledges perform mbind prog_mbind prog_bind try_except raising].
      * exact I.
      * by intros _ _.
    + by intros _ _.
Qed.

(** X11. [process_upload] never asks for redelivery: for an event that
    carries a bucket and an object name it returns normally after at most
    nine operations, whatever the store, the generator, the signing and the
    topics do. *)
Theorem process_upload_always_acknowledges (sha256_hex : string -> string)
    (guess_type : string -> option string) (PROJECT_ID LOCATION_ID : option string)
    (ev : upload_event) (envs : list env) (w : world) :
  (9 <= length envs)%nat ->
  (run guess_type PROJECT_ID LOCATION_ID envs
     (process_upload sha256_hex guess_type ev) w).1 = Ret tt.
Proof.
  intros Hlen. apply (acknowledges_run _ _ _ _ 9); [|exact Hlen].
  apply process_upload_acknowledges.
Qed.

Lemma generate_with_react_draft_nonempty (guess_type : string -> option string)
    (docs : outcome (list document)) (model : nat -> string -> gen_response)
    (bucket filename draft : string) :
  (generate_with_react guess_type docs model bucket filename).1 = Some draft ->
  str_is_empty draft = false.
Proof.
  unfold generate_with_react.
  destruct (get_mime_type guess_type filename) as [mime_type|]; [|discriminate].
  intros H. apply react_rounds_result in H as (parsed & reason & Hcheck & ->).
  destruct (sentinel_check_approved_object _ _ Hcheck) as [members ->].
  apply sentinel_check_approved_iff in Hcheck
    as (_ & caption & Hcaption & _ & Hwords & _).
  simpl. rewrite Hcaption. apply actual_words_nonempty. unfold actual_words. lia.
Qed.

Lemma update_status_existing (server_time : Z) (doc_id status : string)
    (extra_fields : list (string * field_write)) (st : store) (d : document) :
  st !! doc_id = Some d ->
  update_status true server_time doc_id status extra_fields st
    = <[doc_id := apply_update server_time
                    (("status", Put (VStr status))
                       :: ("updated_at", ServerTimestamp) :: extra_fields) d]> st.
Proof. unfold update_status. by intros ->. Qed.

(** Reads a field of a record after a write of explicit fields. *)
Ltac record_lookup :=
  unfold apply_update, apply_field, lock_fields, posted_fields, failed_fields;
  cbn [foldl fst snd];
  repeat first
    [ rewrite lookup_insert_eq
    | rewrite lookup_insert_ne by done
    | rewrite lookup_delete_eq
    | rewrite lookup_delete_ne by done ];
  try done.

Section Composer.

Variable sha256_hex : string -> string.
Variable guess_type : string -> option string.
Variable PROJECT_ID LOCATION_ID : option string.

Local Abbreviation run_upload := (run guess_type PROJECT_ID LOCATION_ID).
Local Abbreviation trace_upload := (trace guess_type PROJECT_ID LOCATION_ID).
Local Abbreviation handler := (process_upload sha256_hex guess_type).
Local Abbreviation id_of ev :=
  (make_doc_id sha256_hex (ev_bucket ev) (ev_name ev) (ev_generation ev)).

(** X12. The first delivery of an image upload for which every call
    succeeds: the handler claims the record, obtains a draft and a signed URL,
    writes status QUEUED with the draft, the URL and its expiry one hour after
    the clock reading, and only then publishes the pointer, once.  The record
    keeps the bucket and file name of the claim and carries no lock token; no
    other record, and nothing on the dead-letter topic, changes. *)
Theorem process_upload_queues_and_publishes (ev : upload_event)
    (e1 e2 e3 e4 e5 e6 e7 : env) (w : world) (draft url : string) :
  is_Some (get_mime_type guess_type (ev_name ev)) ->
  w_store w !! id_of ev = None ->
  e_tx e1 = TxCommits ->
  e_io_ok e2 = true ->
  (generate_with_react guess_type (e_history e3) (e_model e3)
     (ev_bucket ev) (ev_name ev)).1 = Some draft ->
  e_signed_url e4 = Ok url ->
  e_io_ok e6 = true ->
  e_io_ok e7 = true ->
  let envs := [e1; e2; e3; e4; e5; e6; e7] in
  ∃ w' d',
    run_upload envs (handler ev) w = (Ret tt, w') ∧
    w_topic w' = (w_topic w ++ [id_of ev])%list ∧
    w_dlq w' = w_dlq w ∧
    (∀ other, other ≠ id_of ev -> w_store w' !! other = w_store w !! other) ∧
    w_store w' !! id_of ev = Some d' ∧
    d' !! "status" = Some (VStr "QUEUED") ∧
    d' !! "draft" = Some (VStr draft) ∧
    d' !! "image_url" = Some (VStr url) ∧
    d' !! "signed_url_expires"
      = Some (VTime (e_utcnow e5 + 3600 * MICROSECONDS_PER_SECOND)) ∧
    d' !! "bucket" = Some (VStr (ev_bucket ev)) ∧
    d' !! "filename" = Some (VStr (ev_name ev)) ∧
    d' !! "lock_token" = None.
Proof.
  intros [mime_type Hmime] Hfresh Htx Hio2 Hdraft Hurl Hio6 Hio7 envs. subst envs.
  pose proof (generate_with_react_draft_nonempty _ _ _ _ _ _ Hdraft) as Hnonempty.
  destruct (claim_document_fresh (e_server_time e1) (id_of ev) (ev_bucket ev)
              (ev_name ev) (w_store w) Hfresh)
    as (d0 & Hclaim & Hstatus0 & Hid0 & Hbucket0 & Hname0 & Hcreated0 & Htoken0 & Hat0).
  unfold process_upload. rewrite Hmime.
  prog_simpl. rewrite Htx, Hclaim. cbn [negb]. prog_simpl.
  rewrite Hdraft. cbn [no_draft default]. rewrite Hnonempty. prog_simpl.
  rewrite Hurl. prog_simpl. rewrite Hio7. prog_simpl.
  cbn [w_store with_store]. rewrite Hio2, Hio6.
  rewrite (update_status_existing (e_server_time e2) _ "GENERATING" [] _ d0)
    by apply lookup_insert_eq.
  erewrite update_status_existing by apply lookup_insert_eq.
  eexists _, _. split; [reflexivity|]. cbn [w_topic w_dlq w_store with_store].
  split; [reflexivity|]. split; [reflexivity|].
  split; [intros other Hother; by rewrite !lookup_insert_ne|].
  split; [apply lookup_insert_eq|].
  repeat split; record_lookup.
Qed.


Lemma with_store_same (w : world) : with_store w (w_store w) = w.
Proof. by destruct w. Qed.

Lemma run_ret {R} (envs : list env) (r : R) (w : world) :
  run guess_type PROJECT_ID LOCATION_ID envs (Ret r) w = (Ret r, w).
Proof. by destruct envs. Qed.

Lemma trace_ret {R} (envs : list env) (r : R) (w : world) :
  trace guess_type PROJECT_ID LOCATION_ID envs (Ret r) w = [].
Proof. by destruct envs. Qed.

(** X13. Deliveries that do nothing: an object that is not an image is
    skipped before any operation; when the record already exists (a
    redelivery, or another instance was first) or the claim transaction
    fails, the claim is the only operation and the world is left as it was.
    In each case the event is acknowledged. *)
Theorem process_upload_skipped_deliveries (ev : upload_event) (e1 : env) (envs : list env)
    (w : world) :
  (get_mime_type guess_type (ev_name ev) = None ->
   run_upload (e1 :: envs) (handler ev) w = (Ret tt, w) ∧
   trace_upload (e1 :: envs) (handler ev) w = []) ∧
  (is_Some (get_mime_type guess_type (ev_name ev)) ->
   is_Some (w_store w !! id_of ev) ∨ e_tx e1 ≠ TxCommits ->
   run_upload (e1 :: envs) (handler ev) w = (Ret tt, w) ∧
   trace_upload (e1 :: envs) (handler ev) w
     = [ClaimDocument (id_of ev) (ev_bucket ev) (ev_name ev)]).
Proof.
  unfold process_upload. split.
  - by intros ->.
  - intros [mime_type ->] Hclaimed.
    assert (claim_document (e_tx e1) (e_server_time e1) (id_of ev) (ev_bucket ev)
              (ev_name ev) (w_store w) = (false, w_store w)) as Hclaim.
    { destruct Hclaimed; [by apply claim_document_taken|by apply claim_document_fault]. }
    prog_simpl. rewrite Hclaim. cbn [negb]. rewrite with_store_same.
    by rewrite run_ret, trace_ret.
Qed.

(** X14. When the generator returns no draft the record ends FAILED with
    reason SENTINEL_BLOCKED_ALL_ATTEMPTS and without a draft, one message
    with that reason goes to the dead-letter topic, no pointer is published,
    and the event is acknowledged. *)
Theorem process_upload_without_draft (ev : upload_event) (e1 e2 e3 e4 e5 : env)
    (w : world) :
  is_Some (get_mime_type guess_type (ev_name ev)) ->
  w_store w !! id_of ev = None ->
  e_tx e1 = TxCommits ->
  (generate_with_react guess_type (e_history e3) (e_model e3)
     (ev_bucket ev) (ev_name ev)).1 = None ->
  e_io_ok e4 = true ->
  e_io_ok e5 = true ->
  ∃ w' d',
    run_upload [e1; e2; e3; e4; e5] (handler ev) w = (Ret tt, w') ∧
    w_topic w' = w_topic w ∧
    w_dlq w' = (w_dlq w ++
                  [{| dlq_doc_id := id_of ev; dlq_filename := ev_name ev;
                      dlq_reason := "SENTINEL_BLOCKED_ALL_ATTEMPTS";
                      dlq_source := AGENT; dlq_timestamp := e_utcnow e5 |}])%list ∧
    (∀ other, other ≠ id_of ev -> w_store w' !! other = w_store w !! other) ∧
    w_store w' !! id_of ev = Some d' ∧
    d' !! "status" = Some (VStr "FAILED") ∧
    d' !! "failure_reason" = Some (VStr "SENTINEL_BLOCKED_ALL_ATTEMPTS") ∧
    d' !! "draft" = None ∧ d' !! "image_url" = None ∧ d' !! "lock_token" = None.
Proof.
  intros [mime_type Hmime] Hfresh Htx Hdraft Hio4 Hio5.
  destruct (claim_document_fresh (e_server_time e1) (id_of ev) (ev_bucket ev)
              (ev_name ev) (w_store w) Hfresh)
    as (d0 & Hclaim & Hstatus0 & Hid0 & Hbucket0 & Hname0 & Hcreated0 & Htoken0 & Hat0).
  assert (d0 !! "draft" = None ∧ d0 !! "image_url" = None) as [Hdraft0 Hurl0].
  { revert Hclaim. unfold claim_document, run_transaction, _claim. rewrite Hfresh.
    simpl. intros [= Heq]. apply (f_equal (λ s : store, s !! id_of ev)) in Heq.
    rewrite !lookup_insert_eq in Heq. injection Heq as <-. by record_lookup. }
  unfold process_upload. rewrite Hmime.
  prog_simpl. rewrite Htx, Hclaim. cbn [negb]. prog_simpl.
  rewrite Hdraft. cbn [no_draft]. prog_simpl.
  unfold send_to_dlq. cbn [json_text]. rewrite Hio4, Hio5.
  cbn [w_store w_topic w_dlq with_store].
  assert (∃ d1, update_status (e_io_ok e2) (e_server_time e2) (id_of ev)
                  "GENERATING" [] (<[id_of ev := d0]> (w_store w))
                = <[id_of ev := d1]> (w_store w) ∧
                d1 !! "draft" = None ∧ d1 !! "image_url" = None ∧
                d1 !! "lock_token" = None) as (d1 & -> & Hdraft1 & Hurl1 & Htoken1).
  { destruct (e_io_ok e2).
    - rewrite (update_status_existing _ _ _ _ _ d0) by apply lookup_insert_eq.
      rewrite insert_insert_eq. eexists. split; [reflexivity|].
      repeat split; by record_lookup.
    - by exists d0. }
  rewrite (update_status_existing _ _ _ _ _ d1) by apply lookup_insert_eq.
  eexists _, _. split; [reflexivity|]. cbn [w_topic w_dlq w_store].
  split; [reflexivity|]. split; [reflexivity|].
  split; [intros other Hother; by rewrite !lookup_insert_ne|].
  split; [apply lookup_insert_eq|].
  repeat split; by record_lookup.
Qed.


(** The record after the claim and the first status update, which may have
    been swallowed. *)
Lemma process_upload_generating (e1 e2 : env) (ev : upload_event) (st : store) :
  st !! id_of ev = None ->
  ∃ d1,
    update_status (e_io_ok e2) (e_server_time e2) (id_of ev) "GENERATING" []
      (claim_document TxCommits (e_server_time e1) (id_of ev) (ev_bucket ev)
         (ev_name ev) st).2
      = <[id_of ev := d1]> st ∧
    claim_document TxCommits (e_server_time e1) (id_of ev) (ev_bucket ev)
      (ev_name ev) st
      = (true, (claim_document TxCommits (e_server_time e1) (id_of ev) (ev_bucket ev)
                  (ev_name ev) st).2) ∧
    (has_status d1 "RECEIVED" ∨ has_status d1 "GENERATING") ∧
    d1 !! "draft" = None ∧ d1 !! "image_url" = None ∧ d1 !! "lock_token" = None ∧
    d1 !! "bucket" = Some (VStr (ev_bucket ev)) ∧
    d1 !! "filename" = Some (VStr (ev_name ev)).
Proof.
  intros Hfresh.
  destruct (claim_document_fresh (e_server_time e1) (id_of ev) (ev_bucket ev)
              (ev_name ev) st Hfresh)
    as (d0 & Hclaim & Hstatus0 & Hid0 & Hbucket0 & Hname0 & Hcreated0 & Htoken0 & Hat0).
  assert (d0 !! "draft" = None ∧ d0 !! "image_url" = None) as [Hdraft0 Hurl0].
  { revert Hclaim. unfold claim_document, run_transaction, _claim. rewrite Hfresh.
    simpl. intros [= Heq]. apply (f_equal (λ s : store, s !! id_of ev)) in Heq.
    rewrite !lookup_insert_eq in Heq. injection Heq as <-. by record_lookup. }
  rewrite Hclaim. cbn [snd]. destruct (e_io_ok e2).
  - rewrite (update_status_existing _ _ _ _ _ d0) by apply lookup_insert_eq.
    rewrite insert_insert_eq. eexists. split; [reflexivity|]. split; [reflexivity|].
    split; [right; apply py_get_lookup; by record_lookup|].
    repeat split; by record_lookup.
  - exists d0. split; [reflexivity|]. split; [reflexivity|].
    split; [left; by apply py_get_lookup|]. done.
Qed.

(** X15. When signing the URL raises, nothing is queued: the record ends
    FAILED with the text of the exception as its reason and without draft or
    image URL, a message [EXCEPTION: ...] goes to the dead-letter topic, no
    pointer is published, and the event is acknowledged. *)
Theorem process_upload_signed_url_failure (ev : upload_event)
    (e1 e2 e3 e4 e5 e6 : env) (w : world) (draft : string) (e : exn) :
  is_Some (get_mime_type guess_type (ev_name ev)) ->
  w_store w !! id_of ev = None ->
  e_tx e1 = TxCommits ->
  (generate_with_react guess_type (e_history e3) (e_model e3)
     (ev_bucket ev) (ev_name ev)).1 = Some draft ->
  e_signed_url e4 = Raised e ->
  e_io_ok e5 = true ->
  e_io_ok e6 = true ->
  ∃ w' d',
    run_upload [e1; e2; e3; e4; e5; e6] (handler ev) w = (Ret tt, w') ∧
    w_topic w' = w_topic w ∧
    w_dlq w' = (w_dlq w ++
                  [{| dlq_doc_id := id_of ev; dlq_filename := ev_name ev;
                      dlq_reason := "EXCEPTION: " ++ exn_str e;
                      dlq_source := AGENT; dlq_timestamp := e_utcnow e6 |}])%list ∧
    w_store w' !! id_of ev = Some d' ∧
    d' !! "status" = Some (VStr "FAILED") ∧
    d' !! "failure_reason" = Some (VStr (exn_str e)) ∧
    d' !! "draft" = None ∧ d' !! "image_url" = None ∧ d' !! "lock_token" = None.
Proof.
  intros [mime_type Hmime] Hfresh Htx Hdraft Hurl Hio5 Hio6.
  pose proof (generate_with_react_draft_nonempty _ _ _ _ _ _ Hdraft) as Hnonempty.
  destruct (process_upload_generating e1 e2 ev (w_store w) Hfresh)
    as (d1 & Hwritten & Hclaim & _ & Hdraft1 & Hurl1 & Htoken1 & _).
  unfold process_upload. rewrite Hmime.
  prog_simpl. rewrite Htx, Hclaim. cbn [negb]. prog_simpl.
  rewrite Hdraft. cbn [no_draft]. rewrite Hnonempty. prog_simpl.
  rewrite Hurl. prog_simpl.
  unfold send_to_dlq. cbn [json_text]. rewrite Hio5, Hio6.
  cbn [w_store w_topic w_dlq with_store]. rewrite Hwritten.
  rewrite (update_status_existing _ _ _ _ _ d1) by apply lookup_insert_eq.
  eexists _, _. split; [reflexivity|]. cbn [w_topic w_dlq w_store].
  split; [reflexivity|]. split; [reflexivity|].
  split; [apply lookup_insert_eq|].
  repeat split; by record_lookup.
Qed.

(** X16. When publishing the pointer raises after QUEUED was written, the
    record is moved on to FAILED with the text of the exception: it keeps
    the draft and the image URL that were stored, the topic gets no pointer,
    a message goes to the dead-letter topic, and the event is
    acknowledged. *)
Theorem process_upload_publish_failure (ev : upload_event)
    (e1 e2 e3 e4 e5 e6 e7 e8 e9 : env) (w : world) (draft url : string) :
  is_Some (get_mime_type guess_type (ev_name ev)) ->
  w_store w !! id_of ev = None ->
  e_tx e1 = TxCommits ->
  (generate_with_react guess_type (e_history e3) (e_model e3)
     (ev_bucket ev) (ev_name ev)).1 = Some draft ->
  e_signed_url e4 = Ok url ->
  e_io_ok e6 = true ->
  e_io_ok e7 = false ->
  e_io_ok e8 = true ->
  e_io_ok e9 = true ->
  ∃ w' d',
    run_upload [e1; e2; e3; e4; e5; e6; e7; e8; e9] (handler ev) w = (Ret tt, w') ∧
    w_topic w' = w_topic w ∧
    w_dlq w' = (w_dlq w ++
                  [{| dlq_doc_id := id_of ev; dlq_filename := ev_name ev;
                      dlq_reason := "EXCEPTION: " ++ exn_str io_error;
                      dlq_source := AGENT; dlq_timestamp := e_utcnow e9 |}])%list ∧
    w_store w' !! id_of ev = Some d' ∧
    d' !! "status" = Some (VStr "FAILED") ∧
    d' !! "failure_reason" = Some (VStr (exn_str io_error)) ∧
    d' !! "draft" = Some (VStr draft) ∧ d' !! "image_url" = Some (VStr url) ∧
    d' !! "lock_token" = None.
Proof.
  intros [mime_type Hmime] Hfresh Htx Hdraft Hurl Hio6 Hio7 Hio8 Hio9.
  pose proof (generate_with_react_draft_nonempty _ _ _ _ _ _ Hdraft) as Hnonempty.
  destruct (process_upload_generating e1 e2 ev (w_store w) Hfresh)
    as (d1 & Hwritten & Hclaim & _ & Hdraft1 & Hurl1 & Htoken1 & _).
  unfold process_upload. rewrite Hmime.
  prog_simpl. rewrite Htx, Hclaim. cbn [negb]. prog_simpl.
  rewrite Hdraft. cbn [no_draft default]. rewrite Hnonempty. prog_simpl.
  rewrite Hurl. prog_simpl. rewrite Hio7. prog_simpl.
  unfold send_to_dlq. cbn [json_text]. rewrite Hio6, Hio8, Hio9.
  cbn [w_store w_topic w_dlq with_store]. rewrite Hwritten.
  rewrite (update_status_existing (e_server_time e6) _ "QUEUED" _ _ d1)
    by apply lookup_insert_eq.
  erewrite update_status_existing by apply lookup_insert_eq.
  eexists _, _. split; [reflexivity|]. cbn [w_topic w_dlq w_store].
  split; [reflexivity|]. split; [reflexivity|].
  split; [apply lookup_insert_eq|].
  repeat split; by record_lookup.
Qed.

(** X17. [update_status] swallows a failed write, so the pointer can be
    published for a record that never became QUEUED: when the QUEUED update
    fails and the publish succeeds, the handler acknowledges with the pointer
    on the topic and the record still RECEIVED or GENERATING, without draft
    or image URL, which is what the Publisher treats as an incomplete
    document. *)
Theorem process_upload_swallowed_update (ev : upload_event)
    (e1 e2 e3 e4 e5 e6 e7 : env) (w : world) (draft url : string) :
  is_Some (get_mime_type guess_type (ev_name ev)) ->
  w_store w !! id_of ev = None ->
  e_tx e1 = TxCommits ->
  (generate_with_react guess_type (e_history e3) (e_model e3)
     (ev_bucket ev) (ev_name ev)).1 = Some draft ->
  e_signed_url e4 = Ok url ->
  e_io_ok e6 = false ->
  e_io_ok e7 = true ->
  ∃ w' d',
    run_upload [e1; e2; e3; e4; e5; e6; e7] (handler ev) w = (Ret tt, w') ∧
    w_topic w' = (w_topic w ++ [id_of ev])%list ∧
    w_dlq w' = w_dlq w ∧
    w_store w' !! id_of ev = Some d' ∧
    (has_status d' "RECEIVED" ∨ has_status d' "GENERATING") ∧
    incomplete d'.
Proof.
  intros [mime_type Hmime] Hfresh Htx Hdraft Hurl Hio6 Hio7.
  pose proof (generate_with_react_draft_nonempty _ _ _ _ _ _ Hdraft) as Hnonempty.
  destruct (process_upload_generating e1 e2 ev (w_store w) Hfresh)
    as (d1 & Hwritten & Hclaim & Hstatus1 & Hdraft1 & Hurl1 & Htoken1 & _).
  unfold process_upload. rewrite Hmime.
  prog_simpl. rewrite Htx, Hclaim. cbn [negb]. prog_simpl.
  rewrite Hdraft. cbn [no_draft default]. rewrite Hnonempty. prog_simpl.
  rewrite Hurl. prog_simpl. rewrite Hio7. prog_simpl.
  cbn [w_store w_topic w_dlq with_store]. rewrite Hwritten.
  unfold update_status at 1. rewrite Hio6.
  eexists _, _. split; [reflexivity|]. cbn [w_topic w_dlq w_store].
  split; [reflexivity|]. split; [reflexivity|].
  split; [apply lookup_insert_eq|]. split; [exact Hstatus1|].
  left. unfold py_get_default. by rewrite Hdraft1.
Qed.

End Composer.

(** ** [post_to_gbp] *)

Lemma retryable_status_elem (status_code : Z) :
  retryable_status status_code = true <-> status_code ∈ RETRYABLE_STATUS_CODES.
Proof.
  unfold retryable_status. rewrite existsb_exists. split.
  - intros (x & Hx & Heq). apply Z.eqb_eq in Heq as <-. by apply list_elem_of_In.
  - intros H. exists status_code. split; [by apply list_elem_of_In|apply Z.eqb_refl].
Qed.

(** X18. The three verdicts of [post_to_gbp].  It reports success only
    when the configuration is valid, the credentials were obtained and the
    API answered 200; it reports a retryable failure exactly for a timeout, a
    connection failure and the status codes 429, 500, 502, 503 and 504; and
    with an invalid configuration it reports a failure that is not retryable
    with status 0, whatever the credentials and the network would do. *)
Theorem post_to_gbp_verdicts (PROJECT_ID LOCATION_ID : option string)
    (creds : outcome string) (http : http_outcome) (draft image_url : value) :
  let result := post_to_gbp PROJECT_ID LOCATION_ID creds http draft image_url in
  (∀ post_name, result = Ok (GbpSuccess post_name) ->
     validate_config PROJECT_ID LOCATION_ID = [] ∧
     (∃ token, creds = Ok token) ∧
     ∃ text name, http = HttpResponse 200 text (Ok name) ∧
                  post_name = default "unknown" name) ∧
  (validate_config PROJECT_ID LOCATION_ID = [] ->
   (∃ token, creds = Ok token) -> (∃ text, draft = VStr text) ->
   (∃ error status_code, result = Ok (GbpFailure error status_code true))
     <-> retryable_failure http) ∧
  (validate_config PROJECT_ID LOCATION_ID ≠ [] ->
   result = Ok (GbpFailure
                  ("Config errors: " ++
                     py_join "; " (validate_config PROJECT_ID LOCATION_ID)) 0 false)).
Proof.
  unfold post_to_gbp. cbv zeta. split; [|split].
  - intros post_name.
    destruct (validate_config PROJECT_ID LOCATION_ID); [|discriminate].
    destruct creds as [token|e]; [|discriminate]. simpl.
    destruct draft; try discriminate.
    destruct http as [| | |status_code text name]; try discriminate.
    destruct (Z.eqb_spec status_code 200) as [->|]; [|discriminate].
    destruct name as [name|e]; [|discriminate]. simpl. intros [= <-].
    split; [done|]. split; [by eexists|]. by eexists _, _.
  - intros Hcfg [token ->] [text ->]. split.
    + rewrite Hcfg. simpl.
      destruct http as [|msg|e|status_code body name].
      * intros _. by left.
      * intros _. right. left. by eexists.
      * intros (? & ? & ?). discriminate.
      * destruct (Z.eqb_spec status_code 200) as [->|].
        { destruct name; simpl; intros (? & ? & ?); discriminate. }
        intros (error & code & [= _ <- Hretry]). right. right.
        exists status_code, body, name. split; [done|].
        by apply retryable_status_elem.
    + intros Hretry.
      by apply (post_to_gbp_retryable PROJECT_ID LOCATION_ID token http text image_url).
  - intros Hcfg. by destruct (validate_config PROJECT_ID LOCATION_ID).
Qed.

(** ** The releases by the holder of the lock *)

Lemma release_lock_success_holder (server_time : Z) (doc_id lock_token post_name : string)
    (st : store) (d : document) :
  st !! doc_id = Some d -> py_get d "lock_token" = VStr lock_token ->
  release_lock_success TxCommits server_time doc_id lock_token post_name st
    = (true, <[doc_id := apply_update server_time (posted_fields post_name) d]> st).
Proof.
  intros Hd Htoken. unfold release_lock_success.
  rewrite (run_transaction_update server_time doc_id _ st true d
             (posted_fields post_name)); [done|done|].
  unfold _release_success. rewrite Htoken. simpl. by rewrite String.eqb_refl.
Qed.

Lemma release_lock_failure_holder (server_time : Z) (doc_id lock_token reason : string)
    (st : store) (d : document) :
  st !! doc_id = Some d -> py_get d "lock_token" = VStr lock_token ->
  release_lock_failure TxCommits server_time doc_id lock_token reason st
    = (true, <[doc_id := apply_update server_time (failed_fields reason) d]> st).
Proof.
  intros Hd Htoken. unfold release_lock_failure.
  rewrite (run_transaction_update server_time doc_id _ st true d
             (failed_fields reason)); [done|done|].
  unfold _release_failure. rewrite Htoken. simpl. by rewrite String.eqb_refl.
Qed.


Lemma lock_fields_token (server_time now : Z) (lock_token : string) (d : document) :
  py_get (apply_update server_time (lock_fields now lock_token) d) "lock_token"
    = VStr lock_token.
Proof.
  destruct (apply_lock_fields server_time now lock_token d) as (_ & Htoken & _).
  by apply py_get_lookup.
Qed.

(** ** [process_post_queue] *)

Section Publishing.

Variable guess_type : string -> option string.
Variable PROJECT_ID LOCATION_ID : option string.

Local Abbreviation run_post := (run guess_type PROJECT_ID LOCATION_ID).
Local Abbreviation trace_post := (trace guess_type PROJECT_ID LOCATION_ID).
Local Abbreviation post := (post_to_gbp PROJECT_ID LOCATION_ID).

(** A complete record passes the gate of the handler. *)
Lemma complete_gate (d : document) (draft url : string) :
  d !! "draft" = Some (VStr draft) -> str_is_empty draft = false ->
  d !! "image_url" = Some (VStr url) -> str_is_empty url = false ->
  py_get_default d "draft" (VStr EmptyString) = VStr draft ∧
  py_get_default d "image_url" (VStr EmptyString) = VStr url ∧
  negb (truthy (VStr draft)) || negb (truthy (VStr url)) = false.
Proof.
  intros Hdraft Hd Hurl Hu. unfold py_get_default. rewrite Hdraft, Hurl. simpl.
  by rewrite Hd, Hu.
Qed.

(** X19. A pointer to a QUEUED record, published with success: the handler
    reads the record, takes the lock, posts, and releases; the record ends
    POSTED with the name the API returned ([unknown] when the answer has
    none), stamped by the store, without lock fields and with its draft; the
    topics are untouched and the message is acknowledged. *)
Theorem process_post_queue_posts (e1 e2 e3 e4 : env) (doc_id draft url creds text : string)
    (name : option string) (w : world) (d : document) :
  str_is_empty doc_id = false ->
  w_store w !! doc_id = Some d ->
  e_io_ok e1 = true ->
  d !! "draft" = Some (VStr draft) -> str_is_empty draft = false ->
  d !! "image_url" = Some (VStr url) -> str_is_empty url = false ->
  has_status d "QUEUED" ->
  e_tx e2 = TxCommits ->
  str_is_empty (e_uuid4 e2) = false ->
  validate_config PROJECT_ID LOCATION_ID = [] ->
  e_credentials e3 = Ok creds ->
  e_http e3 = HttpResponse 200 text (Ok name) ->
  e_tx e4 = TxCommits ->
  let handler := process_post_queue false (PubsubPointer doc_id) in
  let post_name := default "unknown" name in
  ∃ w' d',
    run_post [e1; e2; e3; e4] handler w = (Ret tt, w') ∧
    trace_post [e1; e2; e3; e4] handler w
      = [GetSnapshot doc_id; AcquirePostingLock doc_id;
         PostToGbp (VStr draft) (VStr url);
         ReleaseLockSuccess doc_id (e_uuid4 e2) post_name] ∧
    w_topic w' = w_topic w ∧ w_dlq w' = w_dlq w ∧
    (∀ other, other ≠ doc_id -> w_store w' !! other = w_store w !! other) ∧
    w_store w' !! doc_id = Some d' ∧
    d' !! "status" = Some (VStr "POSTED") ∧
    d' !! "gbp_post_name" = Some (VStr post_name) ∧
    d' !! "posted_at" = Some (VTime (e_server_time e4)) ∧
    d' !! "lock_token" = None ∧ d' !! "locked_at" = None ∧
    d' !! "draft" = Some (VStr draft).
Proof.
  intros Hid Hd Hread Hdraft Hdraft_ne Hurl Hurl_ne Hqueued Htx2 Htoken Hcfg Hcreds
    Hhttp Htx4 handler post_name. subst handler post_name.
  destruct (complete_gate d draft url Hdraft Hdraft_ne Hurl Hurl_ne)
    as (Hget_draft & Hget_url & Hgate).
  pose proof (acquire_posting_lock_succeeds (e_server_time e2) (e_utcnow e2)
                (e_uuid4 e2) doc_id (w_store w) d Hd (or_introl Hqueued)) as Hacq.
  unfold process_post_queue. rewrite Hid.
  prog_simpl. rewrite Hread, Hd. prog_simpl. rewrite Hget_draft, Hget_url, Hgate.
  prog_simpl. rewrite Htx2, Hacq. prog_simpl. rewrite Htoken. prog_simpl.
  unfold post_to_gbp. rewrite Hcfg, Hcreds, Hhttp. cbn [obind Z.eqb Pos.eqb].
  prog_simpl. cbn [w_store with_store]. rewrite Htx4.
  rewrite (release_lock_success_holder _ _ _ _ _ _ (lookup_insert_eq _ _ _)
             (lock_fields_token _ _ _ _)).
  eexists _, _. split; [reflexivity|]. split; [reflexivity|].
  cbn [w_topic w_dlq w_store with_store].
  split; [reflexivity|]. split; [reflexivity|].
  split; [intros other Hother; by rewrite !lookup_insert_ne|].
  split; [apply lookup_insert_eq|].
  repeat split; by record_lookup.
Qed.



(** X21. A failure that is not to be retried, be it a result of
    [post_to_gbp] that is not retryable or an exception other than
    [RuntimeError] that [classify_error] finds permanent: the handler
    releases the lock with FAILED and the reason ([GBP_PERMANENT: ...] or
    [EXCEPTION: ...]), forwards the same reason with the file name to the
    dead-letter topic, and acknowledges. *)
Theorem process_post_queue_permanent_failure (e1 e2 e3 e4 e5 : env)
    (doc_id draft url filename reason : string) (w : world) (d : document) :
  str_is_empty doc_id = false ->
  w_store w !! doc_id = Some d ->
  e_io_ok e1 = true ->
  d !! "draft" = Some (VStr draft) -> str_is_empty draft = false ->
  d !! "image_url" = Some (VStr url) -> str_is_empty url = false ->
  d !! "filename" = Some (VStr filename) ->
  has_status d "QUEUED" ->
  e_tx e2 = TxCommits ->
  str_is_empty (e_uuid4 e2) = false ->
  (∃ error status_code,
     post (e_credentials e3) (e_http e3) (VStr draft) (VStr url)
       = Ok (GbpFailure error status_code false) ∧
     reason = "GBP_PERMANENT: " ++ error) ∨
  (∃ msg,
     post (e_credentials e3) (e_http e3) (VStr draft) (VStr url)
       = Raised (OtherError msg) ∧
     classify_error (OtherError msg) = PERMANENT ∧
     reason = "EXCEPTION: " ++ msg) ->
  e_tx e4 = TxCommits ->
  e_io_ok e5 = true ->
  let handler := process_post_queue false (PubsubPointer doc_id) in
  ∃ w' d',
    run_post [e1; e2; e3; e4; e5] handler w = (Ret tt, w') ∧
    trace_post [e1; e2; e3; e4; e5] handler w
      = [GetSnapshot doc_id; AcquirePostingLock doc_id;
         PostToGbp (VStr draft) (VStr url);
         ReleaseLockFailure doc_id (e_uuid4 e2) reason;
         SendToDlq doc_id (VStr filename) reason POSTER] ∧
    w_topic w' = w_topic w ∧
    w_dlq w' = (w_dlq w ++
                  [{| dlq_doc_id := doc_id; dlq_filename := filename;
                      dlq_reason := reason; dlq_source := POSTER;
                      dlq_timestamp := e_utcnow e5 |}])%list ∧
    w_store w' !! doc_id = Some d' ∧
    d' !! "status" = Some (VStr "FAILED") ∧
    d' !! "failure_reason" = Some (VStr reason) ∧
    d' !! "lock_token" = None ∧ d' !! "locked_at" = None.
Proof.
  intros Hid Hd Hread Hdraft Hdraft_ne Hurl Hurl_ne Hname Hqueued Htx2 Htoken Hpost
    Htx4 Hio5 handler. subst handler.
  destruct (complete_gate d draft url Hdraft Hdraft_ne Hurl Hurl_ne)
    as (Hget_draft & Hget_url & Hgate).
  pose proof (acquire_posting_lock_succeeds (e_server_time e2) (e_utcnow e2)
                (e_uuid4 e2) doc_id (w_store w) d Hd (or_introl Hqueued)) as Hacq.
  assert (py_get_default d "filename" (VStr "unknown") = VStr filename) as Hget_name.
  { unfold py_get_default. by rewrite Hname. }
  unfold process_post_queue. rewrite Hid.
  prog_simpl. rewrite Hread, Hd. prog_simpl.
  rewrite Hget_draft, Hget_url, Hget_name, Hgate.
  prog_simpl. rewrite Htx2, Hacq. prog_simpl. rewrite Htoken. prog_simpl.
  destruct Hpost as [(error & code & -> & ->) | (msg & -> & Hclass & ->)];
    prog_simpl; rewrite ?Hclass; prog_simpl; cbn [exn_str];
    cbn [w_store with_store]; rewrite Htx4;
    rewrite (release_lock_failure_holder _ _ _ _ _ _ (lookup_insert_eq _ _ _)
               (lock_fields_token _ _ _ _));
    unfold send_to_dlq; cbn [json_text]; rewrite Hio5;
    (eexists _, _; split; [reflexivity|]; split; [reflexivity|];
     cbn [w_topic w_dlq w_store with_store];
     split; [reflexivity|]; split; [reflexivity|];
     split; [apply lookup_insert_eq|];
     repeat split; by record_lookup).
Qed.

(** X22. [get_credentials] raises a [RuntimeError] when the token is not
    valid and the secret holds no refresh token.  [classify_error] would call
    that error permanent (it carries the marker [no refresh_token]), but the
    handler re-raises every [RuntimeError] before classifying: the message is
    not acknowledged, the lock is kept, and nothing is marked FAILED or sent
    to the dead-letter topic. *)
Theorem process_post_queue_reraises_missing_refresh_token (e1 e2 e3 : env)
    (doc_id draft url : string) (w : world) (d : document)
    (secret : secret_data) (refresh : outcome string) (persist_ok : bool) :
  str_is_empty doc_id = false ->
  w_store w !! doc_id = Some d ->
  e_io_ok e1 = true ->
  d !! "draft" = Some (VStr draft) -> str_is_empty draft = false ->
  d !! "image_url" = Some (VStr url) -> str_is_empty url = false ->
  has_status d "QUEUED" ->
  e_tx e2 = TxCommits ->
  str_is_empty (e_uuid4 e2) = false ->
  validate_config PROJECT_ID LOCATION_ID = [] ->
  env_truthy (refresh_token secret) = false ->
  e_credentials e3 = (get_credentials (Ok secret) false refresh persist_ok).1 ->
  let handler := process_post_queue false (PubsubPointer doc_id) in
  ∃ w' d',
    run_post [e1; e2; e3] handler w = (Raise (RuntimeError NO_REFRESH_TOKEN), w') ∧
    classify_error (RuntimeError NO_REFRESH_TOKEN) = PERMANENT ∧
    trace_post [e1; e2; e3] handler w
      = [GetSnapshot doc_id; AcquirePostingLock doc_id;
         PostToGbp (VStr draft) (VStr url)] ∧
    w_dlq w' = w_dlq w ∧
    w_store w' !! doc_id = Some d' ∧
    acquired_by d d' (e_uuid4 e2) (e_utcnow e2).
Proof.
  intros Hid Hd Hread Hdraft Hdraft_ne Hurl Hurl_ne Hqueued Htx2 Htoken Hcfg
    Hrefresh Hcreds handler. subst handler.
  destruct (complete_gate d draft url Hdraft Hdraft_ne Hurl Hurl_ne)
    as (Hget_draft & Hget_url & Hgate).
  pose proof (acquire_posting_lock_succeeds (e_server_time e2) (e_utcnow e2)
                (e_uuid4 e2) doc_id (w_store w) d Hd (or_introl Hqueued)) as Hacq.
  unfold get_credentials in Hcreds. rewrite Hrefresh in Hcreds. simpl in Hcreds.
  unfold process_post_queue. rewrite Hid.
  prog_simpl. rewrite Hread, Hd. prog_simpl. rewrite Hget_draft, Hget_url, Hgate.
  prog_simpl. rewrite Htx2, Hacq. prog_simpl. rewrite Htoken. prog_simpl.
  unfold post_to_gbp. rewrite Hcfg, Hcreds. cbn [obind]. prog_simpl.
  eexists _, _. split; [reflexivity|]. split; [by vm_compute|].
  split; [reflexivity|]. cbn [w_dlq w_store with_store]. split; [reflexivity|].
  split; [apply lookup_insert_eq|]. apply apply_lock_fields.
Qed.

(** X23. With [DRY_RUN] set nothing is published, and the record is marked
    POSTED all the same: whatever the checks of [dry_run_post] find, the
    handler releases the lock with the post name [DRY_RUN], and the run
    holds no publishing call. *)
Theorem process_post_queue_dry_run (e1 e2 e3 e4 : env) (doc_id draft url : string)
    (w : world) (d : document) :
  str_is_empty doc_id = false ->
  w_store w !! doc_id = Some d ->
  e_io_ok e1 = true ->
  d !! "draft" = Some (VStr draft) -> str_is_empty draft = false ->
  d !! "image_url" = Some (VStr url) -> str_is_empty url = false ->
  has_status d "QUEUED" ->
  e_tx e2 = TxCommits ->
  str_is_empty (e_uuid4 e2) = false ->
  e_tx e4 = TxCommits ->
  let handler := process_post_queue true (PubsubPointer doc_id) in
  ∃ w' d',
    run_post [e1; e2; e3; e4] handler w = (Ret tt, w') ∧
    trace_post [e1; e2; e3; e4] handler w
      = [GetSnapshot doc_id; AcquirePostingLock doc_id;
         DryRunPost doc_id (VStr draft) (VStr url);
         ReleaseLockSuccess doc_id (e_uuid4 e2) "DRY_RUN"] ∧
    w_topic w' = w_topic w ∧ w_dlq w' = w_dlq w ∧
    w_store w' !! doc_id = Some d' ∧
    d' !! "status" = Some (VStr "POSTED") ∧
    d' !! "gbp_post_name" = Some (VStr "DRY_RUN") ∧
    d' !! "lock_token" = None ∧ d' !! "locked_at" = None.
Proof.
  intros Hid Hd Hread Hdraft Hdraft_ne Hurl Hurl_ne Hqueued Htx2 Htoken Htx4 handler.
  subst handler.
  destruct (complete_gate d draft url Hdraft Hdraft_ne Hurl Hurl_ne)
    as (Hget_draft & Hget_url & Hgate).
  pose proof (acquire_posting_lock_succeeds (e_server_time e2) (e_utcnow e2)
                (e_uuid4 e2) doc_id (w_store w) d Hd (or_introl Hqueued)) as Hacq.
  unfold process_post_queue. rewrite Hid.
  prog_simpl. rewrite Hread, Hd. prog_simpl. rewrite Hget_draft, Hget_url, Hgate.
  prog_simpl. rewrite Htx2, Hacq. prog_simpl. rewrite Htoken. prog_simpl.
  unfold dry_run_post. prog_simpl. cbn [w_store with_store]. rewrite Htx4.
  rewrite (release_lock_success_holder _ _ _ _ _ _ (lookup_insert_eq _ _ _)
             (lock_fields_token _ _ _ _)).
  eexists _, _. split; [reflexivity|]. split; [reflexivity|].
  cbn [w_topic w_dlq w_store with_store].
  split; [reflexivity|]. split; [reflexivity|].
  split; [apply lookup_insert_eq|].
  repeat split; by record_lookup.
Qed.

(** X24. Messages the handler acknowledges without touching anything: an
    envelope without data, one that does not decode, one whose pointer is
    empty (no operation at all); a pointer to a record that does not exist
    (one read); a pointer to a complete record whose lock is not obtained,
    because the record is terminal, or held, or the transaction failed (the
    read and the acquire).  A failed read is the one case before the lock in
    which the handler raises. *)
Theorem process_post_queue_acknowledges_untouched (DRY_RUN : bool) (e1 e2 : env)
    (envs : list env) (doc_id : string) (w : world) :
  (∀ ev, ev = PubsubEmpty ∨ ev = PubsubMalformed ∨ ev = PubsubPointer EmptyString ->
         process_post_queue DRY_RUN ev = Ret tt) ∧
  (str_is_empty doc_id = false ->
   let handler := process_post_queue DRY_RUN (PubsubPointer doc_id) in
   (e_io_ok e1 = false ->
    run_post (e1 :: envs) handler w = (Raise io_error, w)) ∧
   (e_io_ok e1 = true -> w_store w !! doc_id = None ->
    run_post (e1 :: envs) handler w = (Ret tt, w) ∧
    trace_post (e1 :: envs) handler w = [GetSnapshot doc_id]) ∧
   (∀ d, e_io_ok e1 = true -> w_store w !! doc_id = Some d -> ¬ incomplete d ->
         (acquire_posting_lock (e_tx e2) (e_server_time e2) (e_uuid4 e2)
            (e_utcnow e2) doc_id (w_store w)).1 = None ->
         run_post (e1 :: e2 :: envs) handler w = (Ret tt, w) ∧
         trace_post (e1 :: e2 :: envs) handler w
           = [GetSnapshot doc_id; AcquirePostingLock doc_id])).
Proof.
  split.
  - intros ev [->|[->| ->]]; reflexivity.
  - intros Hid handler. subst handler. unfold process_post_queue. rewrite Hid.
    split; [|split].
    + intros Hread. prog_simpl. rewrite Hread. prog_simpl. by destruct envs.
    + intros Hread Hd. prog_simpl. rewrite Hread, Hd. prog_simpl.
      by destruct envs.
    + intros d Hread Hd Hcomplete Hnone.
      assert (negb (truthy (py_get_default d "draft" (VStr EmptyString)))
              || negb (truthy (py_get_default d "image_url" (VStr EmptyString)))
              = false) as Hgate.
      { unfold incomplete in Hcomplete.
        destruct (truthy (py_get_default d "draft" (VStr EmptyString)));
          destruct (truthy (py_get_default d "image_url" (VStr EmptyString)));
          simpl; tauto. }
      destruct (acquire_posting_lock_cases (e_tx e2) (e_server_time e2) (e_utcnow e2)
                  (e_uuid4 e2) doc_id (w_store w))
        as [Hacq | (d0 & _ & _ & Hacq & _)]; rewrite Hacq in Hnone; [|discriminate].
      prog_simpl. rewrite Hread, Hd. prog_simpl. rewrite Hgate.
      prog_simpl. rewrite Hacq. prog_simpl. rewrite with_store_same.
      by destruct envs.
Qed.

End Publishing.

(** ** The lock from one holder to the next *)



(** ** The system: pointers and claim fields *)

Section Pipeline.

Variable sha256_hex : string -> string.
Variable guess_type : string -> option string.
Variable DRY_RUN : bool.
Variable PROJECT_ID LOCATION_ID : option string.

Local Abbreviation exec := (exec_op guess_type PROJECT_ID LOCATION_ID).
Local Abbreviation step_ := (step sha256_hex guess_type DRY_RUN PROJECT_ID LOCATION_ID).
Local Abbreviation reachable_ :=
  (reachable sha256_hex guess_type DRY_RUN PROJECT_ID LOCATION_ID).

(** Only the publish writes the topic. *)
Lemma exec_op_topic (e : env) (o : op) (w : world) :
  w_topic (exec e o w).2 = w_topic w ∨
  ∃ doc_id, o = PublishPointer doc_id ∧
            w_topic (exec e o w).2 = (w_topic w ++ [doc_id])%list.
Proof.
  destruct o; simpl; try (by left).
  - left. by destruct (claim_document _ _ _ _ _ _).
  - destruct (e_io_ok e); [right; by eexists | by left].
  - left. unfold send_to_dlq. destruct (json_text filename); [|done].
    by destruct (e_io_ok e).
  - left. by destruct (acquire_posting_lock _ _ _ _ _ _).
  - left. by destruct (release_lock_success _ _ _ _ _ _).
  - left. by destruct (release_lock_failure _ _ _ _ _ _).
Qed.

Lemma topic_nodup_step (s s' : pool * world) :
  system_inv s -> NoDup (w_topic s.2) -> step_ s s' -> NoDup (w_topic s'.2).
Proof.
  intros Hinv Hnodup Hstep.
  destruct Hstep as [ev ps w | i ps w Hin | e j o k ps w Hj]; simpl in *; try done.
  destruct (exec_op_topic e o w) as [-> | (doc_id & -> & ->)]; [done|].
  apply NoDup_app. split; [done|]. split; [|apply NoDup_singleton].
  intros i Hi Hi'. apply list_elem_of_singleton in Hi' as ->.
  destruct Hinv as (_ & _ & owner & Howner & Hroles). simpl in *.
  destruct (Hroles j _ Hj) as [[Hq _] | [Hc | [(i & _ & [Hp _]) | (i & Hown & Hc)]]];
    try discriminate; try done.
  destruct Hc as (Heq & _). subst i.
  by destruct (Howner doc_id j Hown) as (Hout & _).
Qed.

(** X26. Every pointer is published once: in each state the system
    reaches, no document id stands twice on the pointer topic, and every id
    on it is the id of a record in the store. *)
Theorem pointers_published_once (s : pool * world) :
  reachable_ s ->
  NoDup (w_topic s.2) ∧
  ∀ doc_id, doc_id ∈ w_topic s.2 -> is_Some (w_store s.2 !! doc_id).
Proof.
  intros Hreach. split.
  - assert (system_inv s ∧ NoDup (w_topic s.2)) as [_ H]; [|exact H].
    eapply (rtc_ind_r (λ s, system_inv s ∧ NoDup (w_topic s.2))); [| |exact Hreach].
    + split; [apply system_inv_initial | apply NoDup_nil_2].
    + intros y z _ Hstep [Hinv Hnodup]. split.
      * by eapply system_inv_step.
      * by eapply topic_nodup_step.
  - by destruct (reachable_system_inv _ _ _ _ _ s Hreach) as (_ & Htopic & _).
Qed.

(** *** The fields of the claim *)

Lemma process_upload_keeps_claim_fields (ev : upload_event) :
  keeps_claim_fields (process_upload sha256_hex guess_type ev).
Proof.
  assert (∀ (k : string) (extra_fields : list (string * field_write)),
            k ∈ CLAIM_FIELDS ->
            (∀ x, In x extra_fields.*1 ->
                  In x ["failure_reason"; "draft"; "image_url"; "signed_url_expires"]) ->
            k ∉ extra_fields.*1) as Hupdate.
  { intros k extra_fields Hk Hsub Hin. apply list_elem_of_In, Hsub in Hin.
    apply list_elem_of_In in Hin. unfold CLAIM_FIELDS in Hk.
    repeat (apply elem_of_cons in Hk as [->|Hk];
            [repeat (apply elem_of_cons in Hin as [Hin|Hin]; [discriminate|]);
             by apply elem_of_nil in Hin|]).
    by apply elem_of_nil in Hk. }
  unfold process_upload. destruct (get_mime_type guess_type (ev_name ev)); [|exact I].
  repeat first
    [ exact I
    | match goal with
      | H : ?k ∈ CLAIM_FIELDS |- ?k ∉ _ =>
          apply (Hupdate k _ H); cbn [fmap list_fmap fst]; simpl; tauto
      | |- _ ∧ _ => split
      | |- ∀ _, _ => intro
      | |- context [if no_draft ?r then _ else _] => destruct (no_draft r)
      | |- context [match ?r with Ok _ => _ | Raised _ => _ end] => is_var r; destruct r
      | |- context [if negb ?b then _ else _] => is_var b; destruct b
      end
    | progress cbn [keeps_claim_fields keeps_claim_fields_op negb raising perform
                    mbind prog_mbind prog_bind try_except] ].
Qed.

Lemma process_post_queue_keeps_claim_fields (ev : pubsub_event) :
  keeps_claim_fields (process_post_queue DRY_RUN ev).
Proof.
  unfold process_post_queue. destruct ev as [| |doc_id]; try exact I.
  destruct (str_is_empty doc_id); [exact I|].
  repeat first
    [ exact I
    | match goal with
      | |- _ ∧ _ => split
      | |- ∀ _, _ => intro
      | |- context [match ?r with Ok _ => _ | Raised _ => _ end] => is_var r; destruct r
      | |- context [match ?r with Some _ => _ | None => _ end] => is_var r; destruct r
      | |- context [match ?r with GbpSuccess _ => _ | GbpFailure _ _ _ => _ end] =>
          is_var r; destruct r
      | |- context [match ?r with RuntimeError _ => _ | OtherError _ => _ end] =>
          is_var r; destruct r
      | |- context [match classify_error ?e with _ => _ end] =>
          destruct (classify_error e)
      | |- context [if ?b then _ else _] => destruct b
      end
    | progress cbn [keeps_claim_fields keeps_claim_fields_op negb raising perform
                    mbind prog_mbind prog_bind try_except] ].
Qed.

(** What an operation that keeps the claim fields does to a record. *)
Lemma exec_op_claim_fields (e : env) (o : op) (w : world) (doc_id : string)
    (d : document) :
  keeps_claim_fields_op o -> w_store w !! doc_id = Some d ->
  ∃ d', w_store (exec e o w).2 !! doc_id = Some d' ∧
        ∀ k, k ∈ CLAIM_FIELDS -> d' !! k = d !! k.
Proof.
  intros Hop Hd.
  assert (∀ fields : list (string * field_write),
            (∀ k, k ∈ CLAIM_FIELDS -> k ∉ fields.*1) ->
            ∀ i d0 t, w_store w !! i = Some d0 ->
              ∃ d', <[i := apply_update t fields d0]> (w_store w) !! doc_id = Some d' ∧
                    ∀ k, k ∈ CLAIM_FIELDS -> d' !! k = d !! k) as Hwrite.
  { intros fields Hfields i d0 t Hd0. destruct (decide (i = doc_id)) as [->|Hne].
    - rewrite lookup_insert_eq. eexists. split; [reflexivity|].
      assert (d0 = d) as -> by congruence.
      intros k Hk. apply apply_update_lookup_other. intros kv Hin Heq.
      apply (Hfields k Hk). apply list_elem_of_fmap. by exists kv.
    - rewrite lookup_insert_ne by done. by exists d. }
  assert (∀ fields : list string,
            (∀ k, k ∈ CLAIM_FIELDS -> k ∈ fields -> False) ->
            ∀ k, k ∈ CLAIM_FIELDS -> k ∉ fields) as Hdisjoint by (intros ? H k ? ?; eauto).
  assert (∀ k, k ∈ CLAIM_FIELDS ->
            k ∉ ["status"; "lock_token"; "locked_at"; "updated_at"; "gbp_post_name";
                 "posted_at"; "failure_reason"]) as Hother.
  { intros k Hk Hin. unfold CLAIM_FIELDS in Hk.
    repeat (apply elem_of_cons in Hk as [->|Hk];
            [repeat (apply elem_of_cons in Hin as [Hin|Hin]; [discriminate|]);
             by apply elem_of_nil in Hin|]).
    by apply elem_of_nil in Hk. }
  assert (∀ fields : list (string * field_write),
            fields.*1 ⊆ ["status"; "lock_token"; "locked_at"; "updated_at";
                         "gbp_post_name"; "posted_at"; "failure_reason"] ->
            ∀ k, k ∈ CLAIM_FIELDS -> k ∉ fields.*1) as Hsub.
  { intros fields Hincl k Hk Hin. apply (Hother k Hk). by apply Hincl. }
  assert (∀ (l : list string) (fields : list (string * field_write)),
            Forall (λ x, x ∈ l) fields.*1 -> fields.*1 ⊆ l) as Hforall.
  { intros l fields Hall x Hx. by apply (proj1 (Forall_forall _ _) Hall). }
  destruct o; simpl in *; try (by exists d).
  - destruct (claim_document_cases (e_tx e) (e_server_time e) doc_id0 bucket filename
                (w_store w)) as [-> | (d0 & Hnone & -> & _)]; [by exists d|].
    simpl. rewrite lookup_insert_ne; [by exists d|]. intros ->. congruence.
  - destruct (update_status_cases (e_io_ok e) (e_server_time e) doc_id0 status
                extra_fields (w_store w)) as [-> | (d0 & Hd0 & ->)]; [by exists d|].
    apply Hwrite; [|done]. intros k Hk Hin. cbn [fmap list_fmap fst] in Hin.
    apply elem_of_cons in Hin as [->|Hin].
    { apply (Hother "status" Hk). apply list_elem_of_here. }
    apply elem_of_cons in Hin as [->|Hin].
    { apply (Hother "updated_at" Hk). do 3 apply list_elem_of_further.
      apply list_elem_of_here. }
    by apply (Hop k Hk).
  - destruct (e_io_ok e); by exists d.
  - unfold send_to_dlq. destruct (json_text filename); [|by exists d].
    destruct (e_io_ok e); by exists d.
  - destruct (acquire_posting_lock_cases (e_tx e) (e_server_time e) (e_utcnow e)
                (e_uuid4 e) doc_id0 (w_store w)) as [-> | (d0 & Hd0 & _ & -> & _)];
      [by exists d|].
    apply Hwrite; [|done]. apply Hsub, Hforall. unfold lock_fields.
    repeat constructor; apply list_elem_of_In; simpl; tauto.
  - destruct (release_lock_success_cases (e_tx e) (e_server_time e) doc_id0
                lock_token post_name (w_store w)) as [-> | (d0 & Hd0 & _ & _ & ->)];
      [by exists d|].
    apply Hwrite; [|done]. apply Hsub, Hforall. unfold posted_fields.
    repeat constructor; apply list_elem_of_In; simpl; tauto.
  - destruct (release_lock_failure_cases (e_tx e) (e_server_time e) doc_id0
                lock_token reason (w_store w)) as [-> | (d0 & Hd0 & _ & _ & ->)];
      [by exists d|].
    apply Hwrite; [|done]. apply Hsub, Hforall. unfold failed_fields.
    repeat constructor; apply list_elem_of_In; simpl; tauto.
Qed.

Lemma pool_keeps_claim_fields_step (s s' : pool * world) :
  pool_keeps_claim_fields s -> step_ s s' -> pool_keeps_claim_fields s'.
Proof.
  intros Hpool Hstep.
  destruct Hstep as [ev ps w | i ps w Hin | e j o k ps w Hj];
    intros j' p' Hp'; simpl in *.
  - apply lookup_app_Some in Hp' as [Hp'|[_ Hp']]; [by apply (Hpool j')|].
    apply list_lookup_singleton_Some in Hp' as [_ <-].
    apply process_upload_keeps_claim_fields.
  - apply lookup_app_Some in Hp' as [Hp'|[_ Hp']]; [by apply (Hpool j')|].
    apply list_lookup_singleton_Some in Hp' as [_ <-].
    exact (process_post_queue_keeps_claim_fields (PubsubPointer i)).
  - apply list_lookup_insert_Some in Hp' as [(<- & <- & _)|[_ Hp']];
      [|by apply (Hpool j')].
    destruct (Hpool j _ Hj) as [_ Hk]. apply Hk.
Qed.

Lemma claim_fields_step (s s' : pool * world) (doc_id : string) (d : document) :
  pool_keeps_claim_fields s -> step_ s s' -> w_store s.2 !! doc_id = Some d ->
  ∃ d', w_store s'.2 !! doc_id = Some d' ∧ ∀ k, k ∈ CLAIM_FIELDS -> d' !! k = d !! k.
Proof.
  intros Hpool Hstep Hd.
  destruct Hstep as [ev ps w | i ps w Hin | e j o k ps w Hj]; simpl in *;
    [by exists d | by exists d |].
  apply exec_op_claim_fields; [|done]. by destruct (Hpool j _ Hj) as [Hop _].
Qed.

(** X27. No record is ever removed, and what the claim wrote stays: from a
    state the system reaches, however the two functions go on, a record that
    is in the store is still there and has the [doc_id], [bucket],
    [filename] and [created_at] it had. *)
Theorem claim_fields_are_kept (s s' : pool * world) (doc_id : string) (d : document) :
  reachable_ s -> rtc step_ s s' ->
  w_store s.2 !! doc_id = Some d ->
  ∃ d', w_store s'.2 !! doc_id = Some d' ∧
        ∀ k, k ∈ CLAIM_FIELDS -> d' !! k = d !! k.
Proof.
  intros Hreach Hsteps Hd.
  assert (pool_keeps_claim_fields s) as Hpool.
  { eapply (rtc_ind_r (λ s, pool_keeps_claim_fields s)); [| |exact Hreach].
    - intros j p. simpl. by rewrite lookup_nil.
    - intros y z _ Hstep Hy. by eapply pool_keeps_claim_fields_step. }
  revert d Hd. induction Hsteps as [s|s s1 s' Hstep _ IH]; intros d Hd.
  - by exists d.
  - destruct (claim_fields_step s s1 doc_id d Hpool Hstep Hd) as (d1 & Hd1 & Hsame1).
    destruct (IH (rtc_r _ _ _ Hreach Hstep)
                 (pool_keeps_claim_fields_step _ _ Hpool Hstep) d1 Hd1)
      as (d' & Hd' & Hsame).
    exists d'. split; [exact Hd'|]. intros k Hk. by rewrite Hsame, Hsame1.
Qed.

(** The scheduler functions take steps of the system from any state. *)
Lemma steps_run_operation (e : env) (j : nat) (s : pool * world) :
  rtc step_ s (run_operation guess_type PROJECT_ID LOCATION_ID e j s).
Proof.
  unfold run_operation. destruct s as [ps w]. simpl.
  destruct (ps !! j) as [[r|x|o k]|] eqn:Hj; try apply rtc_refl.
  apply rtc_once. by apply step_operation.
Qed.

Lemma steps_iter_run_operation (e : env) (j n : nat) (s : pool * world) :
  rtc step_ s (Nat.iter n (run_operation guess_type PROJECT_ID LOCATION_ID e j) s).
Proof.
  induction n as [|n IH]; [apply rtc_refl|]. simpl.
  eapply rtc_trans; [exact IH | apply steps_run_operation].
Qed.

Lemma steps_deliver_pointer (doc_id : string) (s : pool * world) :
  doc_id ∈ w_topic s.2 -> rtc step_ s (deliver_pointer DRY_RUN doc_id s).
Proof.
  unfold deliver_pointer. intros Hin. destruct s as [ps w].
  apply rtc_once. by apply step_pointer_delivery.
Qed.

End Pipeline.

(** * The statements on the example run *)

Lemma queued_state_reachable : example_reachable queued_state.
Proof.
  apply reachable_iter_run_operation, reachable_deliver_upload. apply rtc_refl.
Qed.

Lemma posting_state_reachable : example_reachable posting_state.
Proof.
  apply reachable_iter_run_operation, reachable_deliver_pointer;
    [apply queued_state_reachable|].
  vm_compute. left.
Qed.

Lemma posted_state_reachable : example_reachable posted_state.
Proof. apply reachable_iter_run_operation, posting_state_reachable. Qed.

Lemma claim_document_first_writer_wins_witness :
  (∃ d : document,
     claim_document TxCommits 1000 example_id "bakery" "croissant.jpg" ∅
       = (true, <[example_id := d]> ∅) ∧
     d !! "status" = Some (VStr "RECEIVED") ∧
     d !! "doc_id" = Some (VStr example_id) ∧
     d !! "bucket" = Some (VStr "bakery") ∧
     d !! "filename" = Some (VStr "croissant.jpg") ∧
     d !! "created_at" = Some (VTime 1000) ∧
     d !! "lock_token" = None ∧ d !! "locked_at" = None) ∧
  claim_document TxCommits 1000 example_id "bakery" "croissant.jpg"
    {[example_id := received_record]} = (false, {[example_id := received_record]}) ∧
  claim_document TxCommitFails 1000 example_id "bakery" "croissant.jpg" ∅ = (false, ∅).
Proof.
  split; [|split].
  - destruct (claim_document_first_writer_wins TxCommits 1000 example_id "bakery"
                "croissant.jpg" ∅) as (Hnew & _ & _).
    apply Hnew; reflexivity.
  - destruct (claim_document_first_writer_wins TxCommits 1000 example_id "bakery"
                "croissant.jpg" {[example_id := received_record]}) as (_ & Hold & _).
    apply Hold. apply (mk_is_Some _ received_record). apply lookup_singleton_eq.
  - destruct (claim_document_first_writer_wins TxCommitFails 1000 example_id "bakery"
                "croissant.jpg" ∅) as (_ & _ & Hfault).
    apply Hfault. discriminate.
Defined.


Lemma release_with_stale_token_is_rejected_witness :
  (release_lock_success TxCommits 3000 example_id "stale" "localPosts/9"
     {[example_id := posting_record]} = (false, {[example_id := posting_record]}) ∧
   release_lock_failure TxCommits 3000 example_id "stale" "GBP_PERMANENT: 403"
     {[example_id := posting_record]} = (false, {[example_id := posting_record]})) ∧
  (release_lock_success TxCommits 5000 example_id example_token "localPosts/9"
     {[example_id := posted_record]} = (false, {[example_id := posted_record]}) ∧
   release_lock_failure TxCommits 5000 example_id example_token "GBP_PERMANENT: 403"
     {[example_id := posted_record]} = (false, {[example_id := posted_record]})).
Proof.
  split.
  - split.
    + destruct (release_with_stale_token_is_rejected TxCommits 3000 example_id "stale"
                  {[example_id := posting_record]}) as (Hstale & _).
      apply (Hstale "localPosts/9"). intros d Hd.
      rewrite lookup_singleton_eq in Hd.
      assert (d = posting_record) as -> by congruence. discriminate.
    + destruct (release_with_stale_token_is_rejected TxCommits 3000 example_id "stale"
                  {[example_id := posting_record]}) as (Hstale & _).
      apply (Hstale "GBP_PERMANENT: 403"). intros d Hd.
      rewrite lookup_singleton_eq in Hd.
      assert (d = posting_record) as -> by congruence. discriminate.
  - destruct (release_with_stale_token_is_rejected TxCommits 3000 example_id
                example_token {[example_id := posting_record]}) as (_ & Hagain).
    assert (release_lock_success TxCommits 3000 example_id example_token
              "accounts/1/locations/2/localPosts/9" {[example_id := posting_record]}
            = (true, {[example_id := posted_record]})) as Hreleased.
    { compute_done. }
    destruct (Hagain _ _ (or_introl Hreleased) TxCommits 5000 "localPosts/9")
      as [Hs _].
    destruct (Hagain _ _ (or_introl Hreleased) TxCommits 5000 "GBP_PERMANENT: 403")
      as [_ Hf].
    split; [exact Hs | exact Hf].
Defined.

Lemma acquire_posting_lock_without_locked_at_witness :
  ∃ d', acquire_posting_lock TxCommits 3000 example_token 2001 example_id
          {[example_id := unstamped_record]}
          = (Some example_token, <[example_id := d']> {[example_id := unstamped_record]}) ∧
        acquired_by unstamped_record d' example_token 2001.
Proof.
  apply (acquire_posting_lock_without_locked_at 3000 2001 example_token example_id
           {[example_id := unstamped_record]} unstamped_record).
  - apply lookup_singleton_eq.
  - reflexivity.
  - reflexivity.
Defined.

Lemma sentinel_check_rejects_overlong_witness :
  dict_get overlong_candidate "caption" = Some (JStr (words 41)) ∧
  (40 < length (py_split (words 41)))%nat ∧
  sentinel_check (JObject overlong_candidate) = Ok (false, "TOO_LONG (41 words)").
Proof.
  split; [reflexivity|]. split; [vm_compute; lia|].
  apply (sentinel_check_rejects_overlong overlong_candidate (words 41));
    [reflexivity | vm_compute; lia].
Defined.


Lemma terminal_records_are_immutable_witness :
  example_reachable posted_state ∧
  w_store posted_state.2 !! example_id = Some posted_record ∧
  terminal posted_record ∧
  posted_record !! "lock_token" = None ∧
  (∀ s',
     rtc (step example_digest example_guess_type false example_project
            example_location) posted_state s' ->
     w_store s'.2 !! example_id = Some posted_record) ∧
  (∀ fault server_time lock_token now,
     acquire_posting_lock fault server_time lock_token now example_id
       (w_store posted_state.2) = (None, w_store posted_state.2)) ∧
  (∀ fault server_time lock_token text,
     release_lock_success fault server_time example_id lock_token text
       (w_store posted_state.2) = (false, w_store posted_state.2) ∧
     release_lock_failure fault server_time example_id lock_token text
       (w_store posted_state.2) = (false, w_store posted_state.2)).
Proof.
  assert (w_store posted_state.2 !! example_id = Some posted_record) as Hrecord.
  { compute_done. }
  assert (terminal posted_record) as Hterminal.
  { left. reflexivity. }
  split; [exact posted_state_reachable|]. split; [exact Hrecord|].
  split; [exact Hterminal|].
  exact (terminal_records_are_immutable example_digest example_guess_type false
           example_project example_location posted_state example_id posted_record
           posted_state_reachable Hrecord Hterminal).
Defined.

Lemma lock_token_iff_posting_witness :
  example_reachable posting_state ∧
  w_store posting_state.2 !! example_id = Some posting_record ∧
  (is_Some (posting_record !! "lock_token") <-> has_status posting_record "POSTING") ∧
  (is_Some (posting_record !! "locked_at") <-> has_status posting_record "POSTING").
Proof.
  assert (w_store posting_state.2 !! example_id = Some posting_record) as Hrecord.
  { compute_done. }
  split; [exact posting_state_reachable|]. split; [exact Hrecord|].
  destruct (lock_token_iff_posting example_digest example_guess_type false
              example_project example_location) as (Hinv & _ & _).
  exact (Hinv posting_state example_id posting_record posting_state_reachable Hrecord).
Defined.


Lemma process_post_queue_incomplete_document_witness :
  incomplete received_record ∧
  ∃ w',
    example_run [busy_env; busy_env]
      (process_post_queue false (PubsubPointer example_id)) received_world
      = (Ret tt, w') ∧
    example_trace [busy_env; busy_env]
      (process_post_queue false (PubsubPointer example_id)) received_world
      = [GetSnapshot example_id;
         SendToDlq example_id (py_get_default received_record "filename" (VStr "unknown"))
           "INCOMPLETE_DOCUMENT" POSTER] ∧
    w_store w' = w_store received_world ∧ w_topic w' = w_topic received_world ∧
    (∀ f, json_text (py_get_default received_record "filename" (VStr "unknown"))
            = Some f ->
          e_io_ok busy_env = true ->
          w_dlq w' = (w_dlq received_world
                        ++ [incomplete_document_msg example_id f (e_utcnow busy_env)])%list).
Proof.
  assert (incomplete received_record) as Hincomplete.
  { left. reflexivity. }
  split; [exact Hincomplete|].
  apply (process_post_queue_incomplete_document example_guess_type example_project
           example_location false busy_env busy_env example_id received_world
           received_record).
  - reflexivity.
  - apply lookup_singleton_eq.
  - reflexivity.
  - exact Hincomplete.
Defined.

(** * The further statements on examples *)

Lemma make_doc_id_raw_unambiguous_witness :
  py_in ":" "bakery" = false ∧ py_in ":" "17" = false ∧
  ("bakery" = "bakery" ∧ "tarts:apple.jpg" = "tarts:apple.jpg" ∧ "17" = "17").
Proof.
  destruct (make_doc_id_raw_unambiguous example_digest "bakery" "tarts:apple.jpg" "17"
              "bakery" "tarts:apple.jpg" "17") as [_ Hsame].
  split; [reflexivity|]. split; [reflexivity|].
  exact (Hsame eq_refl eq_refl eq_refl eq_refl eq_refl).
Defined.

Lemma get_mime_type_allowed_witness :
  get_mime_type example_guess_type "CROISSANT.JPG" = Some "image/jpeg" ∧
  "image/jpeg" ∈ ALLOWED_MIME_TYPES ∧
  example_guess_type (py_lower "CROISSANT.JPG") = Some "image/jpeg".
Proof.
  destruct (get_mime_type_allowed example_guess_type "CROISSANT.JPG") as [Hallowed _].
  split; [reflexivity|]. exact (Hallowed "image/jpeg" eq_refl).
Defined.

Lemma sentinel_check_rejects_price_language_witness :
  dict_get discount_candidate "caption" = Some (JStr discount_caption) ∧
  price_marker "discount" ∧
  py_in "discount" discount_caption = false ∧
  ∃ reason, sentinel_check (JObject discount_candidate) = Ok (false, reason).
Proof.
  assert (price_marker "discount") as Hmarker by (left; apply list_elem_of_here).
  split; [reflexivity|]. split; [exact Hmarker|]. split; [reflexivity|].
  exact (sentinel_check_rejects_price_language discount_candidate discount_caption
           "discount" eq_refl Hmarker eq_refl).
Defined.

Lemma sentinel_check_approves_exactly_witness :
  sentinel_check good_candidate = Ok (true, "APPROVED").
Proof.
  apply (sentinel_check_approves_exactly good_candidate "APPROVED").
  split; [reflexivity|].
  exists [("caption", JStr good_caption); ("word_count", JInt 8);
          ("contains_price", JBool false)], good_caption.
  split; [reflexivity|]. split; [reflexivity|]. split; [reflexivity|].
  split; [vm_compute; lia|reflexivity].
Defined.

Lemma sentinel_check_price_detected_quotes_witness :
  sentinel_check (JObject discount_candidate) = Ok (false, "PRICE_DETECTED: 'discount'") ∧
  str_is_empty "discount" = false ∧
  py_in "discount" (py_lower discount_caption) = true.
Proof.
  split; [reflexivity|].
  exact (sentinel_check_price_detected_quotes discount_candidate discount_caption
           "discount" eq_refl eq_refl).
Defined.

Lemma generate_with_react_draft_sound_witness :
  (generate_with_react example_guess_type (Ok []) second_try_model "bakery"
     "croissant.jpg").1 = Some good_caption ∧
  is_Some (get_mime_type example_guess_type "croissant.jpg") ∧
  (5 <= length (py_split good_caption) <= 40)%nat ∧
  ∀ marker, price_marker marker -> py_in marker (py_lower good_caption) = false.
Proof.
  split; [reflexivity|].
  exact (generate_with_react_draft_sound example_guess_type (Ok []) second_try_model
           "bakery" "croissant.jpg" good_caption eq_refl).
Defined.

Lemma generate_with_react_prompts_witness :
  let calls := (generate_with_react example_guess_type (Ok []) hopeless_model "bakery"
                  "croissant.jpg").2 in
  let first := base_prompt NO_PREVIOUS_POSTS in
  let second := first ++ critic_rejected "TOO_SHORT (2 words)" "Fresh bread" in
  let third := second ++ critic_bad_json in
  calls = [first; second; third] ∧
  second = first ++ feedback (hopeless_model 0 first) ∧
  third = second ++ feedback (hopeless_model 1 second).
Proof.
  cbv zeta. split; [reflexivity|].
  destruct (generate_with_react_prompts example_guess_type (Ok []) hopeless_model
              "bakery" "croissant.jpg") as (_ & Hnext & _).
  split.
  - apply (Hnext 0%nat); reflexivity.
  - apply (Hnext 1%nat); reflexivity.
Defined.

Lemma retrieve_memory_never_empty_witness :
  retrieve_memory (Ok [({["draft" := VInt 7]} : document)]) = NO_PREVIOUS_POSTS ∧
  retrieve_memory (Raised io_error) = NO_PREVIOUS_POSTS ∧
  str_is_empty (retrieve_memory (Ok [queued_record])) = false.
Proof.
  split; [|split].
  - destruct (retrieve_memory_never_empty (Ok [({["draft" := VInt 7]} : document)]))
      as (_ & _ & _ & Hbroken).
    apply (Hbroken _ ({["draft" := VInt 7]} : document) eq_refl).
    + apply list_elem_of_here.
    + reflexivity.
    + intros s Hs. vm_compute in Hs. discriminate.
  - destruct (retrieve_memory_never_empty (Raised io_error)) as (_ & Hraised & _).
    exact (Hraised io_error eq_refl).
  - destruct (retrieve_memory_never_empty (Ok [queued_record])) as (Hnonempty & _).
    exact Hnonempty.
Defined.

Lemma update_status_frame_witness :
  update_status true 3000 "missing" "FAILED" [] {[example_id := received_record]}
    = {[example_id := received_record]} ∧
  ∃ d', update_status true 3000 example_id "GENERATING" []
          {[example_id := received_record]} !! example_id = Some d' ∧
        d' !! "filename" = received_record !! "filename" ∧
        d' !! "status" = Some (VStr "GENERATING") ∧
        d' !! "updated_at" = Some (VTime 3000).
Proof.
  split.
  - destruct (update_status_frame true 3000 "missing" "FAILED" []
                {[example_id := received_record]}) as (Hmissing & _).
    apply Hmissing. right. compute_done.
  - destruct (update_status_frame true 3000 example_id "GENERATING" []
                {[example_id := received_record]}) as (_ & _ & _ & Hwritten).
    destruct (Hwritten received_record eq_refl) as (d' & Hd' & Hkeep & Hstatus & Hat).
    { compute_done. }
    exists d'. split; [exact Hd'|]. split; [|split].
    + apply Hkeep; [discriminate | discriminate | apply not_elem_of_nil].
    + apply Hstatus, not_elem_of_nil.
    + apply Hat, not_elem_of_nil.
Defined.

Lemma process_upload_always_acknowledges_witness :
  (9 <= length (replicate 9 unsigned_env))%nat ∧
  (example_run (replicate 9 unsigned_env)
     (process_upload example_digest example_guess_type example_upload) empty_world).1
    = Ret tt.
Proof.
  assert (9 <= length (replicate 9 unsigned_env))%nat as Hlen by (simpl; lia).
  split; [exact Hlen|].
  exact (process_upload_always_acknowledges example_digest example_guess_type
           example_project example_location example_upload (replicate 9 unsigned_env)
           empty_world Hlen).
Defined.

Lemma process_upload_queues_and_publishes_witness :
  ∃ w' d',
    example_run (replicate 7 busy_env)
      (process_upload example_digest example_guess_type example_upload) empty_world
      = (Ret tt, w') ∧
    w_topic w' = [example_id] ∧
    w_store w' !! example_id = Some d' ∧
    d' !! "status" = Some (VStr "QUEUED") ∧
    d' !! "draft" = Some (VStr good_caption) ∧
    d' !! "image_url" = Some (VStr example_url) ∧
    d' !! "signed_url_expires" = Some (VTime 3600002000).
Proof.
  destruct (process_upload_queues_and_publishes example_digest example_guess_type
              example_project example_location example_upload
              busy_env busy_env busy_env busy_env busy_env busy_env busy_env
              empty_world good_caption example_url)
    as (w' & d' & Hrun & Htopic & _ & _ & Hd' & Hstatus & Hdraft & Hurl & Hexpires & _).
  - apply (mk_is_Some _ "image/jpeg"). reflexivity.
  - compute_done.
  - reflexivity.
  - reflexivity.
  - reflexivity.
  - reflexivity.
  - reflexivity.
  - reflexivity.
  - exists w', d'. split; [exact Hrun|]. split; [exact Htopic|]. split; [exact Hd'|].
    split; [exact Hstatus|]. split; [exact Hdraft|]. split; [exact Hurl|].
    exact Hexpires.
Defined.

Lemma process_upload_skipped_deliveries_witness :
  example_run [busy_env]
    (process_upload example_digest example_guess_type
       {| ev_bucket := "bakery"; ev_name := "notes.txt"; ev_generation := "3" |})
    empty_world = (Ret tt, empty_world) ∧
  example_run [busy_env; busy_env]
    (process_upload example_digest example_guess_type example_upload) queued_world
    = (Ret tt, queued_world) ∧
  example_run [faulty_env; busy_env]
    (process_upload example_digest example_guess_type example_upload) empty_world
    = (Ret tt, empty_world).
Proof.
  split; [|split].
  - destruct (process_upload_skipped_deliveries example_digest example_guess_type example_project
                example_location
                {| ev_bucket := "bakery"; ev_name := "notes.txt"; ev_generation := "3" |}
                busy_env [] empty_world) as [Hskip _].
    by destruct (Hskip eq_refl) as [Hrun _].
  - destruct (process_upload_skipped_deliveries example_digest example_guess_type example_project
                example_location example_upload busy_env [busy_env] queued_world)
      as [_ Hclaimed].
    destruct Hclaimed as [Hrun _]; [|left|exact Hrun].
    + apply (mk_is_Some _ "image/jpeg"). reflexivity.
    + apply (mk_is_Some _ queued_record). compute_done.
  - destruct (process_upload_skipped_deliveries example_digest example_guess_type example_project
                example_location example_upload faulty_env [busy_env] empty_world)
      as [_ Hclaimed].
    destruct Hclaimed as [Hrun _]; [|right; discriminate|exact Hrun].
    apply (mk_is_Some _ "image/jpeg"). reflexivity.
Defined.

Lemma process_upload_without_draft_witness :
  ∃ w' d',
    example_run [busy_env; busy_env; hopeless_env; busy_env; busy_env]
      (process_upload example_digest example_guess_type example_upload) empty_world
      = (Ret tt, w') ∧
    w_topic w' = [] ∧
    length (w_dlq w') = 1%nat ∧
    w_store w' !! example_id = Some d' ∧
    d' !! "status" = Some (VStr "FAILED") ∧
    d' !! "failure_reason" = Some (VStr "SENTINEL_BLOCKED_ALL_ATTEMPTS") ∧
    d' !! "draft" = None.
Proof.
  destruct (process_upload_without_draft example_digest example_guess_type
              example_project example_location example_upload
              busy_env busy_env hopeless_env busy_env busy_env empty_world)
    as (w' & d' & Hrun & Htopic & Hdlq & _ & Hd' & Hstatus & Hreason & Hdraft & _).
  - apply (mk_is_Some _ "image/jpeg"). reflexivity.
  - compute_done.
  - reflexivity.
  - reflexivity.
  - reflexivity.
  - reflexivity.
  - exists w', d'. split; [exact Hrun|]. split; [exact Htopic|].
    split; [by rewrite Hdlq|]. split; [exact Hd'|].
    split; [exact Hstatus|]. split; [exact Hreason|]. exact Hdraft.
Defined.

Lemma process_upload_signed_url_failure_witness :
  ∃ w' d',
    example_run [busy_env; busy_env; busy_env; unsigned_env; busy_env; busy_env]
      (process_upload example_digest example_guess_type example_upload) empty_world
      = (Ret tt, w') ∧
    w_topic w' = [] ∧
    w_store w' !! example_id = Some d' ∧
    d' !! "status" = Some (VStr "FAILED") ∧
    d' !! "failure_reason" = Some (VStr "Forbidden: iam.serviceAccounts.signBlob") ∧
    d' !! "draft" = None.
Proof.
  destruct (process_upload_signed_url_failure example_digest example_guess_type
              example_project example_location example_upload
              busy_env busy_env busy_env unsigned_env busy_env busy_env empty_world
              good_caption signing_error)
    as (w' & d' & Hrun & Htopic & _ & Hd' & Hstatus & Hreason & Hdraft & _).
  - apply (mk_is_Some _ "image/jpeg"). reflexivity.
  - compute_done.
  - reflexivity.
  - reflexivity.
  - reflexivity.
  - reflexivity.
  - reflexivity.
  - exists w', d'. split; [exact Hrun|]. split; [exact Htopic|]. split; [exact Hd'|].
    split; [exact Hstatus|]. split; [exact Hreason|]. exact Hdraft.
Defined.

Lemma process_upload_publish_failure_witness :
  ∃ w' d',
    example_run [busy_env; busy_env; busy_env; busy_env; busy_env; busy_env;
                 offline_env; busy_env; busy_env]
      (process_upload example_digest example_guess_type example_upload) empty_world
      = (Ret tt, w') ∧
    w_topic w' = [] ∧
    w_store w' !! example_id = Some d' ∧
    d' !! "status" = Some (VStr "FAILED") ∧
    d' !! "draft" = Some (VStr good_caption) ∧
    d' !! "image_url" = Some (VStr example_url).
Proof.
  destruct (process_upload_publish_failure example_digest example_guess_type
              example_project example_location example_upload
              busy_env busy_env busy_env busy_env busy_env busy_env offline_env
              busy_env busy_env empty_world good_caption example_url)
    as (w' & d' & Hrun & Htopic & _ & Hd' & Hstatus & _ & Hdraft & Hurl & _).
  - apply (mk_is_Some _ "image/jpeg"). reflexivity.
  - compute_done.
  - reflexivity.
  - reflexivity.
  - reflexivity.
  - reflexivity.
  - reflexivity.
  - reflexivity.
  - reflexivity.
  - exists w', d'. split; [exact Hrun|]. split; [exact Htopic|]. split; [exact Hd'|].
    split; [exact Hstatus|]. split; [exact Hdraft|]. exact Hurl.
Defined.

Lemma process_upload_swallowed_update_witness :
  ∃ w' d',
    example_run [busy_env; busy_env; busy_env; busy_env; busy_env; offline_env;
                 busy_env]
      (process_upload example_digest example_guess_type example_upload) empty_world
      = (Ret tt, w') ∧
    w_topic w' = [example_id] ∧
    w_store w' !! example_id = Some d' ∧
    (has_status d' "RECEIVED" ∨ has_status d' "GENERATING") ∧
    incomplete d'.
Proof.
  destruct (process_upload_swallowed_update example_digest example_guess_type
              example_project example_location example_upload
              busy_env busy_env busy_env busy_env busy_env offline_env busy_env
              empty_world good_caption example_url)
    as (w' & d' & Hrun & Htopic & _ & Hd' & Hstatus & Hincomplete).
  - apply (mk_is_Some _ "image/jpeg"). reflexivity.
  - compute_done.
  - reflexivity.
  - reflexivity.
  - reflexivity.
  - reflexivity.
  - reflexivity.
  - exists w', d'. split; [exact Hrun|]. split; [exact Htopic|]. split; [exact Hd'|].
    split; [exact Hstatus|]. exact Hincomplete.
Defined.

Lemma post_to_gbp_verdicts_witness :
  (∃ error status_code,
     post_to_gbp example_project example_location (Ok "ya29.token") (e_http busy_env)
       (VStr good_caption) (VStr example_url)
     = Ok (GbpFailure error status_code true)) ∧
  post_to_gbp None example_location (Ok "ya29.token") (e_http posting_env)
    (VStr good_caption) (VStr example_url)
  = Ok (GbpFailure "Config errors: GCP_PROJECT env var not set" 0 false).
Proof.
  split.
  - destruct (post_to_gbp_verdicts example_project example_location (Ok "ya29.token")
                (e_http busy_env) (VStr good_caption) (VStr example_url))
      as (_ & Hretryable & _).
    apply Hretryable; [reflexivity | by eexists | by eexists |].
    right; right. exists 503, "Service Unavailable", (Ok None).
    split; [reflexivity|]. vm_compute. do 3 right. left.
  - destruct (post_to_gbp_verdicts None example_location (Ok "ya29.token")
                (e_http posting_env) (VStr good_caption) (VStr example_url))
      as (_ & _ & Hconfig).
    apply Hconfig. discriminate.
Defined.

Lemma process_post_queue_posts_witness :
  ∃ w' d',
    example_run [busy_env; busy_env; posting_env; posting_env]
      (process_post_queue false (PubsubPointer example_id)) queued_world
      = (Ret tt, w') ∧
    w_topic w' = [example_id] ∧ w_dlq w' = [] ∧
    w_store w' !! example_id = Some d' ∧
    d' !! "status" = Some (VStr "POSTED") ∧
    d' !! "gbp_post_name" = Some (VStr "accounts/1/locations/2/localPosts/9") ∧
    d' !! "lock_token" = None.
Proof.
  destruct (process_post_queue_posts example_guess_type example_project
              example_location busy_env busy_env posting_env posting_env
              example_id good_caption example_url "ya29.token" EmptyString
              (Some "accounts/1/locations/2/localPosts/9") queued_world queued_record)
    as (w' & d' & Hrun & _ & Htopic & Hdlq & _ & Hd' & Hstatus & Hname & _ & Htoken & _).
  - reflexivity.
  - compute_done.
  - reflexivity.
  - compute_done.
  - reflexivity.
  - compute_done.
  - reflexivity.
  - compute_done.
  - reflexivity.
  - reflexivity.
  - reflexivity.
  - reflexivity.
  - reflexivity.
  - reflexivity.
  - exists w', d'. split; [exact Hrun|]. split; [exact Htopic|]. split; [exact Hdlq|].
    split; [exact Hd'|]. split; [exact Hstatus|]. split; [exact Hname|]. exact Htoken.
Defined.


Lemma process_post_queue_permanent_failure_witness :
  ∃ w' d',
    example_run [busy_env; busy_env; forbidden_env; posting_env; posting_env]
      (process_post_queue false (PubsubPointer example_id)) queued_world
      = (Ret tt, w') ∧
    length (w_dlq w') = 1%nat ∧
    w_store w' !! example_id = Some d' ∧
    d' !! "status" = Some (VStr "FAILED") ∧
    d' !! "failure_reason"
      = Some (VStr "GBP_PERMANENT: The caller does not have permission") ∧
    d' !! "lock_token" = None.
Proof.
  destruct (process_post_queue_permanent_failure example_guess_type example_project
              example_location busy_env busy_env forbidden_env posting_env posting_env
              example_id good_caption example_url "croissant.jpg"
              "GBP_PERMANENT: The caller does not have permission"
              queued_world queued_record)
    as (w' & d' & Hrun & _ & _ & Hdlq & Hd' & Hstatus & Hreason & Htoken & _).
  - reflexivity.
  - compute_done.
  - reflexivity.
  - compute_done.
  - reflexivity.
  - compute_done.
  - reflexivity.
  - compute_done.
  - compute_done.
  - reflexivity.
  - reflexivity.
  - left. exists "The caller does not have permission", 403. split; reflexivity.
  - reflexivity.
  - reflexivity.
  - exists w', d'. split; [exact Hrun|]. split; [by rewrite Hdlq|].
    split; [exact Hd'|]. split; [exact Hstatus|]. split; [exact Hreason|]. exact Htoken.
Defined.

Lemma process_post_queue_reraises_missing_refresh_token_witness :
  ∃ w' d',
    example_run [busy_env; busy_env; unrefreshable_env]
      (process_post_queue false (PubsubPointer example_id)) queued_world
      = (Raise (RuntimeError NO_REFRESH_TOKEN), w') ∧
    classify_error (RuntimeError NO_REFRESH_TOKEN) = PERMANENT ∧
    w_dlq w' = [] ∧
    w_store w' !! example_id = Some d' ∧
    acquired_by queued_record d' example_token 2000.
Proof.
  destruct (process_post_queue_reraises_missing_refresh_token example_guess_type
              example_project example_location busy_env busy_env unrefreshable_env
              example_id good_caption example_url queued_world queued_record
              expired_secret (Ok "ya29.fresh") true)
    as (w' & d' & Hrun & Hclass & _ & Hdlq & Hd' & Hacquired).
  - reflexivity.
  - compute_done.
  - reflexivity.
  - compute_done.
  - reflexivity.
  - compute_done.
  - reflexivity.
  - compute_done.
  - reflexivity.
  - reflexivity.
  - reflexivity.
  - reflexivity.
  - reflexivity.
  - exists w', d'. split; [exact Hrun|]. split; [exact Hclass|]. split; [exact Hdlq|].
    split; [exact Hd'|]. exact Hacquired.
Defined.

Lemma process_post_queue_dry_run_witness :
  ∃ w' d',
    example_run [busy_env; busy_env; offline_env; posting_env]
      (process_post_queue true (PubsubPointer example_id)) queued_world
      = (Ret tt, w') ∧
    example_trace [busy_env; busy_env; offline_env; posting_env]
      (process_post_queue true (PubsubPointer example_id)) queued_world
      = [GetSnapshot example_id; AcquirePostingLock example_id;
         DryRunPost example_id (VStr good_caption) (VStr example_url);
         ReleaseLockSuccess example_id example_token "DRY_RUN"] ∧
    w_store w' !! example_id = Some d' ∧
    d' !! "status" = Some (VStr "POSTED") ∧
    d' !! "gbp_post_name" = Some (VStr "DRY_RUN").
Proof.
  destruct (process_post_queue_dry_run example_guess_type example_project
              example_location busy_env busy_env offline_env posting_env
              example_id good_caption example_url queued_world queued_record)
    as (w' & d' & Hrun & Htrace & _ & _ & Hd' & Hstatus & Hname & _).
  - reflexivity.
  - compute_done.
  - reflexivity.
  - compute_done.
  - reflexivity.
  - compute_done.
  - reflexivity.
  - compute_done.
  - reflexivity.
  - reflexivity.
  - reflexivity.
  - exists w', d'. split; [exact Hrun|]. split; [exact Htrace|]. split; [exact Hd'|].
    split; [exact Hstatus|]. exact Hname.
Defined.

Lemma process_post_queue_acknowledges_untouched_witness :
  example_run [offline_env]
    (process_post_queue false (PubsubPointer example_id)) posted_world
    = (Raise io_error, posted_world) ∧
  example_run [busy_env]
    (process_post_queue false (PubsubPointer example_id)) empty_world
    = (Ret tt, empty_world) ∧
  example_run [busy_env; posting_env]
    (process_post_queue false (PubsubPointer example_id)) posted_world
    = (Ret tt, posted_world).
Proof.
  split; [|split].
  - destruct (process_post_queue_acknowledges_untouched example_guess_type
                example_project example_location false offline_env busy_env []
                example_id posted_world) as [_ Hpointer].
    destruct (Hpointer eq_refl) as (Hraise & _). exact (Hraise eq_refl).
  - destruct (process_post_queue_acknowledges_untouched example_guess_type
                example_project example_location false busy_env busy_env []
                example_id empty_world) as [_ Hpointer].
    destruct (Hpointer eq_refl) as (_ & Hmissing & _).
    destruct (Hmissing eq_refl) as [Hrun _]; [compute_done|exact Hrun].
  - destruct (process_post_queue_acknowledges_untouched example_guess_type
                example_project example_location false busy_env posting_env []
                example_id posted_world) as [_ Hpointer].
    destruct (Hpointer eq_refl) as (_ & _ & Hunlocked).
    destruct (Hunlocked posted_record eq_refl) as [Hrun _]; [compute_done| |compute_done|exact Hrun].
    intros [Hdraft|Hurl]; [vm_compute in Hdraft|vm_compute in Hurl]; discriminate.
Defined.


Lemma pointers_published_once_witness :
  example_reachable posted_state ∧
  NoDup (w_topic posted_state.2) ∧
  ∀ doc_id, doc_id ∈ w_topic posted_state.2 ->
            is_Some (w_store posted_state.2 !! doc_id).
Proof.
  split; [exact posted_state_reachable|].
  exact (pointers_published_once example_digest example_guess_type false
           example_project example_location posted_state posted_state_reachable).
Defined.

Lemma claim_fields_are_kept_witness :
  w_store queued_state.2 !! example_id = Some queued_record ∧
  ∃ d', w_store posted_state.2 !! example_id = Some d' ∧
        ∀ k, k ∈ CLAIM_FIELDS -> d' !! k = queued_record !! k.
Proof.
  assert (w_store queued_state.2 !! example_id = Some queued_record) as Hd
    by compute_done.
  split; [exact Hd|].
  apply (claim_fields_are_kept example_digest example_guess_type false example_project
           example_location queued_state posted_state example_id queued_record).
  - exact queued_state_reachable.
  - eapply rtc_trans; [|apply steps_iter_run_operation].
    eapply rtc_trans; [|apply steps_iter_run_operation].
    apply steps_deliver_pointer. vm_compute. left.
  - exact Hd.
Defined.
